(** * laserchicken feature extractors: echo ratio, height percentiles and
    the vectorized eigen-structure extractor.

    The development embeds
      - [laserchicken/feature_extractor/echo_ratio_feature_extractor.py],
      - [laserchicken/feature_extractor/percentile_feature_extractor.py],
      - [laserchicken/feature_extractor/eigenvals_feature_extractor.py],
      - the serial reference [EigenValueSerial] of
        [test_eigenvals_feature_extractor.py],
    together with the numpy / scipy routines they call, and states the
    properties of the specification over that embedding.

    Numbers.  A numpy [float64] is modelled by [Float64.float64]: a
    rational, or one of the IEEE special values [+inf], [-inf], [nan].
    Special values propagate as IEEE 754 prescribes (0/0 = nan, x/0 = inf,
    inf - inf = nan, comparisons with nan are false); the sign of zero is
    not modelled.  Two arithmetics are defined on these values.

      - [Binary64] is IEEE 754 binary64 arithmetic: every operation
        rounds its exact result to the nearest binary64 number (ties to
        even, gradual underflow) and overflows to an infinity.  The echo
        ratio extractor is embedded with it, and so is the percentile
        extractor as it runs on floats ([ScipyStats64], [Percentile64]).
      - The operations of [Float64] itself are exact on finite values.
        The eigen-structure extractors and the second embedding of the
        percentile extractor ([ScipyStats], [Percentile]) use them; a
        theorem stated over these is about the computation in exact
        arithmetic, and where a bound on the input appears it keeps the
        binary64 computation clear of overflow. *)

From Stdlib Require Import QArith Qcanon Qround Qabs Qcabs Qpower ZArith List Lia Lqa.
From Stdlib Require Import String Bool Sorting.Permutation Sorting.Sorted.
Import ListNotations.

Set Implicit Arguments.

(* ================================================================== *)
(** * Part I: definitions                                               *)
(* ================================================================== *)

(** ** float64 *)

Module Float64.

Inductive float64 : Type :=
| Fin (q : Qc)
| PInf
| NInf
| NaN.

Definition of_Z (z : Z) : float64 := Fin (Q2Qc (inject_Z z)).

Definition of_nat (n : nat) : float64 := of_Z (Z.of_nat n).

Definition zero : float64 := Fin 0.

Definition one : float64 := Fin 1.

Definition isfinite (x : float64) : bool :=
  match x with Fin _ => true | _ => false end.

(** Sign of a value: [Gt] positive, [Lt] negative, [Eq] zero (or nan). *)
Definition sign (x : float64) : comparison :=
  match x with
  | Fin q => (q ?= 0)%Qc
  | PInf => Gt
  | NInf => Lt
  | NaN => Eq
  end.

Definition sign_mul (a b : comparison) : comparison :=
  match a, b with
  | Eq, _ | _, Eq => Eq
  | Gt, Gt | Lt, Lt => Gt
  | _, _ => Lt
  end.

(** The infinity of a given sign; a zero sign stands for an invalid
    operation (0 * inf, 0 / 0) and gives nan. *)
Definition inf_of_sign (c : comparison) : float64 :=
  match c with Gt => PInf | Lt => NInf | Eq => NaN end.

Definition neg (x : float64) : float64 :=
  match x with
  | Fin q => Fin (- q)
  | PInf => NInf
  | NInf => PInf
  | NaN => NaN
  end.

Definition add (x y : float64) : float64 :=
  match x, y with
  | NaN, _ | _, NaN => NaN
  | Fin a, Fin b => Fin (a + b)
  | PInf, NInf | NInf, PInf => NaN
  | PInf, _ | _, PInf => PInf
  | NInf, _ | _, NInf => NInf
  end.

Definition sub (x y : float64) : float64 := add x (neg y).

Definition mul (x y : float64) : float64 :=
  match x, y with
  | NaN, _ | _, NaN => NaN
  | Fin a, Fin b => Fin (a * b)
  | _, _ => inf_of_sign (sign_mul (sign x) (sign y))
  end.

(** True division.  A zero divisor counts as [+0]. *)
Definition div (x y : float64) : float64 :=
  match x, y with
  | NaN, _ | _, NaN => NaN
  | Fin a, Fin b =>
      if Qc_eq_bool b 0 then inf_of_sign (sign x) else Fin (a / b)
  | Fin _, _ => Fin 0
  | _, Fin b =>
      inf_of_sign (sign_mul (sign x) (if Qc_eq_bool b 0 then Gt else sign y))
  | _, _ => NaN
  end.

Definition abs (x : float64) : float64 :=
  match x with
  | Fin q => Fin (Qcabs q)
  | PInf | NInf => PInf
  | NaN => NaN
  end.

Definition Qcleb (a b : Qc) : bool := Qle_bool a b.

(** [x <= y]; false as soon as one side is nan. *)
Definition leb (x y : float64) : bool :=
  match x, y with
  | NaN, _ | _, NaN => false
  | Fin a, Fin b => Qcleb a b
  | NInf, _ => true
  | _, PInf => true
  | _, _ => false
  end.

(** [x >= y]. *)
Definition geb (x y : float64) : bool := leb y x.

(** [x == y]; false as soon as one side is nan. *)
Definition eqb (x y : float64) : bool := leb x y && leb y x.

(** The order [np.sort] uses on floats: [leb], with nan after everything. *)
Definition sort_leb (x y : float64) : bool :=
  match x, y with
  | _, NaN => true
  | NaN, _ => false
  | _, _ => leb x y
  end.

End Float64.

Import Float64.

Declare Scope f64_scope.
Delimit Scope f64_scope with f64.
Bind Scope f64_scope with float64.
Infix "+" := add : f64_scope.
Infix "-" := sub : f64_scope.
Infix "*" := mul : f64_scope.
Infix "/" := div : f64_scope.
Infix "<=?" := leb : f64_scope.

(** ** binary64 rounding *)

(** The IEEE 754 binary64 operations: the exact result of [Float64],
    rounded to the nearest number with a 53-bit significand (ties to the
    even significand, spacing [2^-1074] in the subnormal range) and
    replaced by an infinity from the overflow threshold on.  The sign of
    zero is not modelled. *)
Module Binary64.

Definition pow2 (e : Z) : Q := Qpower 2 e.

(** [floor (log2 q)] for a positive rational [q]. *)
Definition ilog2 (q : Q) : Z :=
  let e0 := (Z.log2 (Qnum q) - Z.log2 (Zpos (Qden q)))%Z in
  if Qle_bool (pow2 e0) q then e0 else (e0 - 1)%Z.

(** The integer nearest to [t], ties to the even one. *)
Definition rne (t : Q) : Z :=
  let f := Qfloor t in
  match (t - inject_Z f ?= 1 # 2)%Q with
  | Lt => f
  | Gt => (f + 1)%Z
  | Eq => if Z.even f then f else (f + 1)%Z
  end.

(** The exponent of the spacing of the binary64 numbers around [q]: 52
    places below the leading bit of [q], and not below [-1074]. *)
Definition ulp_exp (q : Q) : Z := (Z.max (ilog2 (Qabs q)) (-1022) - 52)%Z.

(** The binary64 number nearest to the rational [q]. *)
Definition round (q : Qc) : float64 :=
  if Qeq_bool q 0 then Fin 0
  else
    let sh := ulp_exp q in
    let m := rne (q / pow2 sh) in
    let v := (inject_Z m * pow2 sh)%Q in
    if Qle_bool (pow2 1024) (Qabs v) then (if (0 <? m)%Z then PInf else NInf)
    else Fin (Q2Qc v).

(** A finite exact result is rounded; infinities and nan stay. *)
Definition rounded (x : float64) : float64 :=
  match x with Fin q => round q | _ => x end.

Definition add (x y : float64) : float64 := rounded (Float64.add x y).

Definition sub (x y : float64) : float64 := rounded (Float64.sub x y).

Definition mul (x y : float64) : float64 := rounded (Float64.mul x y).

Definition div (x y : float64) : float64 := rounded (Float64.div x y).

(** Conversion of an integer to binary64. *)
Definition of_Z (z : Z) : float64 := round (Q2Qc (inject_Z z)).

(** [q] is a binary64 number. *)
Definition representable (q : Qc) : Prop := round q = Fin q.

End Binary64.

(** ** Exceptions and results *)

Inductive exception : Type :=
| ValueError (msg : string)
| IndexError
| LinAlgError
| OverflowError.

Inductive result (A : Type) : Type :=
| Ok (a : A)
| Raise (e : exception).

Arguments Ok {A} a.
Arguments Raise {A} e.

Definition bind {A B : Type} (c : result A) (k : A -> result B) : result B :=
  match c with
  | Ok a => k a
  | Raise e => Raise e
  end.

Notation "x <- c ;; k" := (bind c (fun x => k))
  (at level 61, c at next level, right associativity).

Fixpoint mapM {A B : Type} (f : A -> result B) (l : list A) : result (list B) :=
  match l with
  | [] => Ok []
  | a :: l' => b <- f a ;; bs <- mapM f l' ;; Ok (b :: bs)
  end.

(** ** numpy *)

Module Numpy.

(** [data[i]] for an integer [i]: negative indices count from the end, an
    index outside [-N, N) raises IndexError. *)
Definition index {A : Type} (data : list A) (i : Z) : result A :=
  let N := Z.of_nat (List.length data) in
  let j := if (i <? 0)%Z then (i + N)%Z else i in
  if ((0 <=? j) && (j <? N))%Z%bool then
    match nth_error data (Z.to_nat j) with
    | Some a => Ok a
    | None => Raise IndexError
    end
  else Raise IndexError.

(** [data[indices]] for a list of integers (fancy indexing). *)
Definition take {A : Type} (data : list A) (indices : list Z) : result (list A) :=
  mapM (index data) indices.

(** [np.column_stack((x, y, z))] on three 1-d arrays of one length. *)
Fixpoint column_stack (x y z : list float64) : list (float64 * float64 * float64) :=
  match x, y, z with
  | a :: x', b :: y', c :: z' => (a, b, c) :: column_stack x' y' z'
  | _, _, _ => []
  end.

(** [np.sum] of a 1-d float array. *)
Definition sum (l : list float64) : float64 := fold_left add l zero.

(** [np.sum] of a boolean array: the number of [True]. *)
Definition count_true (l : list bool) : Z :=
  Z.of_nat (List.length (filter (fun b => b) l)).

Fixpoint insert (x : float64) (l : list float64) : list float64 :=
  match l with
  | [] => [x]
  | y :: l' => if sort_leb x y then x :: l else y :: insert x l'
  end.

(** [np.sort] of a 1-d float array: ascending, nan last. *)
Definition sort (l : list float64) : list float64 := fold_right insert [] l.

(** [a[lo:hi]] for [0 <= lo]. *)
Definition slice {A : Type} (a : list A) (lo hi : Z) : list A :=
  firstn (Z.to_nat (hi - lo)) (skipn (Z.to_nat lo) a).

(** [a * w] for 1-d arrays under broadcasting: equal lengths multiply
    pointwise, a length-1 operand is stretched. *)
Definition multiply (a w : list float64) : list float64 :=
  match a, w with
  | [x], _ => map (mul x) w
  | _, [y] => map (fun x => mul x y) a
  | _, _ => map (fun p => mul (fst p) (snd p)) (combine a w)
  end.

End Numpy.

(** ** Point clouds and volumes *)

(** [pc[keys.point]['x'|'y'|'z']['data']]: three index-aligned arrays. *)
Record PointCloud : Type := mkPointCloud {
  x_data : list float64;
  y_data : list float64;
  z_data : list float64
}.

Module VolumeSpecification.

(** Modelled from the spec: [laserchicken/volume_specification.py] is
    missing; a volume is a tagged variant Sphere(radius) or
    InfiniteCylinder(radius) exposing a type discriminator string [TYPE]
    and its [radius]. *)
Record Volume : Type := mkVolume {
  TYPE : string;
  radius : float64
}.

Definition Sphere (r : float64) : Volume :=
  {| TYPE := "sphere"; radius := r |}.

Definition InfiniteCylinder (r : float64) : Volume :=
  {| TYPE := "infinite cylinder"; radius := r |}.

End VolumeSpecification.

Import VolumeSpecification.

(** ** echo_ratio_feature_extractor.py *)

Module EchoRatio.

Definition requires : list string := [].

Definition provides : list string := ["echo_ratio"%string].

Definition get_target_position (target_point_cloud : PointCloud) (target_index : Z)
  : result (float64 * float64 * float64) :=
  x0 <- Numpy.index (x_data target_point_cloud) target_index ;;
  y0 <- Numpy.index (y_data target_point_cloud) target_index ;;
  z0 <- Numpy.index (z_data target_point_cloud) target_index ;;
  Ok (x0, y0, z0).

Definition get_neighborhood_positions (point_cloud : PointCloud) (neighborhood : list Z)
  : result (list (float64 * float64 * float64)) :=
  x <- Numpy.take (x_data point_cloud) neighborhood ;;
  y <- Numpy.take (y_data point_cloud) neighborhood ;;
  z <- Numpy.take (z_data point_cloud) neighborhood ;;
  Ok (Numpy.column_stack x y z).

(** [np.sum((row - xyz0) ** 2)] for one row of [xyz], in binary64: the
    three differences, their squares and the two additions of the sum are
    rounded one by one. *)
Definition squared_distance (row xyz0 : float64 * float64 * float64) : float64 :=
  let '(x, y, z) := row in
  let '(x0, y0, z0) := xyz0 in
  let square d := Binary64.mul d d in
  Binary64.add
    (Binary64.add (square (Binary64.sub x x0)) (square (Binary64.sub y y0)))
    (square (Binary64.sub z z0)).

(** Python's [x ** 2] for a float [x]: the rounded square, and
    OverflowError when the square of a finite [x] is beyond the largest
    float.  The radius of a volume is taken to be a Python float. *)
Definition py_square (x : float64) : result float64 :=
  match x, Binary64.mul x x with
  | Fin _, Fin v => Ok (Fin v)
  | Fin _, _ => Raise OverflowError
  | _, v => Ok v
  end.

Definition extract (point_cloud : PointCloud) (neighborhood : list Z)
    (target_point_cloud : option PointCloud) (target_index : option Z)
    (volume_description : Volume) : result float64 :=
  if negb (String.eqb (TYPE volume_description) "infinite cylinder") then
    Raise (ValueError "The volume must be a cylinder")
  else
    match target_point_cloud with
    | None => Raise (ValueError "Target point cloud required")
    | Some tpc =>
        match target_index with
        | None => Raise (ValueError "Target point index required")
        | Some ti =>
            xyz <- get_neighborhood_positions point_cloud neighborhood ;;
            let n_cylinder := Z.of_nat (List.length xyz) in
            xyz0 <- get_target_position tpc ti ;;
            r2 <- py_square (radius volume_description) ;;
            let n_sphere :=
              Numpy.count_true
                (map (fun row => (squared_distance row xyz0 <=? r2)%f64) xyz) in
            Ok (Binary64.mul
                  (Binary64.div (Binary64.of_Z n_sphere) (Binary64.of_Z n_cylinder))
                  (Fin (Q2Qc 100)))
        end
    end.

Definition get_params : list float64 := [].

End EchoRatio.

(** ** scipy.stats.scoreatpercentile *)

Module ScipyStats.

(** Python's [int(q)]: truncation towards zero. *)
Definition py_int (q : Qc) : Z :=
  if Qle_bool 0 q then Qfloor q else Qceiling q.

(** [_compute_qth_percentile(sorted_, per, 'fraction', axis=0)] on a
    sorted, non-empty 1-d array. *)
Definition _compute_qth_percentile (sorted_ : list float64) (per : Z) : result float64 :=
  if negb ((0 <=? per) && (per <=? 100))%Z then
    Raise (ValueError "percentile must be in the range [0, 100]")
  else
    let idx : Qc :=
      (Q2Qc (inject_Z per) / Q2Qc 100
       * Q2Qc (inject_Z (Z.of_nat (List.length sorted_) - 1)))%Qc in
    let i := py_int idx in
    if Qc_eq_bool (Q2Qc (inject_Z i)) idx then
      Ok (Numpy.sum (Numpy.multiply (Numpy.slice sorted_ i (i + 1)) [one]) / one)%f64
    else
      let j := (i + 1)%Z in
      let weights :=
        [Fin (Q2Qc (inject_Z j) - idx)%Qc; Fin (idx - Q2Qc (inject_Z i))%Qc] in
      let sumval := Numpy.sum weights in
      Ok (Numpy.sum (Numpy.multiply (Numpy.slice sorted_ i (i + 2)) weights) / sumval)%f64.

(** [scoreatpercentile(a, per)] with the default arguments. *)
Definition scoreatpercentile (a : list float64) (per : Z) : result float64 :=
  match a with
  | [] => Ok NaN
  | _ => _compute_qth_percentile (Numpy.sort a) per
  end.

End ScipyStats.

(** ** percentile_feature_extractor.py *)

Module Percentile.

Definition requires : list string := [].

(** [range(10, 110, 10)]. *)
Definition percentiles : list Z := [10; 20; 30; 40; 50; 60; 70; 80; 90; 100]%Z.

Definition provides : list string :=
  ["perc_10"; "perc_20"; "perc_30"; "perc_40"; "perc_50";
   "perc_60"; "perc_70"; "perc_80"; "perc_90"; "perc_100"]%string.

Definition extract (sourcepc : PointCloud) (neighborhood : list Z)
    (targetpc : option PointCloud) (targetindex : option Z)
    (volume_description : option Volume) : result (list float64) :=
  z <- Numpy.take (z_data sourcepc) neighborhood ;;
  mapM (ScipyStats.scoreatpercentile z) percentiles.

Definition get_params : list float64 := [].

End Percentile.

(** ** The percentile computation in binary64 *)

(** [np.sum] and [*] of 1-d float arrays with the binary64 operations. *)
Module Numpy64.

Definition sum (l : list float64) : float64 := fold_left Binary64.add l zero.

Definition multiply (a w : list float64) : list float64 :=
  match a, w with
  | [x], _ => map (Binary64.mul x) w
  | _, [y] => map (fun x => Binary64.mul x y) a
  | _, _ => map (fun p => Binary64.mul (fst p) (snd p)) (combine a w)
  end.

End Numpy64.

(** [scoreatpercentile] as it runs on floats: the rank, the two weights,
    their sum, the two products, their sum and the quotient are rounded
    one by one. *)
Module ScipyStats64.

(** Python's [int(x)] for a float [x]: truncation towards zero, and an
    error for an infinity or nan. *)
Definition py_int (x : float64) : result Z :=
  match x with
  | Fin q => Ok (ScipyStats.py_int q)
  | NaN => Raise (ValueError "cannot convert float NaN to integer")
  | _ => Raise OverflowError
  end.

Definition _compute_qth_percentile (sorted_ : list float64) (per : Z) : result float64 :=
  if negb ((0 <=? per) && (per <=? 100))%Z then
    Raise (ValueError "percentile must be in the range [0, 100]")
  else
    let idx :=
      Binary64.mul (Binary64.div (Binary64.of_Z per) (Fin (Q2Qc 100)))
                   (Binary64.of_Z (Z.of_nat (List.length sorted_) - 1)) in
    i <- py_int idx ;;
    if eqb (of_Z i) idx then
      Ok (Binary64.div
            (Numpy64.sum (Numpy64.multiply (Numpy.slice sorted_ i (i + 1)) [one])) one)
    else
      let j := (i + 1)%Z in
      let weights :=
        [Binary64.sub (Binary64.of_Z j) idx; Binary64.sub idx (Binary64.of_Z i)] in
      let sumval := Numpy64.sum weights in
      Ok (Binary64.div
            (Numpy64.sum (Numpy64.multiply (Numpy.slice sorted_ i (i + 2)) weights))
            sumval).

Definition scoreatpercentile (a : list float64) (per : Z) : result float64 :=
  match a with
  | [] => Ok NaN
  | _ => _compute_qth_percentile (Numpy.sort a) per
  end.

End ScipyStats64.

(** [PercentileFeatureExtractor.extract] on floats. *)
Module Percentile64.

Definition extract (sourcepc : PointCloud) (neighborhood : list Z)
    (targetpc : option PointCloud) (targetindex : option Z)
    (volume_description : option Volume) : result (list float64) :=
  z <- Numpy.take (z_data sourcepc) neighborhood ;;
  mapM (ScipyStats64.scoreatpercentile z) Percentile.percentiles.

End Percentile64.

(** ** Triples and 3x3 matrices *)

(** The axis of length 3 (x, y, z) of the arrays of the eigen-structure
    extractor. *)
Record triple (A : Type) : Type := Triple { t0 : A; t1 : A; t2 : A }.

Definition tmap {A B : Type} (f : A -> B) (t : triple A) : triple B :=
  Triple (f (t0 t)) (f (t1 t)) (f (t2 t)).

Definition tmap2 {A B C : Type} (f : A -> B -> C) (t : triple A) (u : triple B)
  : triple C :=
  Triple (f (t0 t) (t0 u)) (f (t1 t) (t1 u)) (f (t2 t) (t2 u)).

Definition tforall {A : Type} (f : A -> bool) (t : triple A) : bool :=
  f (t0 t) && f (t1 t) && f (t2 t).

Definition to_list {A : Type} (t : triple A) : list A := [t0 t; t1 t; t2 t].

(** A 3x3 matrix, as its three rows. *)
Definition matrix : Type := triple (triple float64).

Definition column (k : triple float64 -> float64) (a : matrix) : triple float64 :=
  tmap k a.

Definition dot3 (u v : triple float64) : float64 :=
  (t0 u * t0 v + t1 u * t1 v + t2 u * t2 v)%f64.

(** The matrix-vector product [a @ v]. *)
Definition mat_vec (a : matrix) (v : triple float64) : triple float64 :=
  tmap (fun row => dot3 row v) a.

Definition scale (c : float64) (v : triple float64) : triple float64 :=
  tmap (mul c) v.

Definition diag (a b c : float64) : matrix :=
  Triple (Triple a zero zero) (Triple zero b zero) (Triple zero zero c).

Definition identity : matrix := diag one one one.

(** ** numpy.ma *)

Module Ma.

(** One element of a masked array: its data and its mask bit
    ([true]: masked, the element is padding). *)
Record entry : Type := mkEntry { value : float64; masked : bool }.

(** A masked array of shape [(len rows, 3, shape2)]. *)
Record MaskedArray : Type := mkMaskedArray {
  shape2 : nat;
  rows : list (triple (list entry))
}.

(** [np.finfo(float).tiny], the smallest positive normal double. *)
Definition tiny : Qc := (1 / Qcpower (Q2Qc 2) 1022)%Qc.

(** [_DomainSafeDivide.__call__(a, b)]: [abs(a) * tiny >= abs(b)]. *)
Definition domain_safe_divide (a b : float64) : bool :=
  geb (abs a * Fin tiny)%f64 (abs b).

(** [row.mask.sum()] along the last axis. *)
Definition mask_sum (row : list entry) : Z :=
  Numpy.count_true (map masked row).

(** [row.sum()] along the last axis: [filled(0).sum()], masked when every
    element is masked. *)
Definition sum (row : list entry) : entry :=
  {| value := Numpy.sum (map (fun e => if masked e then zero else value e) row);
     masked := forallb masked row |}.

(** [a / b] for a masked [a] and a plain [b] ([_DomainedBinaryOperation]):
    the quotient is masked where it is not finite, where the divisor is
    outside the domain, or where [a] is; masked data is put back to [a]'s. *)
Definition true_divide (a : entry) (b : float64) : entry :=
  let result := (value a / b)%f64 in
  let m := negb (isfinite result) || domain_safe_divide (value a) b || masked a in
  {| value := ((if m then zero else result) + (if m then one else zero) * value a)%f64;
     masked := m |}.

(** [a - b] for masked [a], [b] ([_MaskedBinaryOperation]): the result is
    masked where either operand is, and masked data is reverted to [a]'s. *)
Definition subtract (a b : entry) : entry :=
  let result := (value a - value b)%f64 in
  let m := masked a || masked b in
  {| value := if m then value a else result; masked := m |}.

End Ma.

(** ** laserchicken.utils *)

Module Utils.

(** Modelled from the spec: [laserchicken/utils.py] is missing; the
    positions of a neighborhood are the x, y and z arrays of the cloud
    taken at the neighborhood's indices. *)
Definition get_point (sourcepc : PointCloud) (neighborhood : list Z)
  : result (triple (list float64)) :=
  x <- Numpy.take (x_data sourcepc) neighborhood ;;
  y <- Numpy.take (y_data sourcepc) neighborhood ;;
  z <- Numpy.take (z_data sourcepc) neighborhood ;;
  Ok (Triple x y z).

(** One packed row: the values in order, then masked zeros up to
    [max_length]. *)
Definition pad (max_length : nat) (vals : list float64) : list Ma.entry :=
  map (fun v => Ma.mkEntry v false) vals
  ++ repeat (Ma.mkEntry zero true) (max_length - List.length vals).

(** Modelled from the spec: [laserchicken/utils.py] is missing; the
    batch of neighborhoods is packed into a dense array of shape
    (batch_size, 3, max_neighborhood_size) with a parallel boolean mask
    marking the padding entries; per-neighborhood index order is kept and
    padding holds the value 0. *)
Definition get_xyz (sourcepc : PointCloud) (neighborhoods : list (list Z))
  : result Ma.MaskedArray :=
  let max_length := fold_right Nat.max 0%nat (map (@List.length Z) neighborhoods) in
  rows <- mapM (fun nb => p <- get_point sourcepc nb ;; Ok (tmap (pad max_length) p))
               neighborhoods ;;
  Ok (Ma.mkMaskedArray max_length rows).

End Utils.

(** ** numpy.linalg *)

Module Linalg.

Definition matrix_isfinite (a : matrix) : bool := tforall (tforall isfinite) a.

Section Eig.

(** The LAPACK eigen-solver behind [np.linalg.eig] on one finite 3x3
    matrix: the eigenvalues [w] and the matrix [v] whose column [k] is the
    eigenvector of [w[k]].  The order of the eigenvalues is the solver's. *)
Variable geev : matrix -> triple float64 * matrix.

(** [np.linalg.eig(a)] on a stack of 3x3 matrices: [_assert_finite] first,
    then one decomposition per matrix. *)
Definition eig (a : list matrix) : result (list (triple float64) * list matrix) :=
  if forallb matrix_isfinite a then
    Ok (map (fun m => fst (geev m)) a, map (fun m => snd (geev m)) a)
  else Raise LinAlgError.

End Eig.

(** What the solver returns on a diagonal matrix [diag a b c]: the
    diagonal [a, b, c] in that order and the identity as eigenvectors, as
    in numpy's example [eig(np.diag((1, 2, 3)))]. *)
Definition exact_on_diagonal (geev : matrix -> triple float64 * matrix) : Prop :=
  forall a b c : float64, geev (diag a b c) = (Triple a b c, identity).

(** A solver that reads the diagonal and returns the identity; it is a
    correct eigen-solver on diagonal matrices only. *)
Definition geev_on_diagonal (a : matrix) : triple float64 * matrix :=
  (Triple (t0 (t0 a)) (t1 (t1 a)) (t2 (t2 a)), identity).

End Linalg.

(** ** eigenvals_feature_extractor.py *)

Module EigenValueVectorize.

Definition is_vectorized : bool := true.

Definition requires : list string := [].

Definition provides : list string :=
  ["eigenv_1"; "eigenv_2"; "eigenv_3";
   "normal_vector_1"; "normal_vector_2"; "normal_vector_3"; "slope"]%string.

(** [np.einsum('ijk,ilk->ijl', m, m)[i, j, l]]: the sum over [k] of the
    products of the data of rows [j] and [l]; einsum reads the data of a
    masked array and ignores its mask. *)
Definition einsum_k (mj ml : list Ma.entry) : float64 :=
  Numpy.sum (map (fun p => (Ma.value (fst p) * Ma.value (snd p))%f64) (combine mj ml)).

(** The operations of [_get_cov] broadcast over the first axis; the
    next four definitions are its three lines on one row, respectively on
    one neighborhood, of the array. *)

(** [n = (xyz.mask.sum(axis=2, keepdims=True) * -1) + n_max] on one row. *)
Definition n_of (n_max : Z) (row : list Ma.entry) : Z :=
  (Ma.mask_sum row * -1 + n_max)%Z.

(** [xyz.sum(2, keepdims=True) / n] on one row. *)
Definition mean_of (n_max : Z) (row : list Ma.entry) : Ma.entry :=
  Ma.true_divide (Ma.sum row) (of_Z (n_of n_max row)).

(** [m = xyz - xyz.sum(2, keepdims=True) / n] on one row. *)
Definition m_of (n_max : Z) (row : list Ma.entry) : list Ma.entry :=
  map (fun e => Ma.subtract e (mean_of n_max row)) row.

(** [np.einsum('ijk,ilk->ijl', m, m) / (n - 1)] on one neighborhood. *)
Definition cov_of (n_max : Z) (g : triple (list Ma.entry)) : matrix :=
  let m := tmap (m_of n_max) g in
  tmap2 (fun mj row_j =>
           tmap (fun ml => (einsum_k mj ml / of_Z (n_of n_max row_j - 1))%f64) m)
        m g.

Definition _get_cov (xyz : Ma.MaskedArray) : list matrix :=
  let n_max := Z.of_nat (Ma.shape2 xyz) in
  map (cov_of n_max) (Ma.rows xyz).

(** The [neighborhood] argument: one neighborhood (a list of indices) or a
    batch (a list of neighborhoods). *)
Inductive neighborhood_arg : Type :=
| Single (neighborhood : list Z)
| Batch (neighborhoods : list (list Z)).

(** The seven arrays [extract] returns, one value per neighborhood each,
    named as in [provides]. *)
Record features : Type := mkFeatures {
  eigenv_1 : list float64;
  eigenv_2 : list float64;
  eigenv_3 : list float64;
  normal_vector_1 : list float64;
  normal_vector_2 : list float64;
  normal_vector_3 : list float64;
  slope : list float64
}.

Section Extract.

Variable geev : matrix -> triple float64 * matrix.

Definition extract (sourcepc : PointCloud) (neighborhood : neighborhood_arg)
    (targetpc : option PointCloud) (targetindex : option Z)
    (volume : option Volume) : result features :=
  neighborhood <- match neighborhood with
                  | Single [] | Batch [] => Raise IndexError
                  | Single (i :: l) => Ok [i :: l]
                  | Batch (n0 :: l) => Ok (n0 :: l)
                  end ;;
  xyz_grp <- Utils.get_xyz sourcepc neighborhood ;;
  let cov_mat := _get_cov xyz_grp in
  ee <- Linalg.eig geev cov_mat ;;
  let eigval := fst ee in
  let eigvects := snd ee in
  let e := map (fun w => rev (Numpy.sort (to_list w))) eigval in
  let normals := map (column (@t2 float64)) eigvects in
  let slope := map (fun nv => dot3 nv (Triple zero zero one)) normals in
  Ok {| eigenv_1 := map (fun r => nth 0 r NaN) e;
        eigenv_2 := map (fun r => nth 1 r NaN) e;
        eigenv_3 := map (fun r => nth 2 r NaN) e;
        normal_vector_1 := map (@t0 float64) normals;
        normal_vector_2 := map (@t1 float64) normals;
        normal_vector_3 := map (@t2 float64) normals;
        slope := slope |}.

End Extract.

End EigenValueVectorize.

(** ** test_eigenvals_feature_extractor.py: the serial reference *)

Module EigenValueSerial.

Definition provides : list string := ["eigenv_1"; "eigenv_2"; "eigenv_3"]%string.

(** [np.cov(points, rowvar=False)] for the columns [x], [y], [z] of a
    [points] array with more than one row: the columns are centred on
    their average and [X @ X.T] is scaled by [1 / (N - 1)]. *)
Definition np_cov (xyz : triple (list float64)) : matrix :=
  let N := Z.of_nat (List.length (t0 xyz)) in
  let avg := tmap (fun row => (Numpy.sum row / of_Z N)%f64) xyz in
  let fact := if (N - 1 <=? 0)%Z then zero else of_Z (N - 1) in
  let X := tmap2 (fun row a => map (fun v => (v - a)%f64) row) xyz avg in
  let dot := fun r s =>
    Numpy.sum (map (fun p => (fst p * snd p)%f64) (combine r s)) in
  tmap (fun r => tmap (fun s => (dot r s * (one / fact))%f64) X) X.

Fixpoint insert_key (p : float64 * nat) (l : list (float64 * nat)) : list (float64 * nat) :=
  match l with
  | [] => [p]
  | q :: l' => if sort_leb (fst p) (fst q) then p :: l else q :: insert_key p l'
  end.

(** [np.argsort(a)]: the indices that sort [a] ascending. *)
Definition argsort (a : list float64) : list nat :=
  map snd (fold_right insert_key [] (combine a (seq 0 (List.length a)))).

Section Extract.

Variable geev : matrix -> triple float64 * matrix.

(** [_structure_tensor(points)]; only the eigenvalues are used by
    [extract]. *)
Definition _structure_tensor (xyz : triple (list float64)) : result (list float64) :=
  if (3 <? Z.of_nat (List.length (t0 xyz)))%Z then
    let cov_mat := np_cov xyz in
    ee <- Linalg.eig geev [cov_mat] ;;
    let eigenvalues := match fst ee with w :: _ => to_list w | [] => [] end in
    let order := argsort (map neg eigenvalues) in
    Ok (map (fun k => nth k eigenvalues NaN) order)
  else Raise (ValueError "Not enough points to compute eigenvalues/vectors.").

Definition extract (sourcepc : PointCloud) (neighborhood : list Z)
  : result (list float64) :=
  p <- Utils.get_point sourcepc neighborhood ;;
  match _structure_tensor p with
  | Raise (ValueError msg) =>
      if String.eqb msg "Not enough points to compute eigenvalues/vectors."
      then Ok [zero; zero; zero]
      else Raise (ValueError msg)
  | Raise e => Raise e
  | Ok eigenvals => Ok [nth 0 eigenvals NaN; nth 1 eigenvals NaN; nth 2 eigenvals NaN]
  end.

End Extract.

End EigenValueSerial.

(** ** The specification's notions *)

Module Spec.

(** A position with finite coordinates. *)
Definition point : Type := (Qc * Qc * Qc)%type.

Definition fin3 (p : point) : float64 * float64 * float64 :=
  let '(x, y, z) := p in (Fin x, Fin y, Fin z).

(** Squared Euclidean distance between two positions. *)
Definition sq_euclid (p t : point) : Qc :=
  let '(x, y, z) := p in
  let '(x0, y0, z0) := t in
  ((x - x0) * (x - x0) + (y - y0) * (y - y0) + (z - z0) * (z - z0))%Qc.

(** [p] lies in the closed sphere of radius [r] around [t]. *)
Definition in_sphere (r : Qc) (t p : point) : bool :=
  Qcleb (sq_euclid p t) (r * r)%Qc.


(** The rank position of the [p]-th percentile in an ascending sample of
    [n] values: [p / 100 * (n - 1)], counted from 0. *)
Definition rank_position (p : Z) (n : nat) : Qc :=
  (Q2Qc (inject_Z p) / Q2Qc 100 * Q2Qc (inject_Z (Z.of_nat n - 1)))%Qc.

(** The [p]-th percentile of the ascending sample [s] by linear
    interpolation between the two closest ranks: with [h] the rank
    position and [lo] its integer part, the value at rank [lo] plus the
    fractional part of [h] times the step to the value at rank [lo + 1]
    (there is no step past the last rank). *)
Definition percentile (s : list Qc) (p : Z) : Qc :=
  let h := rank_position p (List.length s) in
  let lo := Qfloor h in
  let lower := nth (Z.to_nat lo) s 0%Qc in
  let upper := nth (Z.to_nat (lo + 1)) s lower in
  (lower + (h - Q2Qc (inject_Z lo)) * (upper - lower))%Qc.

(** Linear interpolation in the ascending sample [s] at the rank
    position [h], counted from 0: the value at rank [floor h] plus the
    fractional part of [h] times the step to the next rank.  The [p]-th
    percentile is [interpolate s (rank_position p (length s))]. *)
Definition interpolate (s : list Qc) (h : Qc) : Qc :=
  let lo := Qfloor h in
  let lower := nth (Z.to_nat lo) s 0%Qc in
  let upper := nth (Z.to_nat (lo + 1)) s lower in
  (lower + (h - Q2Qc (inject_Z lo)) * (upper - lower))%Qc.

(** Sum of a list of rationals, from the left. *)
Definition qsum (l : list Qc) : Qc := fold_left Qcplus l 0%Qc.

(** The mean of the [n] valid values of one axis: their sum over [n]. *)
Definition mean (vals : list float64) : float64 :=
  (Numpy.sum vals / of_nat (List.length vals))%f64.

(** The valid values centred on their mean. *)
Definition centered (vals : list float64) : list float64 :=
  map (fun v => (v - mean vals)%f64) vals.

(** The covariance of two axes [u], [v] of one neighborhood of [n] valid
    points: the sum of the products of the mean-centred values over
    [n - 1]. *)
Definition covariance (u v : list float64) : float64 :=
  (Numpy.sum (map (fun p => fst p * snd p) (combine (centered u) (centered v)))
   / of_Z (Z.of_nat (List.length u) - 1))%f64.

(** The 3x3 covariance matrix of the valid positions [p] (their x, y and z
    lists) of one neighborhood. *)
Definition covariance_matrix (p : triple (list float64)) : matrix :=
  tmap (fun u => tmap (fun v => covariance u v) p) p.

(** Bound on the magnitude of a coordinate: [1 / tiny = 2^1022], below
    which a sum of [n] coordinates divided by [n] stays inside the domain
    of the masked division. *)
Definition coordinate_bound : Qc := Qcpower (Q2Qc 2) 1022.

Definition in_range (vals : list Qc) : Prop :=
  Forall (fun x => (Qcabs x < coordinate_bound)%Qc) vals.

(** Limits inside which no binary64 sum or product of [_get_cov]
    overflows: coordinates of magnitude at most [2^480] and at most [2^30]
    points in a neighborhood.  A sum of [n] coordinates then stays below
    [2^510], a centred coordinate below [2^481], and a sum of [n] products
    of two centred coordinates below [2^992]. *)
Definition coordinate_limit : Qc := Qcpower (Q2Qc 2) 480.

Definition size_limit : Z := 2 ^ 30.

Definition in_limit (vals : list Qc) : Prop :=
  Forall (fun x => (Qcabs x <= coordinate_limit)%Qc) vals.

(** [v] is an eigenvector of [a] for the eigenvalue [w]. *)
Definition eigenpair (a : matrix) (w : float64) (v : triple float64) : Prop :=
  mat_vec a v = scale w v.

(** [x] is a whole multiple [m * 2^-k] of [2^-k] with [|m| <= b]. *)
Definition on_grid (k : nat) (b : Z) (x : Qc) : Prop :=
  exists m : Z,
    (Z.abs m <= b)%Z /\ x = Q2Qc (inject_Z m * Binary64.pow2 (- Z.of_nat k)).

(** The element that [l[i]] designates for a valid index [i]: position
    [i] for [0 <= i], position [len(l) + i] for a negative [i]. *)
Definition at_index (l : list Qc) (i : Z) : Qc :=
  nth (Z.to_nat (i mod Z.of_nat (List.length l))) l 0%Qc.

(** The position stored at index [i] of a cloud with the coordinate arrays
    [xs], [ys], [zs]. *)
Definition point_at (xs ys zs : list Qc) (i : Z) : point :=
  (at_index xs i, at_index ys i, at_index zs i).

(** The three coordinates of a position lie on the grid of spacing
    [2^-k], with numerators of at most 24 bits. *)
Definition point_on_grid (k : nat) (p : point) : Prop :=
  on_grid k (2 ^ 24) (fst (fst p)) /\ on_grid k (2 ^ 24) (snd (fst p))
  /\ on_grid k (2 ^ 24) (snd p).

(** [s / c * 100] as binary64 evaluates it: the two counts converted, the
    quotient and then the product rounded. *)
Definition percent_b64 (s c : nat) : float64 :=
  Binary64.mul
    (Binary64.div (Binary64.of_Z (Z.of_nat s)) (Binary64.of_Z (Z.of_nat c)))
    (of_Z 100).


(** A defined policy for an undefined ratio: the call raises, or it
    returns a number (a sentinel such as 0); nan and the infinities are the
    undefined results of a division by zero. *)
Definition defined_policy (res : result float64) : Prop :=
  (exists e, res = Raise e) \/ (exists q, res = Ok (Fin q)).

End Spec.

(** ** Sample point clouds *)

(** Seven points on the coordinate axes: (3,0,0), (-3,0,0), (0,6,0),
    (0,-6,0), (0,0,9), (0,0,-9) and the origin.  The covariance of all
    seven is diag(3, 12, 27). *)
Definition pc_axes : PointCloud :=
  mkPointCloud [of_Z 3; of_Z (-3); of_Z 0; of_Z 0; of_Z 0; of_Z 0; of_Z 0]
               [of_Z 0; of_Z 0; of_Z 6; of_Z (-6); of_Z 0; of_Z 0; of_Z 0]
               [of_Z 0; of_Z 0; of_Z 0; of_Z 0; of_Z 9; of_Z (-9); of_Z 0].

(** Two points, (0,0,0) and (2,0,0). *)
Definition pc_pair : PointCloud :=
  mkPointCloud [of_Z 0; of_Z 2] [of_Z 0; of_Z 0] [of_Z 0; of_Z 0].

(** The cloud of [test_eigenvalues_of_too_few_points_results_in_0]: the
    single point (5,5,5). *)
Definition pc_single : PointCloud := mkPointCloud [of_Z 5] [of_Z 5] [of_Z 5].

(** ** Further matrix notions *)

(** The transpose of a 3x3 matrix. *)
Definition transpose (a : matrix) : matrix :=
  Triple (column (@t0 float64) a) (column (@t1 float64) a) (column (@t2 float64) a).

(** ** Index bounds and test helpers *)

(** [i] is a valid index into an array of length [N]: [-N <= i < N]. *)
Definition in_bounds (N : nat) (i : Z) : Prop :=
  (- Z.of_nat N <= i < Z.of_nat N)%Z.

(** [i] is a valid index into each of the three coordinate arrays. *)
Definition in_bounds_pc (pc : PointCloud) (i : Z) : Prop :=
  in_bounds (List.length (x_data pc)) i
  /\ in_bounds (List.length (y_data pc)) i
  /\ in_bounds (List.length (z_data pc)) i.

(** ** test_echo_ratio_extractor.py *)

Module TestEchoRatio.

(** [_get_pc(xyz)]: the cloud whose x, y, z arrays are the columns
    [xyz[:, 0]], [xyz[:, 1]], [xyz[:, 2]] of the rows [xyz], with the number
    of rows. *)
Definition _get_pc (xyz : list (float64 * float64 * float64)) : PointCloud * nat :=
  (mkPointCloud (map (fun r => fst (fst r)) xyz)
                (map (fun r => snd (fst r)) xyz)
                (map (fun r => snd r) xyz),
   List.length xyz).

End TestEchoRatio.

(* ================================================================== *)
(** * Part II: properties                                               *)
(* ================================================================== *)

Unset Implicit Arguments.

(** ** float64 facts *)

Lemma Qcleb_le (a b : Qc) : Qcleb a b = true <-> (a <= b)%Qc.
Proof. unfold Qcleb, Qcle. apply Qle_bool_iff. Qed.

Lemma Qc_eq_bool_refl (a : Qc) : Qc_eq_bool a a = true.
Proof. unfold Qc_eq_bool. destruct (Qc_eq_dec a a); congruence. Qed.

Lemma Qc_eq_bool_neq (a b : Qc) : a <> b -> Qc_eq_bool a b = false.
Proof. unfold Qc_eq_bool. destruct (Qc_eq_dec a b); congruence. Qed.

Lemma Q2Qc_inject_Z_inj (a b : Z) : Q2Qc (inject_Z a) = Q2Qc (inject_Z b) -> a = b.
Proof.
  intros H. apply (f_equal this) in H. cbn [this Q2Qc] in H.
  assert (E : (inject_Z a == inject_Z b)%Q).
  { rewrite <- (Qred_correct (inject_Z a)), <- (Qred_correct (inject_Z b)), H.
    reflexivity. }
  unfold Qeq in E. simpl in E. lia.
Qed.

Lemma Q2Qc_inject_Z_nonzero (a : Z) : a <> 0%Z -> Q2Qc (inject_Z a) <> 0%Qc.
Proof. intros Ha E. apply Ha. now apply Q2Qc_inject_Z_inj. Qed.

(** Closed goals between computed values: evaluate both sides, then compare
    the rationals by their canonical forms. *)
Ltac f64_canon :=
  repeat first [ reflexivity | apply Qc_is_canon; reflexivity | f_equal ].

Ltac f64_eval := vm_compute; f64_canon.

Lemma sum3 (a b c : Qc) : Numpy.sum [Fin a; Fin b; Fin c] = Fin (a + b + c)%Qc.
Proof. unfold Numpy.sum. simpl. f_equal. ring. Qed.

(** Arithmetic of canonical rationals, read in [Q]. *)

Lemma this_plus (a b : Qc) : (this (a + b)%Qc == this a + this b)%Q.
Proof. cbn [this Qcplus Q2Qc]. apply Qred_correct. Qed.

Lemma this_abs (a : Qc) : (this (Qcabs a) == Qabs (this a))%Q.
Proof. reflexivity. Qed.

Lemma this_inject (z : Z) : (this (Q2Qc (inject_Z z)) == inject_Z z)%Q.
Proof. cbn [this Q2Qc]. apply Qred_correct. Qed.

Lemma this_mult (a b : Qc) : (this (a * b)%Qc == this a * this b)%Q.
Proof. cbn [this Qcmult Q2Qc]. apply Qred_correct. Qed.

Lemma this_opp (a : Qc) : (this (- a)%Qc == - this a)%Q.
Proof. cbn [this Qcopp Q2Qc]. apply Qred_correct. Qed.

Lemma this_minus (a b : Qc) : (this (a - b)%Qc == this a - this b)%Q.
Proof. unfold Qcminus. rewrite this_plus, this_opp. reflexivity. Qed.

(** ** binary64 rounding *)

Section Binary64Facts.

Import Binary64.

Lemma pow2_pos (e : Z) : (0 < pow2 e)%Q.
Proof. unfold pow2. apply Qpower_0_lt. reflexivity. Qed.

Lemma pow2_add (a b : Z) : (pow2 (a + b) == pow2 a * pow2 b)%Q.
Proof. unfold pow2. apply Qpower_plus. discriminate. Qed.

Lemma pow2_nonneg_Z (e : Z) : (0 <= e)%Z -> (pow2 e == inject_Z (2 ^ e))%Q.
Proof.
  intros He. unfold pow2. rewrite Zpower_Qpower by exact He. reflexivity.
Qed.

Lemma pow2_opp (e : Z) : (pow2 (- e) == / pow2 e)%Q.
Proof. unfold pow2. apply Qpower_opp. Qed.

Lemma pow2_le (a b : Z) : (a <= b)%Z -> (pow2 a <= pow2 b)%Q.
Proof.
  intros H. replace b with (a + (b - a))%Z by lia. rewrite pow2_add.
  rewrite (pow2_nonneg_Z (b - a)) by lia.
  assert (1 <= 2 ^ (b - a))%Z by (apply (Z.pow_le_mono_r 2 0 (b - a)); lia).
  assert (1 <= inject_Z (2 ^ (b - a)))%Q by (rewrite (Zle_Qle 1) in H0; exact H0).
  pose proof (pow2_pos a). nra.
Qed.

Lemma pow2_lt_inv (a b : Z) : (pow2 a < pow2 b)%Q -> (a < b)%Z.
Proof.
  intros H. destruct (Z_lt_le_dec a b) as [L|L]; [exact L|].
  apply pow2_le in L. lra.
Qed.

(** The exponent found by [ilog2] is not above the argument. *)
Lemma ilog2_le (q : Q) : (0 < q)%Q -> (pow2 (ilog2 q) <= q)%Q.
Proof.
  intros Hq. unfold ilog2.
  destruct (Qle_bool _ q) eqn:E; [now apply Qle_bool_iff|].
  destruct q as [n d]. cbn [Qnum Qden].
  assert (Hn : (0 < n)%Z) by (unfold Qlt in Hq; simpl in Hq; lia).
  pose proof (Z.log2_spec n Hn) as [Ln _].
  pose proof (Z.log2_spec (Zpos d) (Pos2Z.is_pos d)) as [_ Ld].
  pose proof (Z.log2_nonneg n) as Nn. pose proof (Z.log2_nonneg (Zpos d)) as Nd.
  replace (Z.log2 n - Z.log2 (Z.pos d) - 1)%Z
    with (Z.log2 n + - Z.succ (Z.log2 (Z.pos d)))%Z by lia.
  rewrite pow2_add, pow2_opp, (pow2_nonneg_Z (Z.log2 n)),
    (pow2_nonneg_Z (Z.succ (Z.log2 (Z.pos d)))) by lia.
  set (a := (2 ^ Z.log2 n)%Z) in *. set (b := (2 ^ Z.succ (Z.log2 (Z.pos d)))%Z) in *.
  assert (Hb : (0 < b)%Z) by lia.
  apply Qle_shift_div_r; [change 0%Q with (inject_Z 0); rewrite <- Zlt_Qlt; exact Hb|].
  unfold Qle, Qmult, inject_Z. simpl. nia.
Qed.

Lemma rne_comp (x y : Q) : (x == y)%Q -> rne x = rne y.
Proof.
  intros E. unfold rne. rewrite (Qfloor_comp _ _ E).
  assert (E' : (x - inject_Z (Qfloor y) == y - inject_Z (Qfloor y))%Q) by (rewrite E; reflexivity).
  rewrite (Qcompare_comp _ _ E' _ _ (Qeq_refl (1 # 2))). reflexivity.
Qed.

Lemma rne_inject (m : Z) : rne (inject_Z m) = m.
Proof.
  unfold rne. rewrite Qfloor_Z.
  assert (E : forall x : Q, (x - x ?= 1 # 2)%Q = Lt) by (intros x; apply (proj1 (Qlt_alt _ _)); lra).
  now rewrite E.
Qed.

Lemma rne_floor (t : Q) : (Qfloor t <= rne t <= Qfloor t + 1)%Z.
Proof. unfold rne. destruct (_ ?= _)%Q; [destruct (Z.even _)| |]; lia. Qed.

(** The nearest integer is within one half. *)
Lemma rne_error (t : Q) : (Qabs (inject_Z (rne t) - t) <= 1 # 2)%Q.
Proof.
  pose proof (Qfloor_le t) as Hl. pose proof (Qlt_floor t) as Hu.
  rewrite inject_Z_plus in Hu. change (inject_Z 1) with 1%Q in Hu.
  apply Qabs_Qle_condition. unfold rne.
  destruct (t - inject_Z (Qfloor t) ?= 1 # 2)%Q eqn:E.
  - apply Qeq_alt in E. destruct (Z.even (Qfloor t)).
    + set (f := inject_Z (Qfloor t)) in *. split; lra.
    + rewrite inject_Z_plus. change (inject_Z 1) with 1%Q.
      set (f := inject_Z (Qfloor t)) in *. split; lra.
  - apply Qlt_alt in E. set (f := inject_Z (Qfloor t)) in *. split; lra.
  - apply Qgt_alt in E. rewrite inject_Z_plus. change (inject_Z 1) with 1%Q.
    set (f := inject_Z (Qfloor t)) in *. split; lra.
Qed.

Lemma Qfloor_le_int (t : Q) (k : Z) : (t <= inject_Z k)%Q -> (Qfloor t <= k)%Z.
Proof.
  intros H. rewrite <- (Qfloor_Z k). now apply Qfloor_resp_le.
Qed.

Lemma Qfloor_lt_int (t : Q) (k : Z) :
  (inject_Z (Qfloor t) < t)%Q -> (t <= inject_Z k)%Q -> (Qfloor t < k)%Z.
Proof.
  intros H1 H2. rewrite Zlt_Qlt. set (f := inject_Z (Qfloor t)) in *.
  set (k' := inject_Z k) in *. lra.
Qed.

Lemma rne_le_int (t : Q) (k : Z) : (t <= inject_Z k)%Q -> (rne t <= k)%Z.
Proof.
  intros H. pose proof (Qfloor_le_int t k H) as Hf.
  unfold rne. destruct (t - inject_Z (Qfloor t) ?= 1 # 2)%Q eqn:E.
  - apply Qeq_alt in E. destruct (Z.even _); [exact Hf|].
    assert (Qfloor t < k)%Z; [|lia]. apply Qfloor_lt_int; [|exact H].
    set (f := inject_Z (Qfloor t)) in *. lra.
  - exact Hf.
  - apply Qgt_alt in E.
    assert (Qfloor t < k)%Z; [|lia]. apply Qfloor_lt_int; [|exact H].
    set (f := inject_Z (Qfloor t)) in *. lra.
Qed.

Lemma rne_ge_int (t : Q) (k : Z) : (inject_Z k <= t)%Q -> (k <= rne t)%Z.
Proof.
  intros H. pose proof (rne_floor t) as [Hf _].
  assert (k <= Qfloor t)%Z; [|lia].
  rewrite <- (Qfloor_Z k). now apply Qfloor_resp_le.
Qed.

Lemma pow2_le_inv (a b : Z) : (pow2 a <= pow2 b)%Q -> (a <= b)%Z.
Proof.
  intros H. destruct (Z_le_gt_dec a b) as [L|L]; [exact L|].
  assert (L' : (b + 1 <= a)%Z) by lia. apply pow2_le in L'.
  rewrite pow2_add in L'. change (pow2 1) with 2%Q in L'.
  pose proof (pow2_pos b). lra.
Qed.

Lemma pow2_split (a b : Z) : (b <= a)%Z -> (pow2 a == inject_Z (2 ^ (a - b)) * pow2 b)%Q.
Proof.
  intros H. rewrite <- pow2_nonneg_Z by lia. rewrite <- pow2_add.
  replace (a - b + b)%Z with a by lia. reflexivity.
Qed.

Lemma ulp_exp_min (q : Q) : (-1074 <= ulp_exp q)%Z.
Proof. unfold ulp_exp. lia. Qed.

(** Above the subnormal range the spacing is [2^-52] times a power of two
    that does not exceed the magnitude. *)
Lemma ulp_exp_spec (q : Q) :
  ~ (q == 0)%Q ->
  (pow2 (ulp_exp q + 52) <= Qabs q)%Q \/ ulp_exp q = (-1074)%Z.
Proof.
  intros Hq. unfold ulp_exp.
  assert (Ha : (0 < Qabs q)%Q).
  { destruct (Qlt_le_dec 0 (Qabs q)) as [L|L]; [exact L|].
    exfalso. apply Hq. apply Qabs_Qle_condition in L. 
    apply Qle_antisym; lra. }
  pose proof (ilog2_le _ Ha) as He.
  destruct (Z_le_gt_dec (-1022) (ilog2 (Qabs q))) as [L|L].
  - left. rewrite Z.max_l by lia.
    replace (ilog2 (Qabs q) - 52 + 52)%Z with (ilog2 (Qabs q)) by lia. exact He.
  - right. rewrite Z.max_r by lia. reflexivity.
Qed.

Lemma ulp_exp_le (q : Q) (b : Z) :
  ~ (q == 0)%Q -> (Qabs q < pow2 (b + 53))%Q -> (-1074 <= b)%Z -> (ulp_exp q <= b)%Z.
Proof.
  intros Hq Hb Hmin. destruct (ulp_exp_spec q Hq) as [H|H]; [|lia].
  assert (L : (pow2 (ulp_exp q + 52) < pow2 (b + 53))%Q) by lra.
  apply pow2_lt_inv in L. lia.
Qed.

Lemma round_nonzero (q : Qc) :
  ~ (q == 0)%Q ->
  round q =
  let sh := ulp_exp q in
  let m := rne (q / pow2 sh) in
  let v := (inject_Z m * pow2 sh)%Q in
  if Qle_bool (pow2 1024) (Qabs v) then (if (0 <? m)%Z then PInf else NInf)
  else Fin (Q2Qc v).
Proof.
  intros H. unfold round. destruct (Qeq_bool q 0) eqn:E; [|reflexivity].
  apply (proj1 (Qeq_bool_iff _ _)) in E. contradiction.
Qed.

Lemma Q2Qc_this (q : Qc) (v : Q) : (v == q)%Q -> Q2Qc v = q.
Proof.
  intros E. apply Qc_is_canon. cbn [this Q2Qc]. rewrite Qred_correct. exact E.
Qed.

(** A rational that is a whole multiple of its own spacing, below the
    overflow threshold, is a binary64 number: rounding returns it. *)
Lemma round_fixed (q : Qc) (M : Z) :
  ~ (q == 0)%Q ->
  (q / pow2 (ulp_exp q) == inject_Z M)%Q ->
  (Qabs q < pow2 1024)%Q ->
  round q = Fin q.
Proof.
  intros Hq HM Hb. rewrite (round_nonzero q Hq). cbv zeta.
  rewrite (rne_comp _ _ HM), rne_inject.
  assert (Ev : (inject_Z M * pow2 (ulp_exp q) == q)%Q).
  { rewrite <- HM. field. pose proof (pow2_pos (ulp_exp q)). lra. }
  destruct (Qle_bool _ _) eqn:E.
  - apply Qle_bool_iff in E. rewrite Ev in E. lra.
  - f_equal. now apply Q2Qc_this.
Qed.

(** Integers of fewer than 54 bits scaled by a power of two within the
    exponent range are binary64 numbers. *)
Lemma round_exact (m j : Z) :
  (Z.abs m < 2 ^ 53)%Z -> (-1074 <= j <= 971)%Z ->
  round (Q2Qc (inject_Z m * pow2 j)) = Fin (Q2Qc (inject_Z m * pow2 j)).
Proof.
  intros Hm Hj. set (q := Q2Qc (inject_Z m * pow2 j)).
  assert (Eq : (q == inject_Z m * pow2 j)%Q) by (unfold q; cbn [this Q2Qc]; apply Qred_correct).
  destruct (Z.eq_dec m 0) as [->|Hm0].
  - unfold round. assert (E0 : (q == 0)%Q) by (rewrite Eq; ring).
    rewrite (proj2 (Qeq_bool_iff _ _) E0). f_equal. symmetry.
    apply Q2Qc_this. change (this 0%Qc) with 0%Q. ring.
  - pose proof (pow2_pos j) as Pj.
    assert (Habs : (Qabs q == inject_Z (Z.abs m) * pow2 j)%Q).
    { rewrite Eq, Qabs_Qmult, (Qabs_pos (pow2 j)) by lra.
      unfold Qabs, inject_Z. reflexivity. }
    assert (Hlt : (inject_Z (Z.abs m) < inject_Z (2 ^ 53))%Q) by (rewrite <- Zlt_Qlt; exact Hm).
    assert (Hpos : (0 < inject_Z (Z.abs m))%Q).
    { change 0%Q with (inject_Z 0). rewrite <- Zlt_Qlt. lia. }
    assert (Hq : ~ (q == 0)%Q).
    { intros E. assert (Qabs q == 0)%Q by (rewrite E; reflexivity). 
      rewrite Habs in H. nra. }
    assert (Hb : (Qabs q < pow2 (j + 53))%Q).
    { rewrite Habs, Z.add_comm, pow2_add, (pow2_nonneg_Z 53) by lia. nra. }
    pose proof (ulp_exp_le q j Hq Hb (proj1 Hj)) as Hsh.
    apply (round_fixed q (m * 2 ^ (j - ulp_exp q)) Hq).
    + set (sh := ulp_exp q) in *.
      rewrite Eq, (pow2_split j sh Hsh), inject_Z_mult.
      field. pose proof (pow2_pos sh). lra.
    + assert (L : (pow2 (j + 53) <= pow2 1024)%Q) by (apply pow2_le; lia). lra.
Qed.

(** Rounding moves a value by at most half the spacing; a value of
    magnitude at most [2^1023] stays finite. *)
Lemma round_error (q : Qc) :
  (Qabs q <= pow2 1023)%Q ->
  exists v : Qc, round q = Fin v /\ (Qabs (v - q) <= pow2 (ulp_exp q - 1))%Q.
Proof.
  intros Hb. destruct (Qeq_dec q 0) as [E0|Hq].
  - exists q. split.
    + unfold round. rewrite (proj2 (Qeq_bool_iff _ _) E0).
      f_equal. apply Qc_is_canon. symmetry. exact E0.
    + setoid_replace (q - q)%Q with 0%Q by ring. pose proof (pow2_pos (ulp_exp q - 1)).
      change (Qabs 0) with 0%Q. lra.
  - rewrite (round_nonzero q Hq). cbv zeta.
    set (sh := ulp_exp q). set (m := rne (q / pow2 sh)).
    pose proof (pow2_pos sh) as Ps. pose proof (rne_error (q / pow2 sh)) as Hm.
    fold m in Hm.
    assert (Hh : (pow2 (sh - 1) == pow2 sh * (1 # 2))%Q).
    { unfold Z.sub. rewrite pow2_add. reflexivity. }
    assert (Herr : (Qabs (inject_Z m * pow2 sh - q) <= pow2 (sh - 1))%Q).
    { setoid_replace (inject_Z m * pow2 sh - q)%Q
        with ((inject_Z m - q / pow2 sh) * pow2 sh)%Q by (field; lra).
      rewrite Qabs_Qmult, (Qabs_pos (pow2 sh)), Hh by lra.
      set (a := Qabs (inject_Z m - q / pow2 sh)) in *. nra. }
    assert (Hsh : (sh <= 971)%Z).
    { apply ulp_exp_le; [exact Hq| |lia].
      assert (pow2 1023 < pow2 (971 + 53))%Q; [|lra].
      change (971 + 53)%Z with (1023 + 1)%Z. rewrite pow2_add.
      change (pow2 1) with 2%Q. pose proof (pow2_pos 1023). lra. }
    assert (H970 : (pow2 (sh - 1) <= pow2 970)%Q) by (apply pow2_le; lia).
    assert (Hv : (Qabs (inject_Z m * pow2 sh) < pow2 1024)%Q).
    { pose proof (Qabs_triangle (inject_Z m * pow2 sh - q) q) as T.
      setoid_replace (inject_Z m * pow2 sh - q + q)%Q with (inject_Z m * pow2 sh)%Q in T by ring.
      assert (pow2 1023 + pow2 970 < pow2 1024)%Q by (apply (proj1 (Qlt_alt _ _)); reflexivity).
      set (a := Qabs (inject_Z m * pow2 sh)) in *.
      set (b := Qabs (inject_Z m * pow2 sh - q)) in *. lra. }
    destruct (Qle_bool _ _) eqn:E.
    + apply Qle_bool_iff in E. lra.
    + eexists. split; [reflexivity|].
      cbn [this Q2Qc]. rewrite Qred_correct. exact Herr.
Qed.

(** A value between 0 and an integer below [2^53] rounds to a value in the
    same interval: rounding does not cross an integer bound. *)
Lemma round_range (q : Qc) (N : Z) :
  (0 <= q)%Q -> (q <= inject_Z N)%Q -> (N < 2 ^ 53)%Z ->
  exists v : Qc, round q = Fin v /\ (0 <= v)%Q /\ (v <= inject_Z N)%Q.
Proof.
  intros H0 HN Hb. destruct (Qeq_dec q 0) as [E0|Hq].
  - exists q. split; [|split; assumption].
    unfold round. rewrite (proj2 (Qeq_bool_iff _ _) E0).
    f_equal. apply Qc_is_canon. symmetry. exact E0.
  - rewrite (round_nonzero q Hq). cbv zeta.
    set (sh := ulp_exp q). pose proof (pow2_pos sh) as Ps.
    assert (Habs : (Qabs q == q)%Q) by (apply Qabs_pos; exact H0).
    assert (HN53 : (inject_Z N < inject_Z (2 ^ 53))%Q) by (rewrite <- Zlt_Qlt; exact Hb).
    assert (Hsh : (sh <= 0)%Z).
    { apply ulp_exp_le; [exact Hq| |lia]. rewrite Habs.
      change (0 + 53)%Z with 53%Z. rewrite (pow2_nonneg_Z 53) by lia. lra. }
    set (P := (2 ^ (0 - sh))%Z).
    assert (HP : (inject_Z P * pow2 sh == 1)%Q).
    { unfold P. rewrite <- (pow2_split 0 sh Hsh). reflexivity. }
    set (m := rne (q / pow2 sh)).
    assert (Hm1 : (0 <= m)%Z).
    { apply rne_ge_int. change (inject_Z 0) with 0%Q.
      apply Qle_shift_div_l; [exact Ps|]. lra. }
    assert (Hm2 : (m <= N * P)%Z).
    { apply rne_le_int. rewrite inject_Z_mult.
      apply Qle_shift_div_r; [exact Ps|].
      setoid_replace (inject_Z N * inject_Z P * pow2 sh)%Q
        with (inject_Z N * (inject_Z P * pow2 sh))%Q by ring.
      rewrite HP. lra. }
    assert (Hv1 : (0 <= inject_Z m * pow2 sh)%Q).
    { assert (0 <= inject_Z m)%Q by (change 0%Q with (inject_Z 0); rewrite <- Zle_Qle; exact Hm1).
      nra. }
    assert (Hv2 : (inject_Z m * pow2 sh <= inject_Z N)%Q).
    { assert (inject_Z m <= inject_Z N * inject_Z P)%Q
        by (rewrite <- inject_Z_mult, <- Zle_Qle; exact Hm2).
      assert (E : (inject_Z N == inject_Z N * (inject_Z P * pow2 sh))%Q) by (rewrite HP; ring).
      rewrite E.
      set (a := inject_Z m) in *. set (b := inject_Z N) in *. set (c := inject_Z P) in *.
      nra. }
    destruct (Qle_bool _ _) eqn:E.
    + apply Qle_bool_iff in E. rewrite Qabs_pos in E by exact Hv1.
      assert (inject_Z (2 ^ 53) < pow2 1024)%Q by (apply (proj1 (Qlt_alt _ _)); reflexivity).
      lra.
    + eexists. split; [reflexivity|].
      cbn [this Q2Qc]. rewrite Qred_correct. split; assumption.
Qed.

End Binary64Facts.

(** ** binary64 rounding: overflow *)

Section Binary64Overflow.

Import Binary64.

(** The exponent found by [ilog2] is the largest one not above the
    argument. *)
Lemma ilog2_lt (q : Q) : (0 < q)%Q -> (q < pow2 (ilog2 q + 1))%Q.
Proof.
  intros Hq. unfold ilog2.
  destruct (Qle_bool _ q) eqn:E.
  - destruct q as [n d]. cbn [Qnum Qden].
    assert (Hn : (0 < n)%Z) by (unfold Qlt in Hq; simpl in Hq; lia).
    pose proof (Z.log2_spec n Hn) as [_ Ln].
    pose proof (Z.log2_spec (Zpos d) (Pos2Z.is_pos d)) as [Ld _].
    pose proof (Z.log2_nonneg n) as Nn. pose proof (Z.log2_nonneg (Zpos d)) as Nd.
    replace (Z.log2 n - Z.log2 (Z.pos d) + 1)%Z
      with (Z.succ (Z.log2 n) + - Z.log2 (Z.pos d))%Z by lia.
    rewrite pow2_add, pow2_opp, (pow2_nonneg_Z (Z.succ (Z.log2 n))),
      (pow2_nonneg_Z (Z.log2 (Z.pos d))) by lia.
    set (a := (2 ^ Z.succ (Z.log2 n))%Z) in *. set (b := (2 ^ Z.log2 (Z.pos d))%Z) in *.
    assert (Hb : (0 < b)%Z) by (unfold b; apply Z.pow_pos_nonneg; lia).
    apply Qlt_shift_div_l; [change 0%Q with (inject_Z 0); rewrite <- Zlt_Qlt; exact Hb|].
    unfold Qlt, Qmult, inject_Z. simpl. nia.
  - replace (Z.log2 (Qnum q) - Z.log2 (Z.pos (Qden q)) - 1 + 1)%Z
      with (Z.log2 (Qnum q) - Z.log2 (Z.pos (Qden q)))%Z by lia.
    apply Qnot_le_lt. intros L. apply Qle_bool_iff in L. congruence.
Qed.

(** From [2^1024] on, rounding overflows. *)
Lemma round_overflow (q : Qc) : (pow2 1024 <= q)%Q -> round q = PInf.
Proof.
  intros Hq. pose proof (pow2_pos 1024) as P.
  assert (Hpos : (0 < q)%Q) by lra.
  assert (Hn : ~ (q == 0)%Q) by (intros E; rewrite E in Hpos; lra).
  rewrite (round_nonzero q Hn). cbv zeta.
  assert (Habs : (Qabs q == q)%Q) by (apply Qabs_pos; lra).
  unfold ulp_exp. set (e := ilog2 (Qabs q)).
  assert (Ha : (0 < Qabs q)%Q) by (rewrite Habs; exact Hpos).
  pose proof (ilog2_le (Qabs q) Ha) as He1. pose proof (ilog2_lt (Qabs q) Ha) as He2.
  fold e in He1, He2. rewrite Habs in He1, He2.
  assert (He : (1024 <= e)%Z).
  { assert (L : (pow2 1024 < pow2 (e + 1))%Q) by lra. apply pow2_lt_inv in L. lia. }
  rewrite Z.max_l by lia. set (sh := (e - 52)%Z).
  pose proof (pow2_pos sh) as Ps.
  assert (Hsplit : (pow2 e == inject_Z (2 ^ 52) * pow2 sh)%Q).
  { rewrite (pow2_split e sh) by (unfold sh; lia).
    replace (e - sh)%Z with 52%Z by (unfold sh; lia). reflexivity. }
  set (m := rne (q / pow2 sh)).
  assert (Hm : (2 ^ 52 <= m)%Z).
  { apply rne_ge_int. apply Qle_shift_div_l; [exact Ps|]. rewrite <- Hsplit. exact He1. }
  assert (Hm' : (inject_Z (2 ^ 52) <= inject_Z m)%Q) by (rewrite <- Zle_Qle; exact Hm).
  assert (Hv : (pow2 1024 <= inject_Z m * pow2 sh)%Q).
  { assert (L : (pow2 1024 <= pow2 e)%Q) by (apply pow2_le; exact He).
    rewrite Hsplit in L. set (a := inject_Z m) in *. set (b := inject_Z (2 ^ 52)) in *. nra. }
  assert (Hle : Qle_bool (pow2 1024) (Qabs (inject_Z m * pow2 sh)) = true).
  { apply Qle_bool_iff. rewrite Qabs_pos by lra. exact Hv. }
  rewrite Hle.
  assert (Hm0 : (0 <? m)%Z = true) by (apply Z.ltb_lt; lia).
  now rewrite Hm0.
Qed.

(** Below the overflow threshold a value rounds to a finite one, moved
    by at most half the spacing [2^b] of its range. *)
Lemma round_error_le (q : Qc) (b : Z) :
  (Qabs q < pow2 (b + 53))%Q -> (-1074 <= b <= 970)%Z ->
  exists v : Qc, round q = Fin v /\ (Qabs (v - q) <= pow2 (b - 1))%Q.
Proof.
  intros Hq Hb.
  assert (H1023 : (Qabs q <= pow2 1023)%Q).
  { assert (L : (pow2 (b + 53) <= pow2 1023)%Q) by (apply pow2_le; lia). lra. }
  destruct (round_error q H1023) as (v & Ev & Herr).
  exists v. split; [exact Ev|].
  destruct (Qeq_dec q 0) as [E0|Hn].
  - assert (Ev' : round q = Fin q).
    { unfold round. rewrite (proj2 (Qeq_bool_iff _ _) E0). f_equal.
      apply Qc_is_canon. symmetry. exact E0. }
    rewrite Ev' in Ev. injection Ev as <-.
    setoid_replace (q - q)%Q with 0%Q by ring. change (Qabs 0) with 0%Q.
    pose proof (pow2_pos (b - 1)). lra.
  - pose proof (ulp_exp_le q b Hn Hq (proj1 Hb)) as Hsh.
    assert (L : (pow2 (ulp_exp q - 1) <= pow2 (b - 1))%Q) by (apply pow2_le; lia).
    lra.
Qed.

End Binary64Overflow.

(** ** Indexing *)

Lemma index_not_ValueError {A : Type} (d : list A) (i : Z) (m : string)
    (H : Numpy.index d i = Raise (ValueError m)) : False.
Proof.
  revert H. unfold Numpy.index.
  destruct (_ && _)%bool; [destruct (nth_error _ _)|]; discriminate.
Qed.

Lemma take_not_ValueError {A : Type} (d : list A) (l : list Z) (m : string)
    (H : Numpy.take d l = Raise (ValueError m)) : False.
Proof.
  revert H. unfold Numpy.take. induction l as [|i l IH]; cbn [mapM]; [discriminate|].
  destruct (Numpy.index d i) eqn:E; cbn [bind].
  - destruct (mapM (Numpy.index d) l); cbn [bind]; [discriminate|exact IH].
  - intros H. injection H as ->. exact (index_not_ValueError _ _ _ E).
Qed.

Lemma index_in_bounds {A : Type} (d : list A) (i : Z) :
  in_bounds (List.length d) i -> exists a, Numpy.index d i = Ok a.
Proof.
  unfold in_bounds, Numpy.index. intros H.
  set (N := Z.of_nat (List.length d)) in *.
  set (j := if (i <? 0)%Z then (i + N)%Z else i).
  assert (Hj : (0 <= j < N)%Z) by (subst j; destruct (Z.ltb_spec i 0); lia).
  replace ((0 <=? j)%Z && (j <? N)%Z) with true
    by (symmetry; apply andb_true_iff; split; [apply Z.leb_le|apply Z.ltb_lt]; lia).
  destruct (nth_error d (Z.to_nat j)) as [a|] eqn:E; [now exists a|].
  apply nth_error_None in E. lia.
Qed.

Lemma index_out_of_bounds {A : Type} (d : list A) (i : Z) :
  ~ in_bounds (List.length d) i -> Numpy.index d i = Raise IndexError.
Proof.
  unfold in_bounds, Numpy.index. intros H.
  set (N := Z.of_nat (List.length d)) in *.
  set (j := if (i <? 0)%Z then (i + N)%Z else i).
  destruct ((0 <=? j)%Z && (j <? N)%Z) eqn:E; [|reflexivity].
  apply andb_true_iff in E. destruct E as [E1 E2].
  apply Z.leb_le in E1. apply Z.ltb_lt in E2.
  exfalso. apply H. subst j. destruct (Z.ltb_spec i 0); lia.
Qed.

Lemma in_bounds_dec (N : nat) (i : Z) : {in_bounds N i} + {~ in_bounds N i}.
Proof.
  unfold in_bounds.
  destruct (Z_le_dec (- Z.of_nat N) i); [|right; lia].
  destruct (Z_lt_dec i (Z.of_nat N)); [left|right]; lia.
Qed.

Lemma index_raises_IndexError {A : Type} (d : list A) (i : Z) (e : exception) :
  Numpy.index d i = Raise e -> e = IndexError.
Proof.
  destruct (in_bounds_dec (List.length d) i) as [H|H].
  - destruct (index_in_bounds d i H) as (a & ->). discriminate.
  - rewrite (index_out_of_bounds d i H). now intros [= <-].
Qed.

Lemma take_in_bounds {A : Type} (d : list A) (l : list Z) :
  Forall (in_bounds (List.length d)) l ->
  exists r, Numpy.take d l = Ok r /\ List.length r = List.length l.
Proof.
  unfold Numpy.take. induction 1 as [|i l Hi Hl (r & E & L)].
  - now exists [].
  - destruct (index_in_bounds d i Hi) as (a & Ea).
    exists (a :: r). cbn [mapM]. rewrite Ea. cbn [bind]. rewrite E. cbn [bind List.length].
    split; [reflexivity|now rewrite L].
Qed.

Lemma take_out_of_bounds {A : Type} (d : list A) (l : list Z) :
  ~ Forall (in_bounds (List.length d)) l -> Numpy.take d l = Raise IndexError.
Proof.
  unfold Numpy.take. induction l as [|i l IH]; intros H.
  - exfalso. apply H. constructor.
  - cbn [mapM]. destruct (in_bounds_dec (List.length d) i) as [Hi|Hi].
    + destruct (index_in_bounds d i Hi) as (a & ->). cbn [bind].
      rewrite IH; [reflexivity|]. intros Hl. apply H. now constructor.
    + now rewrite (index_out_of_bounds d i Hi).
Qed.

Lemma Forall_in_bounds_dec (N : nat) (l : list Z) :
  {Forall (in_bounds N) l} + {~ Forall (in_bounds N) l}.
Proof. apply Forall_dec. apply in_bounds_dec. Qed.

Lemma take_raises_IndexError {A : Type} (d : list A) (l : list Z) (e : exception) :
  Numpy.take d l = Raise e -> e = IndexError.
Proof.
  destruct (Forall_in_bounds_dec (List.length d) l) as [H|H].
  - destruct (take_in_bounds d l H) as (r & -> & _). discriminate.
  - rewrite (take_out_of_bounds d l H). now intros [= <-].
Qed.

Lemma in_bounds_pc_dec (pc : PointCloud) (i : Z) :
  {in_bounds_pc pc i} + {~ in_bounds_pc pc i}.
Proof.
  unfold in_bounds_pc.
  destruct (in_bounds_dec (List.length (x_data pc)) i); [|right; tauto].
  destruct (in_bounds_dec (List.length (y_data pc)) i); [|right; tauto].
  destruct (in_bounds_dec (List.length (z_data pc)) i); [left|right]; tauto.
Qed.

Lemma Forall_in_bounds_pc (pc : PointCloud) (l : list Z) :
  Forall (in_bounds_pc pc) l <->
  Forall (in_bounds (List.length (x_data pc))) l
  /\ Forall (in_bounds (List.length (y_data pc))) l
  /\ Forall (in_bounds (List.length (z_data pc))) l.
Proof.
  unfold in_bounds_pc. rewrite !Forall_forall. split.
  - intros H. split; [|split]; intros i Hi; apply (H i Hi).
  - intros (Hx & Hy & Hz) i Hi. auto.
Qed.

Lemma column_stack_length (x y z : list float64) :
  List.length y = List.length x -> List.length z = List.length x ->
  List.length (Numpy.column_stack x y z) = List.length x.
Proof.
  revert y z. induction x as [|a x IH]; intros [|b y] [|c z] Hy Hz;
    cbn [List.length] in *; try discriminate; [reflexivity|].
  cbn [Numpy.column_stack List.length]. f_equal. apply IH; lia.
Qed.

Lemma positions_in_bounds (pc : PointCloud) (nb : list Z) :
  Forall (in_bounds_pc pc) nb ->
  exists xyz, EchoRatio.get_neighborhood_positions pc nb = Ok xyz
              /\ List.length xyz = List.length nb.
Proof.
  intros H. apply Forall_in_bounds_pc in H. destruct H as (Hx & Hy & Hz).
  destruct (take_in_bounds (x_data pc) nb Hx) as (x & Ex & Lx).
  destruct (take_in_bounds (y_data pc) nb Hy) as (y & Ey & Ly).
  destruct (take_in_bounds (z_data pc) nb Hz) as (z & Ez & Lz).
  exists (Numpy.column_stack x y z).
  unfold EchoRatio.get_neighborhood_positions. rewrite Ex, Ey, Ez. cbn [bind].
  split; [reflexivity|]. rewrite column_stack_length; lia.
Qed.

Lemma positions_out_of_bounds (pc : PointCloud) (nb : list Z) :
  ~ Forall (in_bounds_pc pc) nb ->
  EchoRatio.get_neighborhood_positions pc nb = Raise IndexError.
Proof.
  intros H. unfold EchoRatio.get_neighborhood_positions.
  destruct (Forall_in_bounds_dec (List.length (x_data pc)) nb) as [Hx|Hx];
    [|now rewrite (take_out_of_bounds _ _ Hx)].
  destruct (take_in_bounds _ _ Hx) as (x & -> & _). cbn [bind].
  destruct (Forall_in_bounds_dec (List.length (y_data pc)) nb) as [Hy|Hy];
    [|now rewrite (take_out_of_bounds _ _ Hy)].
  destruct (take_in_bounds _ _ Hy) as (y & -> & _). cbn [bind].
  destruct (Forall_in_bounds_dec (List.length (z_data pc)) nb) as [Hz|Hz];
    [|now rewrite (take_out_of_bounds _ _ Hz)].
  exfalso. apply H. apply Forall_in_bounds_pc. auto.
Qed.

Lemma target_in_bounds (tpc : PointCloud) (ti : Z) :
  in_bounds_pc tpc ti -> exists xyz0, EchoRatio.get_target_position tpc ti = Ok xyz0.
Proof.
  intros (Hx & Hy & Hz). unfold EchoRatio.get_target_position.
  destruct (index_in_bounds _ _ Hx) as (x & ->).
  destruct (index_in_bounds _ _ Hy) as (y & ->).
  destruct (index_in_bounds _ _ Hz) as (z & ->).
  now exists (x, y, z).
Qed.

Lemma target_out_of_bounds (tpc : PointCloud) (ti : Z) :
  ~ in_bounds_pc tpc ti -> EchoRatio.get_target_position tpc ti = Raise IndexError.
Proof.
  intros H. unfold EchoRatio.get_target_position.
  destruct (in_bounds_dec (List.length (x_data tpc)) ti) as [Hx|Hx];
    [|now rewrite (index_out_of_bounds _ _ Hx)].
  destruct (index_in_bounds _ _ Hx) as (x & ->). cbn [bind].
  destruct (in_bounds_dec (List.length (y_data tpc)) ti) as [Hy|Hy];
    [|now rewrite (index_out_of_bounds _ _ Hy)].
  destruct (index_in_bounds _ _ Hy) as (y & ->). cbn [bind].
  destruct (in_bounds_dec (List.length (z_data tpc)) ti) as [Hz|Hz];
    [|now rewrite (index_out_of_bounds _ _ Hz)].
  exfalso. apply H. unfold in_bounds_pc. auto.
Qed.

(** ** Values on a binary grid *)

Section GridFacts.

Import Binary64.

Lemma on_grid_this (k : nat) (b : Z) (x : Qc) :
  Spec.on_grid k b x ->
  exists m : Z, (Z.abs m <= b)%Z /\ (x == inject_Z m * pow2 (- Z.of_nat k))%Q.
Proof.
  intros (m & Hm & ->). exists m. split; [exact Hm|].
  cbn [this Q2Qc]. apply Qred_correct.
Qed.

Lemma on_grid_intro (k : nat) (b m : Z) (x : Qc) :
  (Z.abs m <= b)%Z -> (x == inject_Z m * pow2 (- Z.of_nat k))%Q -> Spec.on_grid k b x.
Proof.
  intros Hm E. exists m. split; [exact Hm|]. symmetry. now apply Q2Qc_this.
Qed.

(** Grid values of fewer than 54 bits are binary64 numbers. *)
Lemma on_grid_representable (k : nat) (b : Z) (x : Qc) :
  Spec.on_grid k b x -> (b < 2 ^ 53)%Z -> (k <= 1074)%nat -> round x = Fin x.
Proof.
  intros (m & Hm & ->) Hb Hk. apply round_exact; lia.
Qed.

Lemma on_grid_sub (k : nat) (b b' : Z) (x y : Qc) :
  Spec.on_grid k b x -> Spec.on_grid k b' y -> Spec.on_grid k (b + b') (x - y)%Qc.
Proof.
  intros Hx Hy. destruct (on_grid_this _ _ _ Hx) as (m & Hm & Ex).
  destruct (on_grid_this _ _ _ Hy) as (m' & Hm' & Ey).
  apply (on_grid_intro k _ (m - m')); [lia|].
  unfold Z.sub. rewrite this_minus, Ex, Ey, inject_Z_plus, inject_Z_opp. ring.
Qed.

Lemma on_grid_add (k : nat) (b b' : Z) (x y : Qc) :
  Spec.on_grid k b x -> Spec.on_grid k b' y -> Spec.on_grid k (b + b') (x + y)%Qc.
Proof.
  intros Hx Hy. destruct (on_grid_this _ _ _ Hx) as (m & Hm & Ex).
  destruct (on_grid_this _ _ _ Hy) as (m' & Hm' & Ey).
  apply (on_grid_intro k _ (m + m')); [lia|].
  rewrite this_plus, Ex, Ey, inject_Z_plus. ring.
Qed.

Lemma on_grid_mul (k k' : nat) (b b' : Z) (x y : Qc) :
  Spec.on_grid k b x -> Spec.on_grid k' b' y ->
  Spec.on_grid (k + k') (b * b') (x * y)%Qc.
Proof.
  intros Hx Hy. destruct (on_grid_this _ _ _ Hx) as (m & Hm & Ex).
  destruct (on_grid_this _ _ _ Hy) as (m' & Hm' & Ey).
  apply (on_grid_intro (k + k') _ (m * m')); [rewrite Z.abs_mul; nia|].
  rewrite this_mult, Ex, Ey, inject_Z_mult, Nat2Z.inj_add, Z.opp_add_distr, pow2_add.
  ring.
Qed.

End GridFacts.

(** ** Indexing a finite array *)

Lemma index_at (l : list Qc) (i : Z) :
  in_bounds (List.length l) i ->
  Numpy.index (map Fin l) i = Ok (Fin (Spec.at_index l i)).
Proof.
  unfold in_bounds, Numpy.index, Spec.at_index. intros H. rewrite length_map.
  set (N := Z.of_nat (List.length l)) in *.
  set (j := if (i <? 0)%Z then (i + N)%Z else i).
  assert (Hj : (0 <= j < N)%Z) by (subst j; destruct (Z.ltb_spec i 0); lia).
  assert (Em : (i mod N = j)%Z).
  { subst j. destruct (Z.ltb_spec i 0).
    - rewrite <- (Z_mod_plus_full i 1 N). rewrite Z.mul_1_l. apply Z.mod_small. lia.
    - apply Z.mod_small. lia. }
  replace ((0 <=? j)%Z && (j <? N)%Z) with true
    by (symmetry; apply andb_true_iff; split; [apply Z.leb_le|apply Z.ltb_lt]; lia).
  rewrite Em, nth_error_map.
  rewrite (nth_error_nth' l 0%Qc) by (subst N; lia). reflexivity.
Qed.

Lemma at_index_In (l : list Qc) (i : Z) :
  in_bounds (List.length l) i -> In (Spec.at_index l i) l.
Proof.
  unfold in_bounds, Spec.at_index. intros H. apply nth_In.
  set (N := Z.of_nat (List.length l)) in *.
  assert (0 <= i mod N < N)%Z by (apply Z.mod_pos_bound; lia). lia.
Qed.

Lemma take_at (l : list Qc) (nb : list Z) :
  Forall (in_bounds (List.length l)) nb ->
  Numpy.take (map Fin l) nb = Ok (map (fun i => Fin (Spec.at_index l i)) nb).
Proof.
  unfold Numpy.take. induction 1 as [|i nb Hi Hnb IH]; [reflexivity|].
  cbn [mapM map]. rewrite (index_at l i Hi). cbn [bind]. rewrite IH. reflexivity.
Qed.

Lemma column_stack_map {A : Type} (f g h : A -> float64) (l : list A) :
  Numpy.column_stack (map f l) (map g l) (map h l) = map (fun a => (f a, g a, h a)) l.
Proof. induction l as [|a l IH]; [reflexivity|]. cbn [map Numpy.column_stack]. now rewrite IH. Qed.

Lemma in_bounds_pc_fin (xs ys zs : list Qc) (i : Z) :
  in_bounds_pc (mkPointCloud (map Fin xs) (map Fin ys) (map Fin zs)) i ->
  in_bounds (List.length xs) i /\ in_bounds (List.length ys) i
  /\ in_bounds (List.length zs) i.
Proof. unfold in_bounds_pc. cbn [x_data y_data z_data]. now rewrite !length_map. Qed.

(** The positions of a finite cloud at valid indices. *)
Lemma positions_at (xs ys zs : list Qc) (nb : list Z) :
  Forall (in_bounds_pc (mkPointCloud (map Fin xs) (map Fin ys) (map Fin zs))) nb ->
  EchoRatio.get_neighborhood_positions
    (mkPointCloud (map Fin xs) (map Fin ys) (map Fin zs)) nb
  = Ok (map Spec.fin3 (map (Spec.point_at xs ys zs) nb)).
Proof.
  intros H.
  assert (Hx : Forall (in_bounds (List.length xs)) nb)
    by (eapply Forall_impl; [|exact H]; intros i Hi; apply (in_bounds_pc_fin _ _ _ _ Hi)).
  assert (Hy : Forall (in_bounds (List.length ys)) nb)
    by (eapply Forall_impl; [|exact H]; intros i Hi; apply (in_bounds_pc_fin _ _ _ _ Hi)).
  assert (Hz : Forall (in_bounds (List.length zs)) nb)
    by (eapply Forall_impl; [|exact H]; intros i Hi; apply (in_bounds_pc_fin _ _ _ _ Hi)).
  unfold EchoRatio.get_neighborhood_positions. cbn [x_data y_data z_data].
  rewrite (take_at xs nb Hx), (take_at ys nb Hy), (take_at zs nb Hz). cbn [bind].
  rewrite column_stack_map, map_map. reflexivity.
Qed.

Lemma target_at (xs ys zs : list Qc) (i : Z) :
  in_bounds_pc (mkPointCloud (map Fin xs) (map Fin ys) (map Fin zs)) i ->
  EchoRatio.get_target_position
    (mkPointCloud (map Fin xs) (map Fin ys) (map Fin zs)) i
  = Ok (Spec.fin3 (Spec.point_at xs ys zs i)).
Proof.
  intros H. destruct (in_bounds_pc_fin _ _ _ _ H) as (Hx & Hy & Hz).
  unfold EchoRatio.get_target_position. cbn [x_data y_data z_data].
  rewrite (index_at xs i Hx), (index_at ys i Hy), (index_at zs i Hz). reflexivity.
Qed.

(** ** Echo ratio *)

Section EchoRatioFacts.

Import Binary64.

Lemma point_at_on_grid (k : nat) (xs ys zs : list Qc) (i : Z) :
  Forall (Spec.on_grid k (2 ^ 24)) (xs ++ ys ++ zs) ->
  in_bounds (List.length xs) i -> in_bounds (List.length ys) i ->
  in_bounds (List.length zs) i ->
  Spec.point_on_grid k (Spec.point_at xs ys zs i).
Proof.
  intros H Hx Hy Hz. rewrite !Forall_app in H. destruct H as (Fx & Fy & Fz).
  rewrite Forall_forall in Fx, Fy, Fz.
  unfold Spec.point_on_grid, Spec.point_at. cbn [fst snd].
  split; [|split]; [apply Fx|apply Fy|apply Fz]; now apply at_index_In.
Qed.

Lemma sub_on_grid (k : nat) (x y : Qc) :
  (k <= 500)%nat -> Spec.on_grid k (2 ^ 24) x -> Spec.on_grid k (2 ^ 24) y ->
  sub (Fin x) (Fin y) = Fin (x - y) /\ Spec.on_grid k (2 ^ 25) (x - y)%Qc.
Proof.
  intros Hk Hx Hy. pose proof (on_grid_sub _ _ _ _ _ Hx Hy) as H.
  change (2 ^ 24 + 2 ^ 24)%Z with (2 ^ 25)%Z in H. split; [|exact H].
  unfold sub, Float64.sub, neg, Float64.add, rounded.
  change (x + - y)%Qc with (x - y)%Qc.
  apply (on_grid_representable k _ _ H); [reflexivity|lia].
Qed.

Lemma square_on_grid (k : nat) (d : Qc) :
  (k <= 500)%nat -> Spec.on_grid k (2 ^ 25) d ->
  mul (Fin d) (Fin d) = Fin (d * d) /\ Spec.on_grid (k + k) (2 ^ 50) (d * d)%Qc.
Proof.
  intros Hk Hd. pose proof (on_grid_mul _ _ _ _ _ _ Hd Hd) as H.
  change (2 ^ 25 * 2 ^ 25)%Z with (2 ^ 50)%Z in H. split; [|exact H].
  unfold mul, Float64.mul, rounded.
  apply (on_grid_representable (k + k) _ _ H); [reflexivity|lia].
Qed.

(** On the grid every step of [squared_distance] is exact. *)
Lemma squared_distance_on_grid (k : nat) (p t : Spec.point) :
  (k <= 500)%nat -> Spec.point_on_grid k p -> Spec.point_on_grid k t ->
  EchoRatio.squared_distance (Spec.fin3 p) (Spec.fin3 t) = Fin (Spec.sq_euclid p t).
Proof.
  intros Hk Hp Ht. destruct p as [[x y] z], t as [[x0 y0] z0].
  destruct Hp as (Px & Py & Pz), Ht as (Tx & Ty & Tz). cbn [fst snd] in *.
  unfold EchoRatio.squared_distance, Spec.fin3, Spec.sq_euclid.
  destruct (sub_on_grid k x x0 Hk Px Tx) as (-> & Gx).
  destruct (sub_on_grid k y y0 Hk Py Ty) as (-> & Gy).
  destruct (sub_on_grid k z z0 Hk Pz Tz) as (-> & Gz).
  destruct (square_on_grid k _ Hk Gx) as (-> & Sx).
  destruct (square_on_grid k _ Hk Gy) as (-> & Sy).
  destruct (square_on_grid k _ Hk Gz) as (-> & Sz).
  pose proof (on_grid_add _ _ _ _ _ Sx Sy) as Sxy.
  pose proof (on_grid_add _ _ _ _ _ Sxy Sz) as Sxyz.
  unfold add, Float64.add, rounded.
  rewrite (on_grid_representable _ _ _ Sxy) by (reflexivity || lia).
  apply (on_grid_representable _ _ _ Sxyz); [reflexivity|lia].
Qed.

Lemma py_square_on_grid (k : nat) (r : Qc) :
  (k <= 500)%nat -> Spec.on_grid k (2 ^ 26) r ->
  EchoRatio.py_square (Fin r) = Ok (Fin (r * r)).
Proof.
  intros Hk Hr. pose proof (on_grid_mul _ _ _ _ _ _ Hr Hr) as H.
  change (2 ^ 26 * 2 ^ 26)%Z with (2 ^ 52)%Z in H.
  unfold EchoRatio.py_square, mul, Float64.mul, rounded.
  now rewrite (on_grid_representable (k + k) _ _ H) by (reflexivity || lia).
Qed.

Lemma count_in_sphere (k : nat) (r : Qc) (t : Spec.point) (pts : list Spec.point) :
  (k <= 500)%nat -> Spec.point_on_grid k t -> Forall (Spec.point_on_grid k) pts ->
  Numpy.count_true
    (map (fun row => (EchoRatio.squared_distance row (Spec.fin3 t) <=? Fin (r * r))%f64)
         (map Spec.fin3 pts))
  = Z.of_nat (List.length (filter (Spec.in_sphere r t) pts)).
Proof.
  intros Hk Ht Hp. unfold Numpy.count_true. f_equal.
  induction Hp as [|p pts Hp Hpts IH]; [reflexivity|].
  cbn [map filter]. rewrite (squared_distance_on_grid k p t Hk Hp Ht).
  change (Fin (Spec.sq_euclid p t) <=? Fin (r * r))%f64 with (Spec.in_sphere r t p).
  destruct (Spec.in_sphere r t p); cbn [List.length]; now rewrite IH.
Qed.

End EchoRatioFacts.

Section EchoRatioValue.

Import Binary64.

Lemma of_Z_exact (m : Z) : (Z.abs m < 2 ^ 53)%Z -> of_Z m = Float64.of_Z m.
Proof.
  intros Hm. unfold of_Z, Float64.of_Z.
  assert (E : Q2Qc (inject_Z m) = Q2Qc (inject_Z m * pow2 0)).
  { apply Q2Qc_eq_iff. change (pow2 0) with 1%Q. ring. }
  rewrite E. apply round_exact; lia.
Qed.

Lemma pow2_sum_45 : (pow2 (-47) + 100 * pow2 (-53) <= pow2 (-45))%Q.
Proof. apply Qle_bool_iff. reflexivity. Qed.

(** The percentage of [s] out of [c >= s] items, as binary64 computes it:
    a finite number between 0 and 100, within [2^-45] of [100 s / c]. *)
Lemma percent_b64_spec (s c : nat) :
  (s <= c)%nat -> (0 < c)%nat -> (Z.of_nat c < 2 ^ 53)%Z ->
  exists v : Qc,
    Spec.percent_b64 s c = Fin v
    /\ (0 <= v)%Q /\ (v <= 100)%Q
    /\ (Qabs (v - 100 * (inject_Z (Z.of_nat s) / inject_Z (Z.of_nat c))) <= pow2 (-45))%Q.
Proof.
  intros Hsc Hc Hb. unfold Spec.percent_b64.
  rewrite !of_Z_exact by lia. unfold Float64.of_Z.
  set (qs := Q2Qc (inject_Z (Z.of_nat s))). set (qc := Q2Qc (inject_Z (Z.of_nat c))).
  assert (Hqc : qc <> 0%Qc) by (apply Q2Qc_inject_Z_nonzero; lia).
  unfold div, Float64.div. rewrite (Qc_eq_bool_neq _ _ Hqc). unfold rounded.
  set (S := inject_Z (Z.of_nat s)). set (C := inject_Z (Z.of_nat c)).
  assert (HC : (0 < C)%Q) by (unfold C; change 0%Q with (inject_Z 0); rewrite <- Zlt_Qlt; lia).
  assert (HS : (0 <= S)%Q) by (unfold S; change 0%Q with (inject_Z 0); rewrite <- Zle_Qle; lia).
  assert (HSC : (S <= C)%Q) by (unfold S, C; rewrite <- Zle_Qle; lia).
  assert (Eq1 : ((qs / qc)%Qc == S / C)%Q).
  { unfold qs, qc, S, C, Qcdiv. rewrite this_mult. unfold Qcinv. cbn [this Q2Qc].
    rewrite !Qred_correct. reflexivity. }
  assert (H01 : (0 <= S / C)%Q /\ (S / C <= 1)%Q).
  { split; [apply Qle_shift_div_l|apply Qle_shift_div_r]; lra. }
  destruct (round_range (qs / qc)%Qc 1) as (v1 & E1 & L1 & U1);
    [rewrite Eq1; tauto | rewrite Eq1; change (inject_Z 1) with 1%Q; tauto | reflexivity |].
  change (inject_Z 1) with 1%Q in U1.
  destruct (round_error_le (qs / qc)%Qc (-52)) as (v1' & E1' & D1);
    [rewrite Eq1, Qabs_pos by tauto; change (pow2 (-52 + 53)) with 2%Q; lra | lia |].
  rewrite E1 in E1'. injection E1' as <-. rewrite Eq1 in D1.
  change (pow2 (-52 - 1)) with (pow2 (-53)) in D1.
  rewrite E1. unfold mul, Float64.mul, Float64.of_Z, rounded.
  assert (Eq2 : ((v1 * Q2Qc (inject_Z 100))%Qc == v1 * 100)%Q).
  { rewrite this_mult, this_inject. reflexivity. }
  destruct (round_range (v1 * Q2Qc (inject_Z 100))%Qc 100) as (v & E2 & L2 & U2);
    [rewrite Eq2; lra | rewrite Eq2; change (inject_Z 100) with 100%Q; lra | reflexivity |].
  change (inject_Z 100) with 100%Q in U2.
  destruct (round_error_le (v1 * Q2Qc (inject_Z 100))%Qc (-46)) as (v' & E2' & D2);
    [rewrite Eq2, Qabs_pos by lra; change (pow2 (-46 + 53)) with 128%Q; lra | lia |].
  rewrite E2 in E2'. injection E2' as <-. rewrite Eq2 in D2.
  change (pow2 (-46 - 1)) with (pow2 (-47)) in D2.
  exists v. split; [exact E2|]. split; [exact L2|]. split; [exact U2|].
  pose proof pow2_sum_45 as P.
  apply Qabs_Qle_condition in D1. apply Qabs_Qle_condition in D2.
  apply Qabs_Qle_condition.
  set (a := pow2 (-47)) in *. set (b := pow2 (-53)) in *. set (d := pow2 (-45)) in *.
  set (x := (S / C)%Q) in *. split; lra.
Qed.

(** [x ** 2] returns for a radius of magnitude up to [2^511] ... *)
Lemma py_square_small (q : Qc) :
  (Qabs q <= pow2 511)%Q -> exists v : Qc, EchoRatio.py_square (Fin q) = Ok (Fin v).
Proof.
  intros Hq. unfold EchoRatio.py_square, mul, Float64.mul, rounded.
  destruct (round_error (q * q)%Qc) as (v & Ev & _).
  - rewrite this_mult, Qabs_Qmult.
    assert (E : (pow2 1023 == pow2 511 * pow2 511 * 2)%Q) by reflexivity.
    rewrite E. pose proof (Qabs_nonneg q). pose proof (pow2_pos 511).
    set (a := Qabs q) in *. set (b := pow2 511) in *. nra.
  - rewrite Ev. now exists v.
Qed.

(** ... and raises OverflowError from [2^512] on. *)
Lemma py_square_large (q : Qc) :
  (pow2 512 <= Qabs q)%Q -> EchoRatio.py_square (Fin q) = Raise OverflowError.
Proof.
  intros Hq. unfold EchoRatio.py_square, mul, Float64.mul, rounded.
  rewrite round_overflow; [reflexivity|].
  rewrite this_mult.
  assert (E : (pow2 1024 == pow2 512 * pow2 512)%Q) by reflexivity.
  rewrite E. pose proof (pow2_pos 512).
  assert (Hsq : (q * q == Qabs q * Qabs q)%Q).
  { rewrite <- Qabs_Qmult. symmetry. apply Qabs_pos. nra. }
  rewrite Hsq. set (a := Qabs q) in *. set (b := pow2 512) in *. nra.
Qed.

Lemma py_square_outcomes (r : float64) :
  (exists v, EchoRatio.py_square r = Ok v)
  \/ EchoRatio.py_square r = Raise OverflowError.
Proof.
  unfold EchoRatio.py_square. destruct r as [q| | |]; try (left; eexists; reflexivity).
  destruct (mul (Fin q) (Fin q)); [left; eexists; reflexivity|right..]; reflexivity.
Qed.

Lemma py_square_not_finite (r : float64) :
  isfinite r = false -> exists v, EchoRatio.py_square r = Ok v.
Proof.
  destruct r as [q| | |]; [discriminate|..]; intros _; eexists; reflexivity.
Qed.

End EchoRatioValue.

Lemma count_true_filter {A : Type} (g : A -> bool) (l : list A) :
  Numpy.count_true (map g l) = Z.of_nat (List.length (filter g l)).
Proof.
  unfold Numpy.count_true. f_equal.
  induction l as [|a l IH]; [reflexivity|].
  cbn [map filter]. destruct (g a); cbn [List.length]; now rewrite IH.
Qed.

Lemma filter_length_le {A : Type} (f : A -> bool) (l : list A) :
  (List.length (filter f l) <= List.length l)%nat.
Proof.
  induction l as [|a l IH]; [apply Nat.le_refl|].
  cbn [filter]. destruct (f a); cbn [List.length]; lia.
Qed.

(** Once the positions are read, [extract] squares the radius, counts and
    forms the percentage. *)
Lemma extract_read (pc tpc : PointCloud) (nb : list Z) (ti : Z) (r : float64)
    (xyz : list (float64 * float64 * float64)) (xyz0 : float64 * float64 * float64) :
  EchoRatio.get_neighborhood_positions pc nb = Ok xyz ->
  EchoRatio.get_target_position tpc ti = Ok xyz0 ->
  EchoRatio.extract pc nb (Some tpc) (Some ti) (InfiniteCylinder r)
  = (r2 <- EchoRatio.py_square r ;;
     Ok (Spec.percent_b64
           (List.length
              (filter (fun row => (EchoRatio.squared_distance row xyz0 <=? r2)%f64) xyz))
           (List.length xyz))).
Proof.
  intros E E0. unfold EchoRatio.extract. cbn [TYPE InfiniteCylinder radius].
  rewrite String.eqb_refl. cbn [negb]. rewrite E. cbn [bind]. rewrite E0. cbn [bind].
  destruct (EchoRatio.py_square r) as [r2|e]; [|reflexivity]. cbn [bind].
  now rewrite count_true_filter.
Qed.

(** C6.  [extract] raises ValueError exactly when the volume's type tag is
    not 'infinite cylinder', or the target point cloud is None, or the
    target index is None.  In those cases the error is raised whatever the
    source cloud and the neighborhood are, so nothing is read or computed
    before it; otherwise no ValueError is raised. *)
Theorem echo_ratio_invalid_argument :
  forall (tpc : option PointCloud) (ti : option Z) (vol : Volume),
    ((TYPE vol <> "infinite cylinder"%string \/ tpc = None \/ ti = None) ->
     exists msg, forall pc nb,
       EchoRatio.extract pc nb tpc ti vol = Raise (ValueError msg))
    /\
    (~ (TYPE vol <> "infinite cylinder"%string \/ tpc = None \/ ti = None) ->
     forall pc nb msg,
       EchoRatio.extract pc nb tpc ti vol <> Raise (ValueError msg)).
Proof.
  intros tpc ti vol. unfold EchoRatio.extract.
  destruct (String.eqb_spec (TYPE vol) "infinite cylinder") as [Ht|Ht]; cbn [negb].
  - destruct tpc as [tpc|], ti as [ti|]; split.
    + intros [H|[H|H]]; [contradiction | discriminate | discriminate].
    + intros _ pc nb msg H.
      unfold EchoRatio.get_neighborhood_positions, EchoRatio.get_target_position
        in H.
      destruct (Numpy.take (x_data pc) nb) eqn:Ex; cbn [bind] in H;
        [|injection H as ->; exact (take_not_ValueError _ _ _ Ex)].
      destruct (Numpy.take (y_data pc) nb) eqn:Ey; cbn [bind] in H;
        [|injection H as ->; exact (take_not_ValueError _ _ _ Ey)].
      destruct (Numpy.take (z_data pc) nb) eqn:Ez; cbn [bind] in H;
        [|injection H as ->; exact (take_not_ValueError _ _ _ Ez)].
      destruct (Numpy.index (x_data tpc) ti) eqn:E0; cbn [bind] in H;
        [|injection H as ->; exact (index_not_ValueError _ _ _ E0)].
      destruct (Numpy.index (y_data tpc) ti) eqn:E1; cbn [bind] in H;
        [|injection H as ->; exact (index_not_ValueError _ _ _ E1)].
      destruct (Numpy.index (z_data tpc) ti) eqn:E2; cbn [bind] in H;
        [|injection H as ->; exact (index_not_ValueError _ _ _ E2)].
      destruct (py_square_outcomes (radius vol)) as [(v & Ev)|Ev];
        rewrite Ev in H; discriminate H.
    + intros _. eexists. reflexivity.
    + intros H. exfalso. apply H. auto.
    + intros _. eexists. reflexivity.
    + intros H. exfalso. apply H. auto.
    + intros _. eexists. reflexivity.
    + intros H. exfalso. apply H. auto.
  - split.
    + intros _. eexists. reflexivity.
    + intros H. exfalso. apply H. auto.
Qed.

(** C7 as stated fails: on an empty cylinder neighborhood the call neither
    raises nor returns a number. *)
Lemma echo_ratio_empty_no_policy :
  ~ Spec.defined_policy
      (EchoRatio.extract (mkPointCloud [of_Z 1] [of_Z 2] [of_Z 3]) []
         (Some (mkPointCloud [of_Z 1] [of_Z 2] [of_Z 3])) (Some 0%Z)
         (InfiniteCylinder (of_Z 1))).
Proof.
  intros [[e H]|[q H]]; vm_compute in H; discriminate H.
Qed.

Lemma extract_empty (pc tpc : PointCloud) (ti : Z) (r : float64) :
  in_bounds_pc tpc ti ->
  EchoRatio.extract pc [] (Some tpc) (Some ti) (InfiniteCylinder r)
  = (r2 <- EchoRatio.py_square r ;; Ok NaN).
Proof.
  intros Hti. destruct (target_in_bounds tpc ti Hti) as (xyz0 & E0).
  rewrite (extract_read pc tpc [] ti r [] xyz0 eq_refl E0).
  destruct (EchoRatio.py_square r); reflexivity.
Qed.

(** C7, amended.  For an empty cylinder neighborhood, a cylinder volume and
    a valid target index, [extract] has no guard and substitutes no
    sentinel: it returns the quotient 0 / 0 scaled by 100, which is nan.
    The only failure is the OverflowError of [radius ** 2], which does not
    depend on the neighborhood: it is raised for a float radius of
    magnitude [2^512] or more and not for one of at most [2^511] or for an
    infinite or nan radius. *)
Theorem echo_ratio_empty_is_nan :
  forall (pc tpc : PointCloud) (ti : Z) (r : float64),
    in_bounds_pc tpc ti ->
    let res := EchoRatio.extract pc [] (Some tpc) (Some ti) (InfiniteCylinder r) in
    (res = Ok NaN \/ res = Raise OverflowError)
    /\ (isfinite r = false -> res = Ok NaN)
    /\ (forall q : Qc, r = Fin q -> (Qabs q <= Binary64.pow2 511)%Q -> res = Ok NaN)
    /\ (forall q : Qc, r = Fin q -> (Binary64.pow2 512 <= Qabs q)%Q ->
        res = Raise OverflowError).
Proof.
  intros pc tpc ti r Hti res. unfold res. rewrite (extract_empty pc tpc ti r Hti).
  split; [|split; [|split]].
  - destruct (py_square_outcomes r) as [(v & ->) | ->]; [left|right]; reflexivity.
  - intros Hr. destruct (py_square_not_finite r Hr) as (v & ->). reflexivity.
  - intros q -> Hq. destruct (py_square_small q Hq) as (v & ->). reflexivity.
  - intros q -> Hq. now rewrite (py_square_large q Hq).
Qed.

Lemma echo_ratio_empty_is_nan_witness :
  let res :=
    EchoRatio.extract (mkPointCloud [of_Z 1] [of_Z 2] [of_Z 3]) []
      (Some (mkPointCloud [of_Z 1] [of_Z 2] [of_Z 3])) (Some 0%Z)
      (InfiniteCylinder (of_Z 1)) in
  (res = Ok NaN \/ res = Raise OverflowError)
  /\ (isfinite (of_Z 1) = false -> res = Ok NaN)
  /\ (forall q : Qc, of_Z 1 = Fin q -> (Qabs q <= Binary64.pow2 511)%Q -> res = Ok NaN)
  /\ (forall q : Qc, of_Z 1 = Fin q -> (Binary64.pow2 512 <= Qabs q)%Q ->
      res = Raise OverflowError).
Proof.
  apply (echo_ratio_empty_is_nan (mkPointCloud [of_Z 1] [of_Z 2] [of_Z 3])
           (mkPointCloud [of_Z 1] [of_Z 2] [of_Z 3]) 0 (of_Z 1)).
  unfold in_bounds_pc, in_bounds. cbn [x_data y_data z_data List.length]. lia.
Defined.

(** On the grid the count of [extract] is the count of the points in the
    closed sphere. *)
Lemma echo_ratio_value (k : nat) (xs ys zs txs tys tzs : list Qc) (nb : list Z)
    (ti : Z) (r : Qc) :
  (k <= 500)%nat ->
  Forall (Spec.on_grid k (2 ^ 24)) (xs ++ ys ++ zs) ->
  Forall (Spec.on_grid k (2 ^ 24)) (txs ++ tys ++ tzs) ->
  Spec.on_grid k (2 ^ 26) r ->
  Forall (in_bounds_pc (mkPointCloud (map Fin xs) (map Fin ys) (map Fin zs))) nb ->
  in_bounds_pc (mkPointCloud (map Fin txs) (map Fin tys) (map Fin tzs)) ti ->
  EchoRatio.extract (mkPointCloud (map Fin xs) (map Fin ys) (map Fin zs)) nb
    (Some (mkPointCloud (map Fin txs) (map Fin tys) (map Fin tzs))) (Some ti)
    (InfiniteCylinder (Fin r))
  = Ok (Spec.percent_b64
          (List.length (filter (Spec.in_sphere r (Spec.point_at txs tys tzs ti))
                               (map (Spec.point_at xs ys zs) nb)))
          (List.length nb)).
Proof.
  intros Hk Gp Gt Gr Hnb Hti.
  set (pts := map (Spec.point_at xs ys zs) nb). set (t := Spec.point_at txs tys tzs ti).
  assert (Hpts : Forall (Spec.point_on_grid k) pts).
  { unfold pts. apply Forall_map. eapply Forall_impl; [|exact Hnb].
    intros i Hi. destruct (in_bounds_pc_fin _ _ _ _ Hi) as (Hx & Hy & Hz).
    now apply point_at_on_grid. }
  assert (Ht : Spec.point_on_grid k t).
  { destruct (in_bounds_pc_fin _ _ _ _ Hti) as (Hx & Hy & Hz).
    now apply point_at_on_grid. }
  rewrite (extract_read _ _ nb ti (Fin r) _ _ (positions_at xs ys zs nb Hnb)
             (target_at txs tys tzs ti Hti)).
  rewrite (py_square_on_grid k r Hk Gr). cbn [bind].
  rewrite <- (Nat2Z.id (List.length (filter _ _))), <- count_true_filter.
  fold pts t. rewrite (count_in_sphere k r t pts Hk Ht Hpts), Nat2Z.id.
  unfold pts. rewrite !length_map. reflexivity.
Qed.



(** ** Percentiles *)



(* idx as a quotient of integers *)
Lemma idx_quot (p m : Z) :
  (this (Q2Qc (inject_Z p) / Q2Qc 100 * Q2Qc (inject_Z m))%Qc == inject_Z (p * m) / inject_Z 100)%Q.
Proof.
  unfold Qcdiv, Qcmult, Qcinv, Q2Qc. cbn [this].
  rewrite !Qred_correct. rewrite inject_Z_mult. field.
Qed.

Lemma floor_idx (p m : Z) :
  Qfloor (this (Q2Qc (inject_Z p) / Q2Qc 100 * Q2Qc (inject_Z m))%Qc) = (p * m / 100)%Z.
Proof. rewrite idx_quot. symmetry. apply Zdiv_Qdiv. Qed.

Lemma firstn1_skipn {A : Type} (a : nat) (l : list A) (d : A) :
  (a < List.length l)%nat -> firstn 1 (skipn a l) = [nth a l d].
Proof.
  revert l. induction a as [|a IH]; intros [|x l] H; cbn [List.length] in H; try lia.
  - reflexivity.
  - cbn [skipn nth]. apply IH. lia.
Qed.

Lemma firstn2_skipn {A : Type} (a : nat) (l : list A) (d d' : A) :
  (S a < List.length l)%nat -> firstn 2 (skipn a l) = [nth a l d; nth (S a) l d'].
Proof.
  revert l. induction a as [|a IH]; intros [|x l] H; cbn [List.length] in H; try lia.
  - destruct l as [|y l]; cbn [List.length] in H; [lia|reflexivity].
  - cbn [skipn]. rewrite (IH l); [reflexivity|lia].
Qed.



Lemma Qcleb_false_le (a b : Qc) : Qcleb a b = false -> (b <= a)%Qc.
Proof.
  intros H. destruct (Qclt_le_dec a b) as [L|L]; [|exact L].
  apply Qclt_le_weak in L. apply Qcleb_le in L. congruence.
Qed.

Lemma insert_fin (a : Qc) (s : list Qc) :
  StronglySorted Qcle s ->
  exists s', Numpy.insert (Fin a) (map Fin s) = map Fin s'
             /\ Permutation (a :: s) s' /\ StronglySorted Qcle s'.
Proof.
  induction s as [|y s IH]; intros Hs.
  - exists [a]. repeat split; [apply Permutation_refl | repeat constructor].
  - cbn [map Numpy.insert].
    change (sort_leb (Fin a) (Fin y)) with (Qcleb a y).
    destruct (Qcleb a y) eqn:Hay.
    + exists (a :: y :: s). repeat split; [apply Permutation_refl|].
      apply Qcleb_le in Hay. inversion Hs; subst.
      constructor; [exact Hs|]. constructor; [exact Hay|].
      eapply Forall_impl; [|eassumption]. intros z Hz. eapply Qcle_trans; eassumption.
    + inversion Hs as [|? ? Hs' Hall]; subst.
      destruct (IH Hs') as (s' & E & P & S').
      exists (y :: s'). rewrite E. repeat split.
      * rewrite perm_swap. now apply perm_skip.
      * constructor; [exact S'|].
        eapply Permutation_Forall; [exact P|].
        constructor; [now apply Qcleb_false_le | exact Hall].
Qed.

Lemma sort_fin (zs : list Qc) :
  exists s, Numpy.sort (map Fin zs) = map Fin s
            /\ Permutation zs s /\ StronglySorted Qcle s.
Proof.
  induction zs as [|z zs (s & E & P & S)].
  - exists []. repeat split; constructor.
  - unfold Numpy.sort in *. cbn [map fold_right]. rewrite E.
    destruct (insert_fin z s S) as (s' & E' & P' & S').
    exists s'. repeat split; [exact E' | | exact S'].
    eapply Permutation_trans; [apply perm_skip; exact P | exact P'].
Qed.


Lemma percentile_singleton (z : Qc) (p : Z) : Spec.percentile [z] p = z.
Proof.
  unfold Spec.percentile, Spec.rank_position. cbv zeta. cbn [List.length].
  replace (Q2Qc (inject_Z (Z.of_nat 1 - 1))) with 0%Qc by (apply Qc_is_canon; reflexivity).
  replace (Q2Qc (inject_Z p) / Q2Qc 100 * 0)%Qc with 0%Qc by ring.
  change (Qfloor 0%Qc) with 0%Z.
  change (Z.to_nat 0) with 0%nat. change (Z.to_nat (0 + 1)) with 1%nat.
  cbn [nth]. ring.
Qed.

(** ** Percentiles on floats *)

(** Closed powers of two, as numerals. *)
Ltac pow2_numerals :=
  repeat match goal with
         | |- context [Binary64.pow2 ?e] =>
             let c := eval vm_compute in (Binary64.pow2 e) in
             change (Binary64.pow2 e) with c in *
         | H : context [Binary64.pow2 ?e] |- _ =>
             let c := eval vm_compute in (Binary64.pow2 e) in
             change (Binary64.pow2 e) with c in *
         end.
(** ** binary64 rounding: error of one operation *)

Section Binary64Error.

Import Binary64.

(** A value of magnitude at most [B] is moved by rounding by at most
    [2^-53 B + 2^-1075]. *)
Lemma round_abs (q : Qc) (B : Q) :
  (Qabs q <= B)%Q -> (B <= pow2 1023)%Q ->
  exists v : Qc, round q = Fin v /\ (Qabs (v - q) <= pow2 (-53) * B + pow2 (-1075))%Q.
Proof.
  intros Hq HB.
  destruct (round_error q) as (v & Ev & Herr); [lra|].
  exists v. split; [exact Ev|].
  pose proof (pow2_pos (-53)) as Pu. pose proof (pow2_pos (-1075)) as Pe.
  destruct (Qeq_dec q 0) as [E0|Hn].
  - assert (Ev' : round q = Fin q).
    { unfold round. rewrite (proj2 (Qeq_bool_iff _ _) E0). f_equal.
      apply Qc_is_canon. symmetry. exact E0. }
    rewrite Ev' in Ev. injection Ev as <-.
    setoid_replace (q - q)%Q with 0%Q by ring. change (Qabs 0) with 0%Q.
    pose proof (Qabs_nonneg q). nra.
  - destruct (ulp_exp_spec q Hn) as [H|H].
    + assert (E : (pow2 (ulp_exp q - 1) == pow2 (-53) * pow2 (ulp_exp q + 52))%Q).
      { rewrite <- pow2_add. replace (-53 + (ulp_exp q + 52))%Z with (ulp_exp q - 1)%Z by lia.
        reflexivity. }
      rewrite E in Herr.
      set (a := Qabs (v - q)) in *. set (b := pow2 (ulp_exp q + 52)) in *.
      set (c := Qabs q) in *. nra.
    + rewrite H in Herr. change (pow2 (-1074 - 1)) with (pow2 (-1075)) in Herr.
      pose proof (Qabs_nonneg q).
      set (a := Qabs (v - q)) in *. set (c := Qabs q) in *. nra.
Qed.

Lemma add_abs (x y : Qc) (B : Q) :
  (Qabs (x + y) <= B)%Q -> (B <= pow2 1023)%Q ->
  exists v : Qc,
    add (Fin x) (Fin y) = Fin v
    /\ (Qabs (v - (x + y)) <= pow2 (-53) * B + pow2 (-1075))%Q.
Proof.
  intros H HB. unfold add, Float64.add, rounded.
  destruct (round_abs (x + y)%Qc B) as (v & Ev & Hv); [now rewrite this_plus|exact HB|].
  exists v. split; [exact Ev|]. now rewrite this_plus in Hv.
Qed.

Lemma sub_abs (x y : Qc) (B : Q) :
  (Qabs (x - y) <= B)%Q -> (B <= pow2 1023)%Q ->
  exists v : Qc,
    sub (Fin x) (Fin y) = Fin v
    /\ (Qabs (v - (x - y)) <= pow2 (-53) * B + pow2 (-1075))%Q.
Proof.
  intros H HB. unfold sub, Float64.sub, neg, Float64.add, rounded.
  change (x + - y)%Qc with (x - y)%Qc.
  destruct (round_abs (x - y)%Qc B) as (v & Ev & Hv); [now rewrite this_minus|exact HB|].
  exists v. split; [exact Ev|]. now rewrite this_minus in Hv.
Qed.

Lemma mul_abs (x y : Qc) (B : Q) :
  (Qabs (x * y) <= B)%Q -> (B <= pow2 1023)%Q ->
  exists v : Qc,
    mul (Fin x) (Fin y) = Fin v
    /\ (Qabs (v - x * y) <= pow2 (-53) * B + pow2 (-1075))%Q.
Proof.
  intros H HB. unfold mul, Float64.mul, rounded.
  destruct (round_abs (x * y)%Qc B) as (v & Ev & Hv); [now rewrite this_mult|exact HB|].
  exists v. split; [exact Ev|]. now rewrite this_mult in Hv.
Qed.

Lemma this_div (x y : Qc) : (this (x / y)%Qc == this x / this y)%Q.
Proof.
  unfold Qcdiv. rewrite this_mult. unfold Qcinv. cbn [this Q2Qc].
  rewrite Qred_correct. reflexivity.
Qed.

Lemma div_abs (x y : Qc) (B : Q) :
  ~ (y == 0)%Q -> (Qabs (x / y) <= B)%Q -> (B <= pow2 1023)%Q ->
  exists v : Qc,
    div (Fin x) (Fin y) = Fin v
    /\ (Qabs (v - x / y) <= pow2 (-53) * B + pow2 (-1075))%Q.
Proof.
  intros Hy H HB. unfold div, Float64.div, rounded.
  assert (Hy' : y <> 0%Qc) by (intros ->; apply Hy; reflexivity).
  rewrite (Qc_eq_bool_neq _ _ Hy').
  destruct (round_abs (x / y)%Qc B) as (v & Ev & Hv); [now rewrite this_div|exact HB|].
  exists v. split; [exact Ev|]. now rewrite this_div in Hv.
Qed.

(** A product of two bounded factors. *)
Lemma mul_bound (a d A D : Q) :
  (Qabs a <= A)%Q -> (Qabs d <= D)%Q -> (Qabs (a * d) <= A * D)%Q.
Proof.
  intros Ha Hd. rewrite Qabs_Qmult.
  pose proof (Qabs_nonneg a). pose proof (Qabs_nonneg d).
  set (x := Qabs a) in *. set (y := Qabs d) in *. nra.
Qed.

End Binary64Error.

Section WeightedMean.

Import Binary64.


Ltac two_sided H := apply Qabs_Qle_condition in H.

(** The interpolation step between two neighbouring heights [a] and [b]
    of magnitude at most [M], at a rank [xh] strictly between the
    integers [i] and [i + 1]: the weights, their sum, the two products,
    their sum and the quotient, rounded one by one, give a value within
    [2^-46 M + 2^-590] of [a (i + 1 - xh) + b (xh - i)]. *)
Lemma weighted_mean_error (a b xh : Qc) (i : Z) (M : Q) :
  (Qabs a <= M)%Q -> (Qabs b <= M)%Q -> (M <= pow2 480)%Q ->
  (0 <= i)%Z -> (i + 1 < 2 ^ 53)%Z ->
  (inject_Z i < xh)%Q -> (xh < inject_Z (i + 1))%Q ->
  let w1 := sub (of_Z (i + 1)) (Fin xh) in
  let w2 := sub (Fin xh) (of_Z i) in
  exists v : Qc,
    div (Numpy64.sum (Numpy64.multiply [Fin a; Fin b] [w1; w2])) (Numpy64.sum [w1; w2])
    = Fin v
    /\ (Qabs (v - (a * (inject_Z (i + 1) - xh) + b * (xh - inject_Z i)))
        <= pow2 (-46) * M + pow2 (-590))%Q.
Proof.
  intros Ha Hb HM Hi0 Hi53 Hlo Hhi w1 w2. subst w1 w2.
  rewrite !of_Z_exact by lia. unfold Float64.of_Z.
  assert (HJ : (inject_Z (i + 1) == inject_Z i + 1)%Q)
    by (rewrite inject_Z_plus; reflexivity).
  assert (HM0 : (0 <= M)%Q) by (pose proof (Qabs_nonneg a); lra).
  assert (HB1 : (1 <= pow2 1023)%Q) by (apply Qle_bool_iff; reflexivity).
  (* the weights *)
  destruct (sub_abs (Q2Qc (inject_Z (i + 1))) xh 1) as (v1 & -> & H1).
  { rewrite this_inject. apply Qabs_Qle_condition.
    set (J := inject_Z (i + 1)) in *. set (I := inject_Z i) in *. split; lra. }
  { exact HB1. }
  destruct (sub_abs xh (Q2Qc (inject_Z i)) 1) as (v2 & -> & H2).
  { rewrite this_inject. apply Qabs_Qle_condition.
    set (J := inject_Z (i + 1)) in *. set (I := inject_Z i) in *. split; lra. }
  { exact HB1. }
  rewrite this_inject in H1, H2.
  set (J := inject_Z (i + 1)) in *. set (I := inject_Z i) in *. set (X := this xh) in *.
  two_sided H1. two_sided H2.
  set (V1 := this v1) in *. set (V2 := this v2) in *.
  (* their sum *)
  unfold Numpy64.sum, Numpy64.multiply. cbn [fold_left map combine fst snd]. unfold zero.
  destruct (add_abs 0%Qc v1 2) as (t1 & -> & Ht1).
  { change (this 0%Qc) with 0%Q. fold V1. apply Qabs_Qle_condition.
    pow2_numerals. split; lra. }
  { pow2_numerals. lra. }
  change (this 0%Qc) with 0%Q in Ht1. fold V1 in Ht1. two_sided Ht1.
  set (T1 := this t1) in *.
  destruct (add_abs t1 v2 4) as (d & -> & Hd).
  { fold T1 V2. apply Qabs_Qle_condition. pow2_numerals. split; lra. }
  { pow2_numerals. lra. }
  fold T1 V2 in Hd. two_sided Hd. set (D := this d) in *.
  assert (HD : (1 - pow2 (-49) <= D)%Q /\ (D <= 1 + pow2 (-49))%Q)
    by (pow2_numerals; split; lra).
  (* the products *)
  pose proof (mul_bound a (V1 - (J - X)) M (pow2 (-53) * 1 + pow2 (-1075)) Ha
                ltac:(apply Qabs_Qle_condition; split; lra)) as Ea.
  pose proof (mul_bound b (V2 - (X - I)) M (pow2 (-53) * 1 + pow2 (-1075)) Hb
                ltac:(apply Qabs_Qle_condition; split; lra)) as Eb.
  pose proof (mul_bound a (J - X) M 1 Ha
                ltac:(apply Qabs_Qle_condition; split; lra)) as Fa.
  pose proof (mul_bound b (X - I) M 1 Hb
                ltac:(apply Qabs_Qle_condition; split; lra)) as Fb.
  two_sided Ea. two_sided Eb. two_sided Fa. two_sided Fb.
  set (A := this a) in *. set (B := this b) in *.
  assert (Ra : (A * V1 == A * (J - X) + A * (V1 - (J - X)))%Q) by ring.
  assert (Rb : (B * V2 == B * (X - I) + B * (V2 - (X - I)))%Q) by ring.
  set (AW := (A * (J - X))%Q) in *. set (BW := (B * (X - I))%Q) in *.
  set (AE := (A * (V1 - (J - X)))%Q) in *. set (BE := (B * (V2 - (X - I)))%Q) in *.
  assert (HMe : (M * pow2 (-1075) <= pow2 (-595))%Q).
  { assert (E : (pow2 (-595) == pow2 480 * pow2 (-1075))%Q) by reflexivity.
    rewrite E. pose proof (pow2_pos (-1075)). set (e := pow2 (-1075)) in *. nra. }
  set (ME := (M * pow2 (-1075))%Q) in *.
  assert (HME0 : (0 <= ME)%Q).
  { unfold ME. pose proof (pow2_pos (-1075)). set (e := pow2 (-1075)) in *. nra. }
  destruct (mul_abs a v1 (2 * M)) as (pa & -> & Hpa).
  { fold A V1. rewrite Ra. apply Qabs_Qle_condition.
    replace (M * (pow2 (-53) * 1 + pow2 (-1075)))%Q
      with (M * (pow2 (-53) * 1 + pow2 (-1075)))%Q in Ea by reflexivity.
    assert (Hx : (M * (pow2 (-53) * 1 + pow2 (-1075)) == pow2 (-53) * M + ME)%Q)
      by (unfold ME; ring).
    rewrite Hx in Ea. pow2_numerals. split; lra. }
  { pow2_numerals. lra. }
  destruct (mul_abs b v2 (2 * M)) as (pb & -> & Hpb).
  { fold B V2. rewrite Rb. apply Qabs_Qle_condition.
    assert (Hx : (M * (pow2 (-53) * 1 + pow2 (-1075)) == pow2 (-53) * M + ME)%Q)
      by (unfold ME; ring).
    rewrite Hx in Eb. pow2_numerals. split; lra. }
  { pow2_numerals. lra. }
  fold A V1 in Hpa. fold B V2 in Hpb. rewrite Ra in Hpa. rewrite Rb in Hpb.
  assert (Hxa : (M * (pow2 (-53) * 1 + pow2 (-1075)) == pow2 (-53) * M + ME)%Q)
    by (unfold ME; ring).
  rewrite Hxa in Ea, Eb. clear Hxa.
  assert (Hm1 : (M * 1 == M)%Q) by ring. rewrite Hm1 in Fa, Fb. clear Hm1.
  two_sided Hpa. two_sided Hpb.
  set (PA := this pa) in *. set (PB := this pb) in *.
  (* their sum *)
  destruct (add_abs 0%Qc pa (2 * M + pow2 (-590))) as (t & -> & Ht).
  { change (this 0%Qc) with 0%Q. fold PA. apply Qabs_Qle_condition.
    pow2_numerals. split; lra. }
  { pow2_numerals. lra. }
  change (this 0%Qc) with 0%Q in Ht. fold PA in Ht. two_sided Ht.
  set (T := this t) in *.
  destruct (add_abs t pb (5 * M + pow2 (-590))) as (s & -> & Hs).
  { fold T PB. apply Qabs_Qle_condition. pow2_numerals. split; lra. }
  { pow2_numerals. lra. }
  fold T PB in Hs. two_sided Hs. set (S := this s) in *.
  (* the quotient *)
  assert (HD0 : (0 < D)%Q) by (pow2_numerals; lra).
  assert (HDn : ~ (d == 0)%Q) by (fold D; lra).
  assert (Hinv : (0 < / D)%Q /\ (/ D <= 2)%Q).
  { split; [now apply Qinv_lt_0_compat|].
    apply Qle_shift_inv_r; [exact HD0|]. pow2_numerals. lra. }
  assert (HS : (Qabs S <= 3 * M + pow2 (-590))%Q).
  { apply Qabs_Qle_condition. pow2_numerals. split; lra. }
  assert (HZ : (Qabs (S / D) <= 6 * M + 2 * pow2 (-590))%Q).
  { unfold Qdiv.
    pose proof (mul_bound S (/ D) (3 * M + pow2 (-590)) 2 HS
                  ltac:(apply Qabs_Qle_condition; split; lra)) as HH.
    eapply Qle_trans; [exact HH|]. apply Qle_lteq. right. ring. }
  destruct (div_abs s d (6 * M + 2 * pow2 (-590)) HDn) as (v & -> & Hv).
  { fold S D. exact HZ. }
  { pow2_numerals. lra. }
  fold S D in Hv. exists v. split; [reflexivity|].
  assert (HZD : (S / D - S == S / D * (1 - D))%Q) by (field; lra).
  pose proof (mul_bound (S / D) (1 - D) (6 * M + 2 * pow2 (-590)) (pow2 (-49)) HZ
                ltac:(apply Qabs_Qle_condition; split; lra)) as HZE.
  rewrite <- HZD in HZE. two_sided HZE. two_sided Hv.
  assert (Hc : ((6 * M + 2 * pow2 (-590)) * pow2 (-49)
                == 6 * pow2 (-49) * M + pow2 (-638))%Q).
  { assert (E2 : (pow2 (-638) == 2 * pow2 (-590) * pow2 (-49))%Q) by reflexivity.
    rewrite E2. ring. }
  rewrite Hc in HZE.
  set (Z := (S / D)%Q) in *. set (V := this v) in *.
  apply Qabs_Qle_condition. fold A B AW BW.
  clear Ha Hb Ra Rb HS HZ HZD Hc HDn Hinv.
  pow2_numerals. split; lra.
Qed.

End WeightedMean.

Section PercentileRank.

Import Binary64.


(** The rank [per / 100. * (n - 1)] as binary64 computes it: a number
    between 0 and [n - 1], within [2^-52 (n - 1) + 2^-1040] of the exact
    rank. *)
Lemma rank_error (p m : Z) :
  (0 <= p <= 100)%Z -> (0 <= m < 2 ^ 30)%Z ->
  exists xh : Qc,
    mul (div (of_Z p) (Fin (Q2Qc 100))) (of_Z m) = Fin xh
    /\ (0 <= xh)%Q /\ (xh <= inject_Z m)%Q
    /\ (Qabs (xh - inject_Z p / 100 * inject_Z m)
        <= pow2 (-52) * inject_Z m + pow2 (-1040))%Q.
Proof.
  intros Hp Hm. rewrite !of_Z_exact by lia. unfold Float64.of_Z.
  unfold div, Float64.div.
  rewrite (Qc_eq_bool_neq (Q2Qc 100) 0%Qc) by discriminate. unfold rounded.
  set (P := inject_Z p). set (N := inject_Z m).
  assert (HP : (0 <= P)%Q /\ (P <= 100)%Q).
  { unfold P. change 0%Q with (inject_Z 0). change 100%Q with (inject_Z 100).
    rewrite <- !Zle_Qle. lia. }
  assert (HN : (0 <= N)%Q /\ (N < inject_Z (2 ^ 30))%Q).
  { unfold N. change 0%Q with (inject_Z 0). rewrite <- Zle_Qle, <- Zlt_Qlt. lia. }
  assert (Eq1 : ((Q2Qc P / Q2Qc 100)%Qc == P / 100)%Q).
  { rewrite this_div. unfold P. rewrite this_inject. reflexivity. }
  assert (H01 : (0 <= P / 100)%Q /\ (P / 100 <= 1)%Q).
  { split; [apply Qle_shift_div_l|apply Qle_shift_div_r]; lra. }
  destruct (round_range (Q2Qc P / Q2Qc 100)%Qc 1) as (q & Eq & L1 & U1);
    [rewrite Eq1; tauto | rewrite Eq1; change (inject_Z 1) with 1%Q; tauto | reflexivity |].
  change (inject_Z 1) with 1%Q in U1.
  destruct (round_abs (Q2Qc P / Q2Qc 100)%Qc 1) as (q' & Eq' & D1);
    [rewrite Eq1, Qabs_pos by tauto; tauto | apply Qle_bool_iff; reflexivity |].
  rewrite Eq in Eq'. injection Eq' as <-. rewrite Eq1 in D1.
  rewrite Eq. unfold mul, Float64.mul, rounded.
  assert (Eq2 : ((q * Q2Qc N)%Qc == q * N)%Q).
  { rewrite this_mult. unfold N. rewrite this_inject. reflexivity. }
  assert (HqN : (0 <= q * N)%Q /\ (q * N <= N)%Q) by (split; nra).
  destruct (round_range (q * Q2Qc N)%Qc m) as (xh & Ex & L2 & U2);
    [rewrite Eq2; tauto | rewrite Eq2; tauto | lia |].
  destruct (round_abs (q * Q2Qc N)%Qc N) as (xh' & Ex' & D2);
    [rewrite Eq2, Qabs_pos by tauto; tauto | |].
  { assert (inject_Z (2 ^ 30) <= pow2 1023)%Q by (apply Qle_bool_iff; reflexivity). lra. }
  rewrite Ex in Ex'. injection Ex' as <-. rewrite Eq2 in D2.
  exists xh. split; [exact Ex|]. split; [exact L2|]. split; [exact U2|].
  apply Qabs_Qle_condition in D1. apply Qabs_Qle_condition in D2.
  pose proof (mul_bound (q - P / 100) N (pow2 (-53) * 1 + pow2 (-1075)) N
                ltac:(apply Qabs_Qle_condition; split; lra)
                ltac:(apply Qabs_Qle_condition; split; lra)) as HE.
  apply Qabs_Qle_condition in HE.
  assert (R : (q * N == P / 100 * N + (q - P / 100) * N)%Q) by ring.
  assert (Hc : ((pow2 (-53) * 1 + pow2 (-1075)) * N == pow2 (-53) * N + pow2 (-1075) * N)%Q)
    by ring.
  rewrite Hc in HE.
  assert (H30 : (pow2 (-1075) * N <= pow2 (-1045))%Q).
  { assert (E : (pow2 (-1045) == pow2 (-1075) * inject_Z (2 ^ 30))%Q) by reflexivity.
    rewrite E. pose proof (pow2_pos (-1075)). set (e := pow2 (-1075)) in *.
    set (b := inject_Z (2 ^ 30)) in *. nra. }
  assert (H30' : (0 <= pow2 (-1075) * N)%Q).
  { pose proof (pow2_pos (-1075)). set (e := pow2 (-1075)) in *. nra. }
  set (EN := (pow2 (-1075) * N)%Q) in *.
  set (QN := (q * N)%Q) in *. set (XP := (P / 100 * N)%Q) in *.
  set (E1 := ((q - P / 100) * N)%Q) in *. set (X := this xh) in *.
  apply Qabs_Qle_condition.
  pow2_numerals. split; lra.
Qed.

End PercentileRank.

Section Interpolation.

Import Binary64.

Lemma interpolate_this (s : list Qc) (h : Qc) :
  (Spec.interpolate s h
   == nth (Z.to_nat (Qfloor h)) s 0%Qc
      + (h - inject_Z (Qfloor h))
        * (nth (Z.to_nat (Qfloor h + 1)) s (nth (Z.to_nat (Qfloor h)) s 0%Qc)
           - nth (Z.to_nat (Qfloor h)) s 0%Qc))%Q.
Proof.
  unfold Spec.interpolate. cbv zeta.
  rewrite this_plus, this_mult, !this_minus, this_inject. reflexivity.
Qed.

Lemma percentile_interpolate (s : list Qc) (p : Z) :
  Spec.percentile s p = Spec.interpolate s (Spec.rank_position p (List.length s)).
Proof. reflexivity. Qed.

Lemma nth_abs_le (s : list Qc) (M : Q) (k : nat) (d : Qc) :
  Forall (fun z : Qc => (Qabs z <= M)%Q) s -> (Qabs d <= M)%Q -> (Qabs (nth k s d) <= M)%Q.
Proof.
  intros H Hd. destruct (Nat.lt_ge_cases k (List.length s)) as [L|G].
  - rewrite Forall_forall in H. apply H. now apply nth_In.
  - now rewrite nth_overflow.
Qed.

(** On one segment the interpolation is the weighted mean of the two
    heights. *)
Lemma interpolate_segment (s : list Qc) (h : Qc) (k : Z) :
  (0 <= k)%Z -> (Z.to_nat k + 1 < List.length s)%nat ->
  (inject_Z k <= h)%Q -> (h <= inject_Z (k + 1))%Q ->
  (Spec.interpolate s h
   == nth (Z.to_nat k) s 0%Qc * (inject_Z (k + 1) - h)
      + nth (S (Z.to_nat k)) s 0%Qc * (h - inject_Z k))%Q.
Proof.
  intros Hk Hn Hlo Hhi. rewrite interpolate_this.
  assert (HJ : (inject_Z (k + 1) == inject_Z k + 1)%Q)
    by (rewrite inject_Z_plus; reflexivity).
  destruct (Qlt_le_dec h (inject_Z (k + 1))) as [Hlt|Hge].
  - assert (Ef : Qfloor h = k).
    { apply Z.le_antisymm.
      - apply Z.lt_succ_r. rewrite Zlt_Qlt. pose proof (Qfloor_le h).
        unfold Z.succ. set (f := inject_Z (Qfloor h)) in *.
        set (j := inject_Z (k + 1)) in *. lra.
      - rewrite <- (Qfloor_Z k). now apply Qfloor_resp_le. }
    rewrite Ef. replace (Z.to_nat (k + 1)) with (S (Z.to_nat k)) by lia.
    rewrite (nth_indep s (nth (Z.to_nat k) s 0%Qc) 0%Qc (n := S (Z.to_nat k))) by lia.
    set (a := this (nth (Z.to_nat k) s 0%Qc)).
    set (b := this (nth (S (Z.to_nat k)) s 0%Qc)).
    rewrite HJ. ring.
  - assert (Eh : (h == inject_Z (k + 1))%Q) by (apply Qle_antisym; assumption).
    assert (Ef : Qfloor h = (k + 1)%Z) by (rewrite Eh; apply Qfloor_Z).
    rewrite Ef. replace (Z.to_nat (k + 1)) with (S (Z.to_nat k)) by lia.
    set (b := this (nth (S (Z.to_nat k)) s 0%Qc)).
    set (c := this (nth _ s _)).
    set (a := this (nth (Z.to_nat k) s 0%Qc)).
    rewrite Eh. set (j := inject_Z (k + 1)) in *. set (i := inject_Z k) in *. 
    assert (E1 : (j - j == 0)%Q) by ring. 
    assert (E2 : (j - i == 1)%Q) by (rewrite HJ; ring).
    rewrite E1, E2. ring.
Qed.

(** Two rank positions less than one rank apart give interpolated
    values at most [2 M] times their distance apart. *)
Lemma interpolate_lipschitz_le (s : list Qc) (x y : Qc) (M : Q) :
  Forall (fun z : Qc => (Qabs z <= M)%Q) s -> (0 <= M)%Q ->
  (0 <= x)%Q -> (x <= y)%Q -> (y <= x + 1)%Q ->
  (y <= inject_Z (Z.of_nat (List.length s) - 1))%Q ->
  (Qabs (Spec.interpolate s y - Spec.interpolate s x) <= 2 * M * (y - x))%Q.
Proof.
  intros HM HM0 Hx Hxy Hy1 Hyn.
  set (k := Qfloor x).
  assert (Hk0 : (0 <= k)%Z).
  { unfold k. rewrite <- (Qfloor_Z 0). now apply Qfloor_resp_le. }
  pose proof (Qfloor_le x) as Hkx. pose proof (Qlt_floor x) as Hxk. fold k in Hkx, Hxk.
  assert (HJ : (inject_Z (k + 1) == inject_Z k + 1)%Q)
    by (rewrite inject_Z_plus; reflexivity).
  assert (HJ2 : (inject_Z (k + 1 + 1) == inject_Z k + 2)%Q)
    by (rewrite !inject_Z_plus; change (inject_Z 1) with 1%Q; ring).
  destruct (Qlt_le_dec (inject_Z k) y) as [Hky|Hyk].
  2:{ (* x = y = k *)
    assert (Exy : (this y == this x)%Q) by (apply Qle_antisym; lra).
    assert (E : y = x) by (apply Qc_is_canon; exact Exy).
    subst y. apply Qabs_Qle_condition.
    set (v := this (Spec.interpolate s x)). split; nra. }
  assert (Hn : (Z.to_nat k + 1 < List.length s)%nat).
  { assert (L : (inject_Z k < inject_Z (Z.of_nat (List.length s) - 1))%Q) by lra.
    rewrite <- Zlt_Qlt in L. lia. }
  set (a := this (nth (Z.to_nat k) s 0%Qc)).
  set (b := this (nth (S (Z.to_nat k)) s 0%Qc)).
  assert (Ha : (Qabs a <= M)%Q) by (apply nth_abs_le; [exact HM|exact HM0]).
  assert (Hb : (Qabs b <= M)%Q) by (apply nth_abs_le; [exact HM|exact HM0]).
  apply Qabs_Qle_condition in Ha. apply Qabs_Qle_condition in Hb.
  rewrite (interpolate_segment s x k Hk0 Hn Hkx (Qlt_le_weak _ _ Hxk)).
  fold a b.
  destruct (Qlt_le_dec (inject_Z (k + 1)) y) as [Hgt|Hle].
  - (* y on the next segment *)
    assert (Hn2 : (Z.to_nat (k + 1) + 1 < List.length s)%nat).
    { assert (L : (inject_Z (k + 1) < inject_Z (Z.of_nat (List.length s) - 1))%Q) by lra.
      rewrite <- Zlt_Qlt in L. lia. }
    rewrite (interpolate_segment s y (k + 1) ltac:(lia) Hn2 (Qlt_le_weak _ _ Hgt)
               ltac:(rewrite HJ2; lra)).
    replace (Z.to_nat (k + 1)) with (S (Z.to_nat k)) by lia. fold b.
    set (c := this (nth (S (S (Z.to_nat k))) s 0%Qc)).
    assert (Hc : (Qabs c <= M)%Q) by (apply nth_abs_le; [exact HM|exact HM0]).
    apply Qabs_Qle_condition in Hc.
    rewrite HJ2. rewrite HJ in *.
    set (i := inject_Z k) in *. set (X := this x) in *. set (Y := this y) in *.
    assert (R : (b * (i + 2 - Y) + c * (Y - (i + 1)) - (a * (i + 1 - X) + b * (X - i))
                 == (i + 1 - X) * (b - a) + (Y - (i + 1)) * (c - b))%Q) by ring.
    rewrite R.
    pose proof (mul_bound (i + 1 - X) (b - a) (i + 1 - X) (2 * M)
                  ltac:(apply Qabs_Qle_condition; split; lra)
                  ltac:(apply Qabs_Qle_condition; split; lra)) as P1.
    pose proof (mul_bound (Y - (i + 1)) (c - b) (Y - (i + 1)) (2 * M)
                  ltac:(apply Qabs_Qle_condition; split; lra)
                  ltac:(apply Qabs_Qle_condition; split; lra)) as P2.
    apply Qabs_Qle_condition in P1. apply Qabs_Qle_condition in P2.
    set (T1 := ((i + 1 - X) * (b - a))%Q) in *.
    set (T2 := ((Y - (i + 1)) * (c - b))%Q) in *.
    set (U1 := ((i + 1 - X) * (2 * M))%Q) in *.
    set (U2 := ((Y - (i + 1)) * (2 * M))%Q) in *.
    assert (EU : (2 * M * (Y - X) == U1 + U2)%Q) by (unfold U1, U2; ring).
    rewrite EU. apply Qabs_Qle_condition. split; lra.
  - rewrite (interpolate_segment s y k Hk0 Hn (Qlt_le_weak _ _ Hky) Hle). fold a b.
    rewrite HJ in *.
    set (i := inject_Z k) in *. set (X := this x) in *. set (Y := this y) in *.
    assert (R : (a * (i + 1 - Y) + b * (Y - i) - (a * (i + 1 - X) + b * (X - i))
                 == (Y - X) * (b - a))%Q) by ring.
    rewrite R.
    pose proof (mul_bound (Y - X) (b - a) (Y - X) (2 * M)
                  ltac:(apply Qabs_Qle_condition; split; lra)
                  ltac:(apply Qabs_Qle_condition; split; lra)) as P1.
    assert (EU : (2 * M * (Y - X) == (Y - X) * (2 * M))%Q) by ring.
    rewrite EU. exact P1.
Qed.

Lemma interpolate_lipschitz (s : list Qc) (x y : Qc) (M D : Q) :
  Forall (fun z : Qc => (Qabs z <= M)%Q) s -> (0 <= M)%Q ->
  (0 <= x)%Q -> (0 <= y)%Q ->
  (x <= inject_Z (Z.of_nat (List.length s) - 1))%Q ->
  (y <= inject_Z (Z.of_nat (List.length s) - 1))%Q ->
  (Qabs (y - x) <= D)%Q -> (D <= 1)%Q ->
  (Qabs (Spec.interpolate s y - Spec.interpolate s x) <= 2 * M * D)%Q.
Proof.
  intros HM HM0 Hx Hy Hxn Hyn HD HD1. apply Qabs_Qle_condition in HD.
  destruct (Qlt_le_dec y x) as [L|G].
  - pose proof (interpolate_lipschitz_le s y x M HM HM0 Hy (Qlt_le_weak _ _ L)
                  ltac:(lra) Hxn) as H.
    apply Qabs_Qle_condition in H. apply Qabs_Qle_condition.
    set (a := this (Spec.interpolate s x)) in *.
    set (b := this (Spec.interpolate s y)) in *.
    set (X := this x) in *. set (Y := this y) in *.
    assert ((2 * M * (X - Y) <= 2 * M * D)%Q) by nra. split; lra.
  - pose proof (interpolate_lipschitz_le s x y M HM HM0 Hx G ltac:(lra) Hyn) as H.
    apply Qabs_Qle_condition in H. apply Qabs_Qle_condition.
    set (a := this (Spec.interpolate s x)) in *.
    set (b := this (Spec.interpolate s y)) in *.
    set (X := this x) in *. set (Y := this y) in *.
    assert ((2 * M * (Y - X) <= 2 * M * D)%Q) by nra. split; lra.
Qed.

End Interpolation.

Section PercentileBinary64.

Import Binary64.


(** The integer-rank branch returns the height at that rank unchanged. *)
Lemma integer_rank_value (z : Qc) :
  representable z ->
  div (Numpy64.sum (Numpy64.multiply [Fin z] [one])) one = Fin z.
Proof.
  unfold representable. intros Hz.
  unfold Numpy64.multiply, Numpy64.sum. cbn [map fold_left].
  unfold mul, add, div, one, zero, Float64.mul, rounded.
  replace (z * 1)%Qc with z by ring. rewrite Hz.
  unfold Float64.add. replace (0 + z)%Qc with z by ring. rewrite Hz.
  unfold Float64.div. rewrite (Qc_eq_bool_neq 1%Qc 0%Qc) by discriminate.
  replace (z / 1)%Qc with z by (field; discriminate). exact Hz.
Qed.

Lemma eqb_fin (a b : Qc) : eqb (Fin a) (Fin b) = true <-> a = b.
Proof.
  unfold eqb, leb. rewrite andb_true_iff, !Qcleb_le. split.
  - intros [H1 H2]. now apply Qcle_antisym.
  - intros ->. split; apply Qcle_refl.
Qed.

Lemma compute_qth_percentile_b64 (s : list Qc) (p : Z) (M : Q) :
  s <> [] -> (0 <= p <= 100)%Z -> (Z.of_nat (List.length s) <= 2 ^ 30)%Z ->
  Forall representable s ->
  Forall (fun z : Qc => (Qabs z <= M)%Q) s -> (M <= pow2 480)%Q ->
  exists v : Qc,
    ScipyStats64._compute_qth_percentile (map Fin s) p = Ok (Fin v)
    /\ (Qabs (v - Spec.percentile s p)
        <= pow2 (-51) * (inject_Z (Z.of_nat (List.length s)) + 32) * M + pow2 (-550))%Q.
Proof.
  intros Hs Hp Hlen Hrep HM HM480.
  unfold ScipyStats64._compute_qth_percentile.
  replace ((0 <=? p)%Z && (p <=? 100)%Z) with true by (symmetry; apply andb_true_iff; split; lia).
  cbn [negb]. rewrite length_map.
  set (n := List.length s) in *.
  assert (Hn : (1 <= n)%nat) by (subst n; destruct s; [congruence|cbn; lia]).
  set (m := (Z.of_nat n - 1)%Z). assert (Hm : (0 <= m < 2 ^ 30)%Z) by (subst m; lia).
  assert (HM0 : (0 <= M)%Q).
  { destruct s as [|z s']; [congruence|]. inversion HM as [|? ? Hz _]; subst.
    pose proof (Qabs_nonneg z). lra. }
  destruct (rank_error p m Hp Hm) as (xh & Eidx & Hx0 & Hxm & Herr).
  rewrite Eidx. cbn [ScipyStats64.py_int bind].
  unfold ScipyStats.py_int. rewrite (proj2 (Qle_bool_iff 0 xh) Hx0).
  set (i := Qfloor xh).
  assert (Hi0 : (0 <= i)%Z).
  { unfold i. rewrite <- (Qfloor_Z 0). now apply Qfloor_resp_le. }
  assert (Him : (i <= m)%Z) by (apply Qfloor_le_int; exact Hxm).
  pose proof (Qfloor_le xh) as Hix. pose proof (Qlt_floor xh) as Hxi. fold i in Hix, Hxi.
  (* the exact rank and the distance between the interpolated values *)
  rewrite percentile_interpolate. fold n.
  set (h := Spec.rank_position p n).
  assert (Eh : (h == inject_Z p / 100 * inject_Z m)%Q).
  { unfold h, Spec.rank_position. fold m.
    rewrite this_mult, this_div, !this_inject. reflexivity. }
  assert (HP : (0 <= inject_Z p)%Q /\ (inject_Z p <= 100)%Q).
  { change 0%Q with (inject_Z 0). change 100%Q with (inject_Z 100).
    rewrite <- !Zle_Qle. lia. }
  assert (HN : (0 <= inject_Z m)%Q /\ (inject_Z m < inject_Z (2 ^ 30))%Q).
  { change 0%Q with (inject_Z 0). rewrite <- Zle_Qle, <- Zlt_Qlt. lia. }
  assert (H01 : (0 <= inject_Z p / 100)%Q /\ (inject_Z p / 100 <= 1)%Q).
  { split; [apply Qle_shift_div_l|apply Qle_shift_div_r]; lra. }
  assert (Hh : (0 <= h)%Q /\ (h <= inject_Z m)%Q).
  { rewrite Eh. set (P := (inject_Z p / 100)%Q) in *. set (N := inject_Z m) in *.
    split; nra. }
  rewrite <- Eh in Herr.
  assert (HD1 : (pow2 (-52) * inject_Z m + pow2 (-1040) <= 1)%Q).
  { change (inject_Z (2 ^ 30)) with (1073741824%Q) in HN.
    set (N := inject_Z m) in *. pow2_numerals. lra. }
  pose proof (interpolate_lipschitz s h xh M _ HM HM0 (proj1 Hh) Hx0 (proj2 Hh) Hxm
                Herr HD1) as HL.
  fold n in HL. 
  assert (En : (inject_Z (Z.of_nat n) == inject_Z m + 1)%Q).
  { unfold m, Z.sub. rewrite inject_Z_plus, inject_Z_opp.
    change (inject_Z 1) with 1%Q. ring. }
  assert (Hfin : forall v : Qc,
             (Qabs (v - Spec.interpolate s xh) <= pow2 (-46) * M + pow2 (-590))%Q ->
             (Qabs (v - Spec.interpolate s h)
              <= pow2 (-51) * (inject_Z (Z.of_nat n) + 32) * M + pow2 (-550))%Q).
  { intros v Hv. rewrite En.
    apply Qabs_Qle_condition in Hv. apply Qabs_Qle_condition in HL.
    apply Qabs_Qle_condition.
    set (V := this v) in *. set (A := this (Spec.interpolate s xh)) in *.
    set (B := this (Spec.interpolate s h)) in *.
    assert (R1 : (2 * M * (pow2 (-52) * inject_Z m + pow2 (-1040))
                  == pow2 (-51) * (M * inject_Z m) + pow2 (-1039) * M)%Q).
    { assert (E1 : (pow2 (-51) == 2 * pow2 (-52))%Q) by reflexivity.
      assert (E2 : (pow2 (-1039) == 2 * pow2 (-1040))%Q) by reflexivity.
      rewrite E1, E2. ring. }
    rewrite R1 in HL.
    assert (R2 : (pow2 (-51) * (inject_Z m + 1 + 32) * M
                  == pow2 (-51) * (M * inject_Z m) + 33 * pow2 (-51) * M)%Q) by ring.
    rewrite R2.
    assert (HMN : (0 <= M * inject_Z m)%Q) by (set (N := inject_Z m) in *; nra).
    set (MN := (M * inject_Z m)%Q) in *.
    pow2_numerals. split; lra. }
  assert (Hsmall : (0 <= pow2 (-46) * M + pow2 (-590))%Q).
  { pow2_numerals. lra. }
  destruct (eqb (Float64.of_Z i) (Fin xh)) eqn:Eeq.
  - (* the rank is an integer *)
    apply eqb_fin in Eeq.
    assert (Ei : (xh == inject_Z i)%Q) by (rewrite <- Eeq; apply this_inject).
    assert (Hlt : (Z.to_nat i < List.length (map Fin s))%nat)
      by (rewrite length_map; fold n; lia).
    unfold Numpy.slice. replace (Z.to_nat (i + 1 - i)) with 1%nat by lia.
    rewrite (firstn1_skipn (Z.to_nat i) (map Fin s) (Fin 0) Hlt).
    change (Fin 0) with ((fun z => Fin z) 0%Qc). rewrite map_nth.
    set (z := nth (Z.to_nat i) s 0%Qc).
    assert (Hz : representable z).
    { rewrite Forall_forall in Hrep. apply Hrep. apply nth_In. fold n. lia. }
    rewrite (integer_rank_value z Hz).
    exists z. split; [reflexivity|]. apply Hfin.
    rewrite interpolate_this. fold i. fold z.
    set (u := this (nth (Z.to_nat (i + 1)) s z)). rewrite Ei.
    set (I := inject_Z i). set (Z0 := this z).
    assert (R : (Z0 - (Z0 + (I - I) * (u - Z0)) == 0)%Q) by ring.
    rewrite R. exact Hsmall.
  - (* the rank lies strictly between [i] and [i + 1] *)
    assert (Hne : ~ (xh == inject_Z i)%Q).
    { intros E. assert (T : eqb (Float64.of_Z i) (Fin xh) = true).
      { apply eqb_fin. apply Qc_is_canon. rewrite this_inject. symmetry. exact E. }
      congruence. }
    assert (Hlo : (inject_Z i < xh)%Q).
    { destruct (Qlt_le_dec (inject_Z i) xh) as [L|G]; [exact L|].
      exfalso. apply Hne. apply Qle_antisym; assumption. }
    assert (Hi1 : (i + 1 <= m)%Z).
    { assert (L : (i < m)%Z) by (apply Qfloor_lt_int; assumption). lia. }
    assert (Hlt : (S (Z.to_nat i) < List.length (map Fin s))%nat)
      by (rewrite length_map; fold n; lia).
    unfold Numpy.slice. replace (Z.to_nat (i + 2 - i)) with 2%nat by lia.
    rewrite (firstn2_skipn (Z.to_nat i) (map Fin s) (Fin 0) (Fin 0) Hlt).
    change (Fin 0) with ((fun z => Fin z) 0%Qc). rewrite !map_nth.
    set (a := nth (Z.to_nat i) s 0%Qc). set (b := nth (S (Z.to_nat i)) s 0%Qc).
    assert (Ha : (Qabs a <= M)%Q) by (apply nth_abs_le; [exact HM|exact HM0]).
    assert (Hb : (Qabs b <= M)%Q) by (apply nth_abs_le; [exact HM|exact HM0]).
    destruct (weighted_mean_error a b xh i M Ha Hb HM480 Hi0 ltac:(lia) Hlo Hxi)
      as (v & Ev & Hv).
    cbv zeta in Ev. rewrite !of_Z_exact in Ev by lia.
    rewrite !of_Z_exact by lia. rewrite Ev.
    exists v. split; [reflexivity|]. apply Hfin.
    rewrite (interpolate_segment s xh i Hi0 ltac:(fold n; lia) Hix (Qlt_le_weak _ _ Hxi)).
    exact Hv.
Qed.

Lemma compute_qth_percentile_b64_one (z : Qc) (p : Z) :
  (0 <= p <= 100)%Z -> representable z ->
  ScipyStats64._compute_qth_percentile [Fin z] p = Ok (Fin z).
Proof.
  intros Hp Hz. unfold ScipyStats64._compute_qth_percentile.
  replace ((0 <=? p)%Z && (p <=? 100)%Z) with true by (symmetry; apply andb_true_iff; split; lia).
  cbn [negb List.length]. change (Z.of_nat 1 - 1)%Z with 0%Z.
  destruct (rank_error p 0 Hp ltac:(lia)) as (xh & Eidx & Hx0 & Hxm & _).
  rewrite Eidx. change (inject_Z 0) with 0%Q in Hxm.
  assert (E0 : xh = 0%Qc) by (apply Qc_is_canon; apply Qle_antisym; assumption).
  subst xh. cbn [ScipyStats64.py_int bind].
  change (ScipyStats.py_int 0%Qc) with 0%Z.
  change (eqb (Float64.of_Z 0) (Fin 0)) with true. cbv iota.
  change (Numpy.slice [Fin z] 0 (0 + 1)) with [Fin z].
  now rewrite integer_rank_value.
Qed.

End PercentileBinary64.

Lemma mapM_fin {A : Type} (f : A -> result float64) (P : A -> Qc -> Prop) (l : list A) :
  (forall a, In a l -> exists v : Qc, f a = Ok (Fin v) /\ P a v) ->
  exists vs : list Qc, mapM f l = Ok (map Fin vs) /\ Forall2 P l vs.
Proof.
  induction l as [|a l IH]; intros H.
  - exists []. split; [reflexivity|constructor].
  - destruct (H a (or_introl eq_refl)) as (v & Ev & Pv).
    destruct IH as (vs & Evs & Pvs); [intros b Hb; apply H; now right|].
    exists (v :: vs). split; [|now constructor].
    cbn [mapM map]. rewrite Ev. cbn [bind]. rewrite Evs. reflexivity.
Qed.

Lemma representable_Z (m : Z) :
  (Z.abs m < 2 ^ 53)%Z -> Binary64.representable (Q2Qc (inject_Z m)).
Proof. intros H. exact (of_Z_exact m H). Qed.

(** The neighborhood's heights, sorted: what [scoreatpercentile] works
    on. *)
Lemma neighborhood_heights (pc : PointCloud) (hs : list Qc) (nb : list Z) :
  z_data pc = map Fin hs -> Forall (in_bounds (List.length hs)) nb -> nb <> [] ->
  exists s : list Qc,
    Permutation (map (Spec.at_index hs) nb) s /\ StronglySorted Qcle s
    /\ List.length s = List.length nb
    /\ (forall Q : Qc -> Prop, Forall Q hs -> Forall Q s)
    /\ forall p : Z,
         ScipyStats64.scoreatpercentile (map Fin (map (Spec.at_index hs) nb)) p
         = ScipyStats64._compute_qth_percentile (map Fin s) p.
Proof.
  intros Hz Hnb Hne.
  destruct (sort_fin (map (Spec.at_index hs) nb)) as (s & E & P & S).
  exists s. split; [exact P|]. split; [exact S|]. split; [|split].
  - rewrite <- (Permutation_length P). apply length_map.
  - intros Q HQ. eapply Permutation_Forall; [exact P|].
    apply Forall_forall. intros z Hin. apply in_map_iff in Hin.
    destruct Hin as (i & <- & Hi). rewrite Forall_forall in HQ. apply HQ.
    apply at_index_In. rewrite Forall_forall in Hnb. now apply Hnb.
  - intros p. unfold ScipyStats64.scoreatpercentile.
    destruct nb as [|i nb']; [congruence|]. cbn [map] in *. now rewrite E.
Qed.

(** C8.  For a non-empty neighborhood of valid indices into heights that
    are binary64 numbers of magnitude at most [M <= 2^480], with at most
    [2^30] points, [extract] as it runs on floats returns exactly 10
    values, in the order perc_10, ..., perc_100; the k-th is the
    [10 k]-th percentile, by linear interpolation between the closest
    ranks, of the ascending rearrangement [s] of the neighborhood
    points' heights, up to the rounding of the seven float operations:
    within [2^-51 (n + 32) M + 2^-550] of the exact value for [n]
    points.  For a neighborhood of size 1 all 10 values are exactly that
    point's z. *)
Theorem percentile_extract_interpolates :
  forall (pc : PointCloud) (hs : list Qc) (nb : list Z) (M : Q)
         (tpc : option PointCloud) (ti : option Z) (vol : option Volume),
    z_data pc = map Fin hs ->
    Forall (in_bounds (List.length hs)) nb ->
    nb <> [] ->
    (Z.of_nat (List.length nb) <= Spec.size_limit)%Z ->
    Forall Binary64.representable hs ->
    Forall (fun z : Qc => (Qabs z <= M)%Q) hs ->
    (M <= Binary64.pow2 480)%Q ->
    exists s vs : list Qc,
      Permutation (map (Spec.at_index hs) nb) s
      /\ StronglySorted Qcle s
      /\ Percentile64.extract pc nb tpc ti vol = Ok (map Fin vs)
      /\ List.length vs = 10%nat
      /\ (forall k : nat,
            (k < 10)%nat ->
            (Qabs (nth k vs 0%Qc - Spec.percentile s (10 * (Z.of_nat k + 1)))
             <= Binary64.pow2 (-51) * (inject_Z (Z.of_nat (List.length nb)) + 32) * M
                + Binary64.pow2 (-550))%Q)
      /\ (forall i : Z, nb = [i] -> vs = repeat (Spec.at_index hs i) 10).
Proof.
  intros pc hs nb M tpc ti vol Hz Hnb Hne Hlen Hrep HM HM480.
  destruct (neighborhood_heights pc hs nb Hz Hnb Hne) as (s & P & S & Hl & Hall & Hscore).
  assert (Hs : s <> []).
  { intros ->. destruct nb; [congruence|discriminate Hl]. }
  set (tol := (Binary64.pow2 (-51) * (inject_Z (Z.of_nat (List.length nb)) + 32) * M
               + Binary64.pow2 (-550))%Q).
  destruct (mapM_fin
              (ScipyStats64.scoreatpercentile (map Fin (map (Spec.at_index hs) nb)))
              (fun p v => (Qabs (v - Spec.percentile s p) <= tol)%Q
                          /\ forall z, s = [z] -> v = z)
              Percentile.percentiles) as (vs & Evs & Pvs).
  { intros p Hp. rewrite Hscore.
    assert (Hp' : (0 <= p <= 100)%Z) by (unfold Percentile.percentiles in Hp; cbn [In] in Hp; lia).
    destruct (compute_qth_percentile_b64 s p M Hs Hp') as (v & Ev & Hv);
      [rewrite Hl; exact Hlen | now apply Hall | now apply Hall | exact HM480 |].
    exists v. split; [exact Ev|]. split; [unfold tol; rewrite <- Hl; exact Hv|].
    intros z ->. cbn [map] in Ev. rewrite compute_qth_percentile_b64_one in Ev; [congruence|exact Hp'|].
    specialize (Hall _ Hrep). now inversion Hall. }
  exists s, vs. split; [exact P|]. split; [exact S|]. split.
  { unfold Percentile64.extract. rewrite Hz, (take_at hs nb Hnb). cbn [bind].
    rewrite <- map_map. exact Evs. }
  unfold Percentile.percentiles in Pvs.
  repeat match goal with
         | H : Forall2 _ (_ :: _) _ |- _ => inversion H; subst; clear H
         | H : Forall2 _ [] _ |- _ => inversion H; subst; clear H
         end.
  split; [reflexivity|]. split.
  - intros k Hk.
    do 10 (destruct k as [|k]; [cbn [nth Z.of_nat]; tauto|]). lia.
  - intros i ->. cbn [map] in P. apply Permutation_length_1_inv in P. subst s.
    cbn [repeat].
    repeat match goal with
           | H : _ /\ (forall z, [?a] = [z] -> ?v = z) |- _ =>
               let E := fresh "E" in
               destruct H as [_ E]; specialize (E a eq_refl); subst v
           end.
    reflexivity.
Qed.

Lemma percentile_extract_interpolates_witness :
  let hs := map (fun m => Q2Qc (inject_Z m)) [5; 1; 3; 2; 9]%Z in
  let nb := [0; 1; -3; 3]%Z in
  exists s vs : list Qc,
    Permutation (map (Spec.at_index hs) nb) s
    /\ StronglySorted Qcle s
    /\ Percentile64.extract (mkPointCloud [] [] (map Fin hs)) nb None None None
       = Ok (map Fin vs)
    /\ List.length vs = 10%nat
    /\ (forall k : nat,
          (k < 10)%nat ->
          (Qabs (nth k vs 0%Qc - Spec.percentile s (10 * (Z.of_nat k + 1)))
           <= Binary64.pow2 (-51) * (inject_Z (Z.of_nat (List.length nb)) + 32) * 9
              + Binary64.pow2 (-550))%Q)
    /\ (forall i : Z, nb = [i] -> vs = repeat (Spec.at_index hs i) 10).
Proof.
  apply (percentile_extract_interpolates
           (mkPointCloud [] [] (map Fin (map (fun m => Q2Qc (inject_Z m)) [5; 1; 3; 2; 9]%Z)))
           (map (fun m => Q2Qc (inject_Z m)) [5; 1; 3; 2; 9]%Z)
           [0; 1; -3; 3]%Z 9 None None None).
  - reflexivity.
  - repeat (apply Forall_cons || apply Forall_nil);
      unfold in_bounds; cbn [List.length map]; lia.
  - discriminate.
  - unfold Spec.size_limit. cbn [List.length]. lia.
  - cbn [map]. repeat (apply Forall_cons || apply Forall_nil);
      apply representable_Z; lia.
  - cbn [map]. repeat (apply Forall_cons || apply Forall_nil);
      apply Qle_bool_iff; reflexivity.
  - apply Qle_bool_iff. reflexivity.
Defined.


(** C9 as stated fails: on an empty neighborhood the call raises no
    ValueError. *)
Lemma percentile_empty_no_error :
  ~ (exists msg,
       Percentile.extract (mkPointCloud [of_Z 1] [of_Z 2] [of_Z 3]) []
         None None None = Raise (ValueError msg)).
Proof. intros [msg H]. vm_compute in H. discriminate H. Qed.

(** C9, amended.  On an empty neighborhood [extract] does not fail: every
    one of the 10 percentiles of the empty height array is nan. *)
Theorem percentile_empty_is_nan :
  forall (pc : PointCloud) (tpc : option PointCloud) (ti : option Z)
         (vol : option Volume),
    Percentile.extract pc [] tpc ti vol = Ok (repeat NaN 10).
Proof. intros. reflexivity. Qed.

(** ** Masked covariance *)

Import Spec EigenValueVectorize.

Lemma fold_add_fin (l : list Qc) (a : Qc) :
  fold_left add (map Fin l) (Fin a) = Fin (fold_left Qcplus l a).
Proof. revert a. induction l as [|x l IH]; intros a; [reflexivity|]. cbn [map fold_left add]. apply IH. Qed.

Lemma sum_fin (l : list Qc) : Numpy.sum (map Fin l) = Fin (qsum l).
Proof. apply fold_add_fin. Qed.

Lemma combine_app {A B : Type} (l1 l2 : list A) (m1 m2 : list B) :
  List.length l1 = List.length m1 ->
  combine (l1 ++ l2) (m1 ++ m2) = combine l1 m1 ++ combine l2 m2.
Proof.
  revert m1. induction l1 as [|a l1 IH]; intros [|b m1] H; cbn [List.length] in H; try discriminate.
  - reflexivity.
  - cbn [app combine]. f_equal. apply IH. lia.
Qed.

Lemma combine_repeat {A B : Type} (a : A) (b : B) (k : nat) :
  combine (repeat a k) (repeat b k) = repeat (a, b) k.
Proof. induction k; cbn [repeat combine]; congruence. Qed.

Lemma add_zero_r (x : float64) : (x + zero)%f64 = x.
Proof. destruct x; unfold zero; cbn [add]; try reflexivity. apply f_equal. ring. Qed.

Lemma mul_zero_zero : (zero * zero)%f64 = zero.
Proof. unfold zero. cbn [mul]. apply f_equal. ring. Qed.

Lemma sum_padded (l : list float64) (k : nat) :
  Numpy.sum (l ++ repeat zero k) = Numpy.sum l.
Proof.
  unfold Numpy.sum. rewrite fold_left_app. generalize (fold_left add l zero) as x.
  induction k as [|k IH]; intros x; [reflexivity|].
  cbn [repeat fold_left]. rewrite add_zero_r. apply IH.
Qed.

Lemma pad_values (N : nat) (vals : list float64) :
  map (fun e => if Ma.masked e then zero else Ma.value e) (Utils.pad N vals)
  = vals ++ repeat zero (N - List.length vals).
Proof.
  unfold Utils.pad. rewrite map_app, map_map, map_repeat. cbn [Ma.masked Ma.value].
  now rewrite map_id.
Qed.

Lemma filter_id_false {A : Type} (l : list A) :
  filter (fun b : bool => b) (map (fun _ => false) l) = [].
Proof. induction l; [reflexivity|]. cbn [map filter]. exact IHl. Qed.

Lemma filter_id_true (k : nat) :
  filter (fun b : bool => b) (repeat true k) = repeat true k.
Proof. induction k; cbn [repeat filter]; congruence. Qed.

Lemma pad_mask_sum (N : nat) (vals : list float64) :
  (List.length vals <= N)%nat ->
  (Ma.mask_sum (Utils.pad N vals) * -1 + Z.of_nat N)%Z = Z.of_nat (List.length vals).
Proof.
  intros H. unfold Ma.mask_sum, Numpy.count_true, Utils.pad.
  rewrite map_app, map_map, map_repeat. cbn [Ma.masked].
  rewrite filter_app, length_app, filter_id_false, filter_id_true, repeat_length.
  cbn [List.length]. lia.
Qed.

Lemma pad_all_masked (N : nat) (vals : list float64) :
  forallb Ma.masked (Utils.pad N vals) = match vals with [] => true | _ => false end.
Proof.
  unfold Utils.pad. destruct vals as [|x vals]; [|reflexivity].
  cbn [map app List.length]. induction (N - 0)%nat as [|k IH]; [reflexivity|].
  cbn [repeat forallb Ma.masked]. exact IH.
Qed.

Lemma pad_sum (N : nat) (vals : list float64) :
  Ma.sum (Utils.pad N vals)
  = Ma.mkEntry (Numpy.sum vals) (match vals with [] => true | _ => false end).
Proof. unfold Ma.sum. now rewrite pad_values, sum_padded, pad_all_masked. Qed.

Lemma coordinate_bound_pos : (0 < this coordinate_bound)%Q.
Proof. vm_compute. reflexivity. Qed.

Lemma abs_fold_bound (B : Q) (l : list Qc) :
  Forall (fun x => (Qabs (this x) < B)%Q) l -> l <> [] ->
  forall a : Qc,
    (Qabs (this (fold_left Qcplus l a))
     < Qabs (this a) + inject_Z (Z.of_nat (List.length l)) * B)%Q.
Proof.
  induction l as [|x l IH]; intros Hall Hne a; [congruence|].
  inversion Hall as [|? ? Hx Hl]; subst.
  cbn [fold_left].
  assert (Ht : (Qabs (this (a + x)%Qc) <= Qabs (this a) + Qabs (this x))%Q).
  { rewrite this_plus. apply Qabs_triangle. }
  assert (Hn : (inject_Z (Z.of_nat (List.length (x :: l)))
                == inject_Z (Z.of_nat (List.length l)) + 1)%Q).
  { cbn [List.length]. rewrite Nat2Z.inj_succ. unfold Z.succ.
    rewrite inject_Z_plus. reflexivity. }
  rewrite Hn. destruct l as [|y l].
  - cbn [fold_left List.length Z.of_nat]. change (inject_Z 0) with 0%Q.
    clear IH Hn Hall Hl Hne. revert Hx Ht.
    generalize (Qabs (this (a + x)%Qc)), (Qabs (this a)), (Qabs (this x)). intros; lra.
  - specialize (IH Hl ltac:(discriminate) (a + x)%Qc).
    revert IH Hx Ht. clear.
    generalize (inject_Z (Z.of_nat (List.length (y :: l)))),
      (Qabs (this (fold_left Qcplus (y :: l) (a + x)%Qc))),
      (Qabs (this (a + x)%Qc)), (Qabs (this a)), (Qabs (this x)).
    intros; lra.
Qed.

Lemma domain_ok (v : list Qc) :
  v <> [] -> in_range v ->
  Ma.domain_safe_divide (Fin (qsum v)) (of_Z (Z.of_nat (List.length v))) = false.
Proof.
  intros Hne Hr.
  unfold Ma.domain_safe_divide, geb, of_Z. cbn [abs mul leb]. unfold Qcleb.
  destruct (Qle_bool _ _) eqn:E; [exfalso|reflexivity].
  apply Qle_bool_iff in E.
  pose proof (abs_fold_bound (this coordinate_bound) v Hr Hne 0%Qc) as Hb.
  fold (qsum v) in Hb.
  set (n := Z.of_nat (List.length v)) in *.
  assert (Hn : (1 <= n)%Z) by (subst n; destruct v; [congruence|cbn [List.length]; lia]).
  assert (Hq : (1 <= inject_Z n)%Q).
  { change 1%Q with (inject_Z 1). rewrite <- Zle_Qle. exact Hn. }
  assert (Ht : (this (Qcabs (qsum v) * Ma.tiny)%Qc
                == Qabs (this (qsum v)) / this coordinate_bound)%Q).
  { unfold Ma.tiny. fold coordinate_bound.
    transitivity (this (Qcabs (qsum v)) * this (1 / coordinate_bound)%Qc)%Q.
    { cbn [this Qcmult Q2Qc]. apply Qred_correct. }
    assert (Hi : (this (1 / coordinate_bound)%Qc == / this coordinate_bound)%Q).
    { unfold Qcdiv, Qcmult, Qcinv. cbn [this Q2Qc]. rewrite !Qred_correct. ring. }
    rewrite Hi. reflexivity. }
  rewrite Ht, this_abs, this_inject in E.
  rewrite Qabs_pos in E by lra.
  change (Qabs (this 0%Qc)) with 0%Q in Hb.
  assert (Hd : (Qabs (this (qsum v)) / this coordinate_bound < inject_Z n)%Q).
  { apply Qlt_shift_div_r; [apply coordinate_bound_pos|]. lra. }
  lra.
Qed.



Lemma mean_fin (v : list Qc) :
  v <> [] ->
  mean (map Fin v)
  = Fin (qsum v / Q2Qc (inject_Z (Z.of_nat (List.length v))))%Qc.
Proof.
  intros Hne. unfold mean, of_nat, of_Z. rewrite sum_fin, length_map. cbn [div].
  rewrite Qc_eq_bool_neq; [reflexivity|].
  apply Q2Qc_inject_Z_nonzero. destruct v; [congruence|cbn [List.length]; lia].
Qed.

Lemma pad_mean (N : nat) (v : list Qc) :
  v <> [] -> in_range v -> (List.length v <= N)%nat ->
  Ma.true_divide
    (Ma.sum (Utils.pad N (map Fin v)))
    (of_Z (Ma.mask_sum (Utils.pad N (map Fin v)) * -1 + Z.of_nat N))
  = Ma.mkEntry (mean (map Fin v)) false.
Proof.
  intros Hne Hr Hn.
  rewrite pad_mask_sum by (now rewrite length_map).
  rewrite pad_sum, length_map, (mean_fin v Hne), sum_fin.
  destruct v as [|x v']; [congruence|]. cbn [map].
  set (v := x :: v') in *.
  unfold Ma.true_divide. cbn [Ma.value Ma.masked].
  rewrite (domain_ok v Hne Hr).
  unfold of_Z. cbn [div].
  rewrite Qc_eq_bool_neq
    by (apply Q2Qc_inject_Z_nonzero; subst v; cbn [List.length]; lia).
  cbn [isfinite negb orb zero one mul add]. f_equal. f_equal. ring.
Qed.

Lemma pad_subtract (N : nat) (vals : list float64) (mu : Ma.entry) :
  (vals <> [] -> Ma.masked mu = false) ->
  map (fun e => Ma.subtract e mu) (Utils.pad N vals)
  = Utils.pad N (map (fun x => (x - Ma.value mu)%f64) vals).
Proof.
  intros Hmu. unfold Utils.pad. rewrite map_app, !map_map, map_repeat, length_map.
  apply f_equal2; [|reflexivity].
  destruct vals as [|x vals]; [reflexivity|].
  apply map_ext. intros a. unfold Ma.subtract. cbn [Ma.value Ma.masked].
  rewrite Hmu by discriminate. reflexivity.
Qed.

Lemma pad_value_list (N : nat) (vals : list float64) :
  map Ma.value (Utils.pad N vals) = vals ++ repeat zero (N - List.length vals).
Proof.
  unfold Utils.pad. rewrite map_app, map_map, map_repeat. cbn [Ma.value].
  now rewrite map_id.
Qed.

Lemma einsum_values (r s : list Ma.entry) :
  EigenValueVectorize.einsum_k r s
  = Numpy.sum (map (fun p => (fst p * snd p)%f64)
                   (combine (map Ma.value r) (map Ma.value s))).
Proof.
  unfold EigenValueVectorize.einsum_k. f_equal.
  revert s. induction r as [|a r IH]; intros [|b s]; try reflexivity.
  cbn [combine map fst snd]. f_equal. apply IH.
Qed.

Lemma einsum_pad (N : nat) (u v : list float64) :
  List.length u = List.length v ->
  EigenValueVectorize.einsum_k (Utils.pad N u) (Utils.pad N v)
  = Numpy.sum (map (fun p => (fst p * snd p)%f64) (combine u v)).
Proof.
  intros H. rewrite einsum_values, !pad_value_list, <- H.
  rewrite combine_app by exact H.
  rewrite combine_repeat, map_app, map_repeat. cbn [fst snd].
  rewrite mul_zero_zero. apply sum_padded.
Qed.

Lemma mean_of_pad (N : nat) (v : list Qc) :
  v <> [] -> in_range v -> (List.length v <= N)%nat ->
  mean_of (Z.of_nat N) (Utils.pad N (map Fin v)) = Ma.mkEntry (mean (map Fin v)) false.
Proof. intros. unfold mean_of, n_of. now apply pad_mean. Qed.

Lemma m_of_pad (N : nat) (v : list Qc) :
  in_range v -> (List.length v <= N)%nat ->
  m_of (Z.of_nat N) (Utils.pad N (map Fin v)) = Utils.pad N (centered (map Fin v)).
Proof.
  intros Hr Hn. unfold m_of. destruct v as [|x v'].
  - rewrite pad_subtract; [reflexivity|]. intros H. now contradiction H.
  - rewrite mean_of_pad by (assumption || discriminate).
    rewrite pad_subtract by reflexivity. reflexivity.
Qed.

Lemma centered_length (vals : list float64) :
  List.length (centered vals) = List.length vals.
Proof. unfold centered. apply length_map. Qed.

Lemma cov_of_pad (N : nat) (q : triple (list Qc)) :
  List.length (t1 q) = List.length (t0 q) ->
  List.length (t2 q) = List.length (t0 q) ->
  (List.length (t0 q) <= N)%nat ->
  in_range (t0 q) -> in_range (t1 q) -> in_range (t2 q) ->
  cov_of (Z.of_nat N) (tmap (Utils.pad N) (tmap (map Fin) q))
  = covariance_matrix (tmap (map Fin) q).
Proof.
  intros H1 H2 Hn R0 R1 R2. destruct q as [u v w]. cbn [t0 t1 t2] in *.
  unfold cov_of, covariance_matrix, covariance, tmap, tmap2. cbn [t0 t1 t2].
  rewrite !m_of_pad by (assumption || lia).
  unfold n_of. rewrite !pad_mask_sum by (rewrite length_map; lia).
  rewrite !einsum_pad by (rewrite !centered_length, !length_map; lia).
  reflexivity.
Qed.

Lemma mapM_nth {A B : Type} (f : A -> result B) (l : list A) (r : list B) :
  mapM f l = Ok r ->
  forall i a, nth_error l i = Some a ->
  exists b, f a = Ok b /\ nth_error r i = Some b.
Proof.
  revert r. induction l as [|x l IH]; intros r H i a Hi.
  - destruct i; discriminate Hi.
  - cbn [mapM] in H. destruct (f x) as [b|e] eqn:Ex; [|discriminate H].
    cbn [bind] in H. destruct (mapM f l) as [bs|e] eqn:El; [|discriminate H].
    cbn [bind] in H. injection H as <-. destruct i as [|i].
    + injection Hi as <-. exists b. now split.
    + cbn [nth_error] in Hi |- *. now apply (IH bs eq_refl i a).
Qed.

Lemma mapM_length {A B : Type} (f : A -> result B) (l : list A) (r : list B) :
  mapM f l = Ok r -> List.length r = List.length l.
Proof.
  revert r. induction l as [|x l IH]; intros r H.
  - injection H as <-. reflexivity.
  - cbn [mapM] in H. destruct (f x) as [b|e]; [|discriminate H].
    cbn [bind] in H. destruct (mapM f l) as [bs|e]; [|discriminate H].
    cbn [bind] in H. injection H as <-. cbn [List.length]. f_equal. now apply IH.
Qed.

Lemma get_point_lengths (pc : PointCloud) (nb : list Z) (p : triple (list float64)) :
  Utils.get_point pc nb = Ok p ->
  List.length (t0 p) = List.length nb /\ List.length (t1 p) = List.length nb
  /\ List.length (t2 p) = List.length nb.
Proof.
  unfold Utils.get_point, Numpy.take. intros H.
  destruct (mapM _ nb) as [x|] eqn:Ex; [|discriminate H]. cbn [bind] in H.
  destruct (mapM _ nb) as [y|] eqn:Ey in H; [|discriminate H]. cbn [bind] in H.
  destruct (mapM _ nb) as [z|] eqn:Ez in H; [|discriminate H]. cbn [bind] in H.
  injection H as <-. cbn [t0 t1 t2].
  repeat split; eapply mapM_length; eassumption.
Qed.

Lemma max_length_ge (nbs : list (list Z)) (i : nat) (nb : list Z) :
  nth_error nbs i = Some nb ->
  (List.length nb <= fold_right Nat.max 0 (map (@List.length Z) nbs))%nat.
Proof.
  revert i. induction nbs as [|x nbs IH]; intros [|i] H; try discriminate H.
  - injection H as <-. cbn [map fold_right]. lia.
  - cbn [map fold_right nth_error] in *. specialize (IH i H). lia.
Qed.

Lemma get_xyz_nth (pc : PointCloud) (nbs : list (list Z)) (xyz : Ma.MaskedArray)
    (i : nat) (nb : list Z) :
  Utils.get_xyz pc nbs = Ok xyz ->
  nth_error nbs i = Some nb ->
  (List.length nb <= Ma.shape2 xyz)%nat /\
  exists p, Utils.get_point pc nb = Ok p
            /\ nth_error (Ma.rows xyz) i = Some (tmap (Utils.pad (Ma.shape2 xyz)) p).
Proof.
  unfold Utils.get_xyz. intros H Hi.
  destruct (mapM _ nbs) as [rows|] eqn:Er; [|discriminate H].
  cbn [bind] in H. injection H as <-. cbn [Ma.shape2 Ma.rows].
  split; [now apply (max_length_ge nbs i)|].
  destruct (mapM_nth _ _ _ Er i nb Hi) as (g & Hg & Hn).
  destruct (Utils.get_point pc nb) as [p|] eqn:Ep; [|discriminate Hg].
  cbn [bind] in Hg. injection Hg as <-. now exists p.
Qed.

Lemma get_cov_nth (pc : PointCloud) (nbs : list (list Z)) (xyz : Ma.MaskedArray)
    (i : nat) (nb : list Z) (q : triple (list Qc)) :
  Utils.get_xyz pc nbs = Ok xyz ->
  nth_error nbs i = Some nb ->
  Utils.get_point pc nb = Ok (tmap (map Fin) q) ->
  in_range (t0 q) -> in_range (t1 q) -> in_range (t2 q) ->
  nth_error (_get_cov xyz) i = Some (covariance_matrix (tmap (map Fin) q)).
Proof.
  intros Hxyz Hi Hp R0 R1 R2.
  destruct (get_xyz_nth pc nbs xyz i nb Hxyz Hi) as (Hle & p & Hp' & Hrow).
  rewrite Hp in Hp'. injection Hp' as <-.
  destruct (get_point_lengths pc nb _ Hp) as (L0 & L1 & L2).
  destruct q as [u v w]. cbn [tmap t0 t1 t2] in *. rewrite length_map in L0, L1, L2.
  unfold _get_cov. erewrite map_nth_error by exact Hrow. f_equal.
  apply (cov_of_pad (Ma.shape2 xyz) (Triple u v w)); cbn [t0 t1 t2];
    (assumption || lia).
Qed.

Lemma in_limit_in_range (vals : list Qc) : in_limit vals -> in_range vals.
Proof.
  unfold in_limit, in_range. apply Forall_impl. intros x Hx.
  eapply Qcle_lt_trans; [exact Hx|]. vm_compute. reflexivity.
Qed.



(** ** Normal and slope *)

Lemma extract_inv (geev : matrix -> triple float64 * matrix) pc nb tpc ti vol out :
  extract geev pc nb tpc ti vol = Ok out ->
  exists (nbs : list (list Z)) (xyz : Ma.MaskedArray),
    match nb with
    | Single [] | Batch [] => False
    | Single l => nbs = [l]
    | Batch l => nbs = l
    end /\
    Utils.get_xyz pc nbs = Ok xyz /\
    forallb Linalg.matrix_isfinite (_get_cov xyz) = true /\
    out = {| eigenv_1 := map (fun a => nth 0 (rev (Numpy.sort (to_list (fst (geev a))))) NaN)
                             (_get_cov xyz);
             eigenv_2 := map (fun a => nth 1 (rev (Numpy.sort (to_list (fst (geev a))))) NaN)
                             (_get_cov xyz);
             eigenv_3 := map (fun a => nth 2 (rev (Numpy.sort (to_list (fst (geev a))))) NaN)
                             (_get_cov xyz);
             normal_vector_1 := map (fun a => t0 (column (@t2 float64) (snd (geev a))))
                                    (_get_cov xyz);
             normal_vector_2 := map (fun a => t1 (column (@t2 float64) (snd (geev a))))
                                    (_get_cov xyz);
             normal_vector_3 := map (fun a => t2 (column (@t2 float64) (snd (geev a))))
                                    (_get_cov xyz);
             slope := map (fun a => dot3 (column (@t2 float64) (snd (geev a)))
                                         (Triple zero zero one)) (_get_cov xyz) |}.
Proof.
  intros H. unfold extract in H.
  destruct (match nb with Single [] | Batch [] => Raise IndexError
                     | Single (i :: l) => Ok [i :: l]
                     | Batch (n0 :: l) => Ok (n0 :: l) end) as [nbs|] eqn:Hnb;
    [|discriminate H].
  unfold bind at 1 in H.
  destruct (Utils.get_xyz pc nbs) as [xyz|] eqn:Hxyz; [|discriminate H].
  unfold bind at 1 in H. unfold Linalg.eig in H.
  destruct (forallb Linalg.matrix_isfinite (_get_cov xyz)) eqn:Hf; [|discriminate H].
  unfold bind in H. simpl fst in H. simpl snd in H. rewrite !map_map in H.
  exists nbs, xyz.
  split; [destruct nb as [[|k l]|[|n0 l]]; try discriminate Hnb; now injection Hnb|].
  split; [first [exact Hxyz | reflexivity]|].
  split; [first [exact Hf | reflexivity]|]. now injection H.
Qed.

Lemma dot3_vertical (a b c : float64) :
  isfinite a = true -> isfinite b = true ->
  dot3 (Triple a b c) (Triple zero zero one) = c.
Proof.
  intros Ha Hb. destruct a as [a| | |], b as [b| | |]; try discriminate.
  unfold dot3, zero, one. cbn [t0 t1 t2 mul add].
  destruct c as [c| | |]; try reflexivity.
  cbn [mul add]. apply f_equal. ring.
Qed.

(** C10.  With a solver whose eigenvectors are finite on finite input,
    whenever [extract] returns, its seventh array [slope] equals its sixth,
    [normal_vector_3]: the dot product of a normal with (0, 0, 1) is the
    normal's third component. *)
Theorem slope_is_normal_vector_3 :
  forall geev : matrix -> triple float64 * matrix,
    (forall a, Linalg.matrix_isfinite a = true ->
               Linalg.matrix_isfinite (snd (geev a)) = true) ->
    forall pc nb tpc ti vol out,
      extract geev pc nb tpc ti vol = Ok out ->
      slope out = normal_vector_3 out.
Proof.
  intros geev Hfin pc nb tpc ti vol out H.
  destruct (extract_inv geev pc nb tpc ti vol out H) as (nbs & xyz & _ & _ & Hf & ->).
  cbn [slope normal_vector_3]. apply map_ext_in. intros a Ha.
  rewrite forallb_forall in Hf. specialize (Hfin a (Hf a Ha)).
  destruct (snd (geev a)) as [[a00 a01 a02] [a10 a11 a12] [a20 a21 a22]].
  unfold Linalg.matrix_isfinite, tforall in Hfin. cbn [t0 t1 t2] in Hfin.
  unfold column, tmap. cbn [t0 t1 t2].
  rewrite !andb_true_iff in Hfin.
  apply dot3_vertical; tauto.
Qed.

Lemma slope_is_normal_vector_3_witness :
  let out :=
    {| eigenv_1 := [of_Z 27; of_Z 18]; eigenv_2 := [of_Z 12; zero];
       eigenv_3 := [of_Z 3; zero];
       normal_vector_1 := [zero; zero]; normal_vector_2 := [zero; zero];
       normal_vector_3 := [one; one]; slope := [one; one] |} in
  extract Linalg.geev_on_diagonal pc_axes
    (Batch [[0; 1; 2; 3; 4; 5; 6]; [0; 1]]%Z) None None None = Ok out
  /\ slope out = normal_vector_3 out.
Proof.
  intros out.
  assert (H : extract Linalg.geev_on_diagonal pc_axes
                (Batch [[0; 1; 2; 3; 4; 5; 6]; [0; 1]]%Z) None None None = Ok out)
    by f64_eval.
  split; [exact H|].
  apply (slope_is_normal_vector_3 Linalg.geev_on_diagonal
           (fun a _ => eq_refl) _ _ _ _ _ out H).
Defined.

(** ** Eigenvalue order *)

Lemma Forall2_map_same {A B : Type} (R : B -> B -> Prop) (f g : A -> B) (l : list A) :
  (forall a, In a l -> R (f a) (g a)) -> Forall2 R (map f l) (map g l).
Proof.
  induction l as [|a l IH]; intros H; cbn [map]; constructor.
  - apply H. now left.
  - apply IH. intros b Hb. apply H. now right.
Qed.

Lemma sort3_descending (w : triple float64) :
  tforall isfinite w = true ->
  exists x y z : Qc,
    rev (Numpy.sort (to_list w)) = [Fin z; Fin y; Fin x]
    /\ (x <= y)%Qc /\ (y <= z)%Qc.
Proof.
  destruct w as [[a| | |] [b| | |] [c| | |]]; try discriminate. intros _.
  destruct (sort_fin [a; b; c]) as (s & E & P & S).
  pose proof (Permutation_length P) as L.
  destruct s as [|x [|y [|z [|? ?]]]]; try discriminate L.
  exists x, y, z. unfold to_list. cbn [t0 t1 t2].
  change [Fin a; Fin b; Fin c] with (map Fin [a; b; c]). rewrite E.
  split; [reflexivity|].
  inversion S as [|? ? S' Hx]; subst. inversion S' as [|? ? _ Hy]; subst.
  inversion Hx; subst. inversion Hy; subst. now split.
Qed.

(** X17.  The three eigenvalues of every neighborhood are returned in
    descending order, for a solver with finite eigenvalues on finite
    input. *)
Lemma eigenvalues_are_sorted_descending :
  forall geev : matrix -> triple float64 * matrix,
    (forall a, Linalg.matrix_isfinite a = true ->
               tforall isfinite (fst (geev a)) = true) ->
    forall pc nb tpc ti vol out,
      extract geev pc nb tpc ti vol = Ok out ->
      Forall2 (fun hi lo => geb hi lo = true) (eigenv_1 out) (eigenv_2 out)
      /\ Forall2 (fun hi lo => geb hi lo = true) (eigenv_2 out) (eigenv_3 out).
Proof.
  intros geev Hfin pc nb tpc ti vol out H.
  destruct (extract_inv geev pc nb tpc ti vol out H) as (nbs & xyz & _ & _ & Hf & ->).
  rewrite forallb_forall in Hf. unfold eigenv_1, eigenv_2, eigenv_3.
  split; apply Forall2_map_same; intros a Ha; cbv beta;
    destruct (sort3_descending (fst (geev a)) (Hfin a (Hf a Ha)))
      as (x & y & z & E & Hxy & Hyz);
    rewrite E; unfold nth, geb, leb; now apply Qcleb_le.
Qed.

(** C1, evaluated where it fails.  On the seven points of [pc_axes] the
    covariance is diag(3, 12, 27); a solver that is exact on diagonal
    matrices returns the eigenvalues in the order 3, 12, 27 with the
    identity as eigenvectors.  [extract] sorts the eigenvalues to
    27, 12, 3 but takes column 2 of the unsorted eigenvectors as normal:
    (0, 0, 1), the eigenvector of the largest eigenvalue 27 and not one of
    the smallest eigenvalue 3. *)
Theorem normal_is_not_the_smallest_eigenvector :
  forall geev : matrix -> triple float64 * matrix,
    Linalg.exact_on_diagonal geev ->
    let cov := diag (of_Z 3) (of_Z 12) (of_Z 27) in
    let nv := Triple zero zero one in
    (xyz <- Utils.get_xyz pc_axes [[0; 1; 2; 3; 4; 5; 6]%Z] ;; Ok (_get_cov xyz))
    = Ok [cov] /\
    extract geev pc_axes (Batch [[0; 1; 2; 3; 4; 5; 6]%Z]) None None None
    = Ok {| eigenv_1 := [of_Z 27]; eigenv_2 := [of_Z 12]; eigenv_3 := [of_Z 3];
            normal_vector_1 := [t0 nv]; normal_vector_2 := [t1 nv];
            normal_vector_3 := [t2 nv]; slope := [one] |} /\
    eigenpair cov (of_Z 27) nv /\
    ~ eigenpair cov (of_Z 3) nv.
Proof.
  intros geev Hd cov nv.
  assert (Hcov : (xyz <- Utils.get_xyz pc_axes [[0; 1; 2; 3; 4; 5; 6]%Z] ;;
                  Ok (_get_cov xyz)) = Ok [cov]) by f64_eval.
  split; [exact Hcov|]. split; [|split].
  - unfold extract. cbn [bind].
    destruct (Utils.get_xyz pc_axes [[0; 1; 2; 3; 4; 5; 6]%Z]) as [xyz|];
      [|discriminate Hcov].
    cbn [bind] in Hcov |- *. injection Hcov as ->.
    unfold Linalg.eig.
    replace (forallb Linalg.matrix_isfinite [cov]) with true by reflexivity.
    cbn [bind map fst snd]. unfold cov. rewrite (Hd _ _ _).
    f64_eval.
  - unfold eigenpair. f64_eval.
  - unfold eigenpair. intros H. vm_compute in H. discriminate H.
Qed.

Lemma normal_is_not_the_smallest_eigenvector_witness :
  let cov := diag (of_Z 3) (of_Z 12) (of_Z 27) in
  let nv := Triple zero zero one in
  (xyz <- Utils.get_xyz pc_axes [[0; 1; 2; 3; 4; 5; 6]%Z] ;; Ok (_get_cov xyz))
  = Ok [cov] /\
  extract Linalg.geev_on_diagonal pc_axes (Batch [[0; 1; 2; 3; 4; 5; 6]%Z])
    None None None
  = Ok {| eigenv_1 := [of_Z 27]; eigenv_2 := [of_Z 12]; eigenv_3 := [of_Z 3];
          normal_vector_1 := [t0 nv]; normal_vector_2 := [t1 nv];
          normal_vector_3 := [t2 nv]; slope := [one] |} /\
  eigenpair cov (of_Z 27) nv /\
  ~ eigenpair cov (of_Z 3) nv.
Proof.
  apply (normal_is_not_the_smallest_eigenvector Linalg.geev_on_diagonal).
  intros a b c. reflexivity.
Defined.

(** ** Serial reference *)






Lemma centered_fin (u : list Qc) :
  u <> [] -> exists cu : list Qc, centered (map Fin u) = map Fin cu.
Proof.
  intros Hu. unfold centered. rewrite (mean_fin u Hu).
  exists (map (fun x => (x + - (qsum u / Q2Qc (inject_Z (Z.of_nat (List.length u)))))%Qc) u).
  rewrite !map_map. reflexivity.
Qed.

Lemma products_fin (a b : list Qc) :
  map (fun p : float64 * float64 => (fst p * snd p)%f64) (combine (map Fin a) (map Fin b))
  = map Fin (map (fun p : Qc * Qc => (fst p * snd p)%Qc) (combine a b)).
Proof.
  revert b. induction a as [|x a IH]; intros [|y b]; try reflexivity.
  cbn [map combine fst snd mul]. f_equal. apply IH.
Qed.



(** C2, evaluated where it fails.  On the two points of [pc_pair] the
    vectorized extractor returns the eigenvalues 2, 0, 0 of the covariance
    diag(2, 0, 0), while the serial computation, which needs more than 3
    points, returns 0, 0, 0. *)
Theorem vectorized_differs_from_serial_on_few_points :
  forall geev : matrix -> triple float64 * matrix,
    Linalg.exact_on_diagonal geev ->
    extract geev pc_pair (Batch [[0; 1]%Z]) None None None
    = Ok {| eigenv_1 := [of_Z 2]; eigenv_2 := [zero]; eigenv_3 := [zero];
            normal_vector_1 := [zero]; normal_vector_2 := [zero];
            normal_vector_3 := [one]; slope := [one] |} /\
    EigenValueSerial.extract geev pc_pair [0; 1]%Z = Ok [zero; zero; zero] /\
    of_Z 2 <> zero.
Proof.
  intros geev Hd. split; [|split].
  - assert (Hcov : (xyz <- Utils.get_xyz pc_pair [[0; 1]%Z] ;; Ok (_get_cov xyz))
                   = Ok [diag (of_Z 2) zero zero]) by f64_eval.
    unfold extract. cbn [bind].
    destruct (Utils.get_xyz pc_pair [[0; 1]%Z]) as [xyz|]; [|discriminate Hcov].
    cbn [bind] in Hcov |- *. injection Hcov as ->.
    unfold Linalg.eig.
    replace (forallb Linalg.matrix_isfinite [diag (of_Z 2) zero zero]) with true
      by reflexivity.
    cbn [bind map fst snd]. rewrite (Hd _ _ _). f64_eval.
  - reflexivity.
  - intros H. vm_compute in H. discriminate H.
Qed.

Lemma vectorized_differs_from_serial_on_few_points_witness :
  extract Linalg.geev_on_diagonal pc_pair (Batch [[0; 1]%Z]) None None None
  = Ok {| eigenv_1 := [of_Z 2]; eigenv_2 := [zero]; eigenv_3 := [zero];
          normal_vector_1 := [zero]; normal_vector_2 := [zero];
          normal_vector_3 := [one]; slope := [one] |} /\
  EigenValueSerial.extract Linalg.geev_on_diagonal pc_pair [0; 1]%Z
  = Ok [zero; zero; zero] /\
  of_Z 2 <> zero.
Proof.
  apply (vectorized_differs_from_serial_on_few_points Linalg.geev_on_diagonal).
  intros a b c. reflexivity.
Defined.

(** C3, evaluated where it fails.  On the single point of the repository's
    test the covariance is 0 / 0 = nan and [np.linalg.eig] rejects it: the
    call raises LinAlgError.  One such neighborhood makes a whole batch
    raise.  On an empty neighborhood the eigenvalues are 0 but the normal
    is the unit vector (0, 0, 1) and the slope is 1. *)
Theorem too_few_points_do_not_give_zeros :
  forall geev : matrix -> triple float64 * matrix,
    Linalg.exact_on_diagonal geev ->
    extract geev pc_single (Batch [[0]%Z]) None None None = Raise LinAlgError /\
    extract geev pc_axes (Batch [[0; 1; 2; 3; 4; 5; 6]; [0]]%Z) None None None
    = Raise LinAlgError /\
    extract geev pc_single (Batch [[]]) None None None
    = Ok {| eigenv_1 := [zero]; eigenv_2 := [zero]; eigenv_3 := [zero];
            normal_vector_1 := [zero]; normal_vector_2 := [zero];
            normal_vector_3 := [one]; slope := [one] |}.
Proof.
  intros geev Hd. split; [|split].
  - reflexivity.
  - vm_compute. reflexivity.
  - assert (Hcov : (xyz <- Utils.get_xyz pc_single [[]] ;; Ok (_get_cov xyz))
                   = Ok [diag zero zero zero]) by f64_eval.
    unfold extract. cbn [bind].
    destruct (Utils.get_xyz pc_single [[]]) as [xyz|]; [|discriminate Hcov].
    cbn [bind] in Hcov |- *. injection Hcov as ->.
    unfold Linalg.eig.
    replace (forallb Linalg.matrix_isfinite [diag zero zero zero]) with true
      by reflexivity.
    cbn [bind map fst snd]. rewrite (Hd _ _ _). f64_eval.
Qed.

Lemma too_few_points_do_not_give_zeros_witness :
  extract Linalg.geev_on_diagonal pc_single (Batch [[0]%Z]) None None None
  = Raise LinAlgError /\
  extract Linalg.geev_on_diagonal pc_axes
    (Batch [[0; 1; 2; 3; 4; 5; 6]; [0]]%Z) None None None
  = Raise LinAlgError /\
  extract Linalg.geev_on_diagonal pc_single (Batch [[]]) None None None
  = Ok {| eigenv_1 := [zero]; eigenv_2 := [zero]; eigenv_3 := [zero];
          normal_vector_1 := [zero]; normal_vector_2 := [zero];
          normal_vector_3 := [one]; slope := [one] |}.
Proof.
  apply (too_few_points_do_not_give_zeros Linalg.geev_on_diagonal).
  intros a b c. reflexivity.
Defined.

(* ================================================================== *)
(** * Part III: further properties of the extractors                    *)
(* ================================================================== *)

(** ** Percentiles: errors and shape *)

Lemma compute_qth_percentile_ok (sorted_ : list float64) (p : Z) :
  (0 <= p <= 100)%Z -> exists v, ScipyStats._compute_qth_percentile sorted_ p = Ok v.
Proof.
  intros Hp. unfold ScipyStats._compute_qth_percentile.
  replace ((0 <=? p)%Z && (p <=? 100)%Z) with true
    by (symmetry; apply andb_true_iff; split; lia).
  cbn [negb]. destruct (Qc_eq_bool _ _); eexists; reflexivity.
Qed.

Lemma scoreatpercentile_ok (a : list float64) (p : Z) :
  In p Percentile.percentiles -> exists v, ScipyStats.scoreatpercentile a p = Ok v.
Proof.
  intros Hp. unfold ScipyStats.scoreatpercentile. destruct a as [|x a].
  - now exists NaN.
  - apply compute_qth_percentile_ok.
    unfold Percentile.percentiles in Hp. cbn [In] in Hp. lia.
Qed.

Lemma mapM_all_ok {A B : Type} (f : A -> result B) (l : list A) :
  (forall a, In a l -> exists b, f a = Ok b) ->
  exists r, mapM f l = Ok r /\ List.length r = List.length l.
Proof.
  induction l as [|a l IH]; intros H; [now exists []|].
  destruct (H a (or_introl eq_refl)) as (b & Eb).
  destruct IH as (r & Er & L); [intros c Hc; apply H; now right|].
  exists (b :: r). cbn [mapM]. rewrite Eb. cbn [bind]. rewrite Er. cbn [bind List.length].
  split; [reflexivity|now rewrite L].
Qed.

(** X7.  [extract] reads the heights at the neighborhood's indices and
    nothing else can fail: when every index is within the z array it
    returns exactly 10 values (one per name of [provides]), whatever the
    heights are; when some index is outside it raises IndexError. *)
Theorem percentile_extract_shape_and_errors :
  forall (pc : PointCloud) (nb : list Z) (tpc : option PointCloud)
         (ti : option Z) (vol : option Volume),
    (Forall (in_bounds (List.length (z_data pc))) nb ->
     exists l, Percentile.extract pc nb tpc ti vol = Ok l
               /\ List.length l = List.length Percentile.provides)
    /\ (~ Forall (in_bounds (List.length (z_data pc))) nb ->
        Percentile.extract pc nb tpc ti vol = Raise IndexError).
Proof.
  intros pc nb tpc ti vol. unfold Percentile.extract. split; intros H.
  - destruct (take_in_bounds (z_data pc) nb H) as (z & -> & _). cbn [bind].
    destruct (mapM_all_ok (ScipyStats.scoreatpercentile z) Percentile.percentiles)
      as (l & El & L); [intros p Hp; now apply scoreatpercentile_ok|].
    exists l. split; [exact El|]. rewrite L. reflexivity.
  - now rewrite (take_out_of_bounds (z_data pc) nb H).
Qed.
(** ** Echo ratio: indexing and errors *)

Lemma extract_index_error (pc tpc : PointCloud) (nb : list Z) (ti : Z) (r : float64) :
  ~ (Forall (in_bounds_pc pc) nb /\ in_bounds_pc tpc ti) ->
  EchoRatio.extract pc nb (Some tpc) (Some ti) (InfiniteCylinder r) = Raise IndexError.
Proof.
  intros H. unfold EchoRatio.extract. cbn [TYPE InfiniteCylinder].
  rewrite String.eqb_refl. cbn [negb].
  destruct (Forall_dec _ (in_bounds_pc_dec pc) nb) as [Hnb|Hnb];
    [|now rewrite (positions_out_of_bounds pc nb Hnb)].
  destruct (positions_in_bounds pc nb Hnb) as (xyz & -> & _). cbn [bind].
  destruct (in_bounds_pc_dec tpc ti) as [Hti|Hti]; [tauto|].
  now rewrite (target_out_of_bounds tpc ti Hti).
Qed.

Lemma extract_valid (pc tpc : PointCloud) (nb : list Z) (ti : Z) (r : float64) :
  Forall (in_bounds_pc pc) nb -> in_bounds_pc tpc ti ->
  exists (xyz : list (float64 * float64 * float64)) (xyz0 : float64 * float64 * float64),
    List.length xyz = List.length nb /\
    EchoRatio.extract pc nb (Some tpc) (Some ti) (InfiniteCylinder r)
    = (r2 <- EchoRatio.py_square r ;;
       Ok (Spec.percent_b64
             (List.length
                (filter (fun row => (EchoRatio.squared_distance row xyz0 <=? r2)%f64) xyz))
             (List.length xyz))).
Proof.
  intros Hnb Hti.
  destruct (positions_in_bounds pc nb Hnb) as (xyz & E & L).
  destruct (target_in_bounds tpc ti Hti) as (xyz0 & E0).
  exists xyz, xyz0. split; [exact L|]. now apply extract_read.
Qed.

(** X1.  With a cylinder volume and a target given, [extract] fails only
    on indexing and on the square of the radius.  It raises IndexError
    exactly when a neighborhood index is not valid for the source cloud or
    the target index is not valid for the target cloud.  With valid
    indices it returns a value or raises OverflowError: a value for an
    infinite or nan radius and for a float radius of magnitude at most
    [2^511], OverflowError for one of magnitude [2^512] or more. *)
Theorem echo_ratio_index_errors :
  forall (pc tpc : PointCloud) (nb : list Z) (ti : Z) (r : float64),
    let res := EchoRatio.extract pc nb (Some tpc) (Some ti) (InfiniteCylinder r) in
    (~ (Forall (in_bounds_pc pc) nb /\ in_bounds_pc tpc ti) -> res = Raise IndexError)
    /\ (Forall (in_bounds_pc pc) nb /\ in_bounds_pc tpc ti ->
        ((exists v, res = Ok v) \/ res = Raise OverflowError)
        /\ (isfinite r = false -> exists v, res = Ok v)
        /\ (forall q : Qc, r = Fin q -> (Qabs q <= Binary64.pow2 511)%Q ->
            exists v, res = Ok v)
        /\ (forall q : Qc, r = Fin q -> (Binary64.pow2 512 <= Qabs q)%Q ->
            res = Raise OverflowError)).
Proof.
  intros pc tpc nb ti r res. split; [apply extract_index_error|].
  intros (Hnb & Hti).
  destruct (extract_valid pc tpc nb ti r Hnb Hti) as (xyz & xyz0 & _ & E).
  unfold res. rewrite E. split; [|split; [|split]].
  - destruct (py_square_outcomes r) as [(v & ->) | ->];
      [left; eexists|right]; reflexivity.
  - intros Hr. destruct (py_square_not_finite r Hr) as (v & ->). eexists. reflexivity.
  - intros q -> Hq. destruct (py_square_small q Hq) as (v & ->). eexists. reflexivity.
  - intros q -> Hq. now rewrite (py_square_large q Hq).
Qed.

(** ** Echo ratio: round trip with the test's cloud builder *)

Lemma index_nat {A : Type} (d : list A) (a : nat) (v : A) :
  nth_error d a = Some v -> Numpy.index d (Z.of_nat a) = Ok v.
Proof.
  intros H. unfold Numpy.index.
  assert (Ha : (a < List.length d)%nat) by (apply nth_error_Some; congruence).
  replace (Z.of_nat a <? 0)%Z with false by (symmetry; apply Z.ltb_ge; lia).
  replace ((0 <=? Z.of_nat a)%Z && (Z.of_nat a <? Z.of_nat (List.length d))%Z)
    with true
    by (symmetry; apply andb_true_iff; split; [apply Z.leb_le|apply Z.ltb_lt]; lia).
  now rewrite Nat2Z.id, H.
Qed.

Lemma skipn_cons_nth {A : Type} (d : list A) (a : nat) (v : A) :
  nth_error d a = Some v -> skipn a d = v :: skipn (S a) d.
Proof.
  revert d. induction a as [|a IH]; intros [|x d] H; try discriminate H.
  - now injection H as ->.
  - cbn [nth_error] in H. cbn [skipn]. now apply IH.
Qed.

Lemma take_seq {A : Type} (d : list A) (k a : nat) :
  (a + k <= List.length d)%nat ->
  Numpy.take d (map Z.of_nat (seq a k)) = Ok (firstn k (skipn a d)).
Proof.
  unfold Numpy.take. revert a. induction k as [|k IH]; intros a H; [reflexivity|].
  cbn [seq map mapM].
  destruct (nth_error d a) as [v|] eqn:E;
    [|apply nth_error_None in E; lia].
  rewrite (index_nat d a v E). cbn [bind]. rewrite IH by lia. cbn [bind].
  now rewrite (skipn_cons_nth d a v E).
Qed.

Lemma take_all {A : Type} (d : list A) :
  Numpy.take d (map Z.of_nat (seq 0 (List.length d))) = Ok d.
Proof. rewrite take_seq by lia. cbn [skipn]. now rewrite firstn_all. Qed.

Lemma column_stack_columns (xyz : list (float64 * float64 * float64)) :
  Numpy.column_stack (map (fun r => fst (fst r)) xyz)
                     (map (fun r => snd (fst r)) xyz)
                     (map (fun r => snd r) xyz) = xyz.
Proof.
  induction xyz as [|[[x y] z] xyz IH]; [reflexivity|].
  cbn [map Numpy.column_stack fst snd]. now rewrite IH.
Qed.

(** X6.  Round trip: the cloud built by the test helper [_get_pc] from the
    rows [xyz] gives those rows back, in order, when
    [get_neighborhood_positions] is asked for the indices 0 .. n-1, where
    n is the count [_get_pc] returns. *)
Theorem get_pc_positions_round_trip :
  forall xyz : list (float64 * float64 * float64),
    let pc := fst (TestEchoRatio._get_pc xyz) in
    let n := snd (TestEchoRatio._get_pc xyz) in
    EchoRatio.get_neighborhood_positions pc (map Z.of_nat (seq 0 n)) = Ok xyz.
Proof.
  intros xyz pc n. subst pc n. unfold TestEchoRatio._get_pc. cbn [fst snd].
  unfold EchoRatio.get_neighborhood_positions. cbn [x_data y_data z_data].
  rewrite <- (length_map (fun r : float64 * float64 * float64 => fst (fst r)) xyz) at 1.
  rewrite take_all. cbn [bind].
  rewrite <- (length_map (fun r : float64 * float64 * float64 => snd (fst r)) xyz) at 1.
  rewrite take_all. cbn [bind].
  rewrite <- (length_map (fun r : float64 * float64 * float64 => snd r) xyz) at 1.
  rewrite take_all. cbn [bind].
  now rewrite column_stack_columns.
Qed.
(** ** Echo ratio: range of the result *)

(** X2.  For a non-empty neighborhood of valid indices and a radius whose
    square does not overflow (an infinite or nan radius, or a float of
    magnitude at most [2^511]) the echo ratio is a percentage: a finite
    number between 0 and 100, whatever the coordinates are. *)
Theorem echo_ratio_is_a_percentage :
  forall (pc tpc : PointCloud) (nb : list Z) (ti : Z) (r : float64),
    Forall (in_bounds_pc pc) nb -> in_bounds_pc tpc ti ->
    nb <> [] -> (Z.of_nat (List.length nb) < 2 ^ 53)%Z ->
    (isfinite r = false
     \/ exists q : Qc, r = Fin q /\ (Qabs q <= Binary64.pow2 511)%Q) ->
    exists v : Qc,
      EchoRatio.extract pc nb (Some tpc) (Some ti) (InfiniteCylinder r) = Ok (Fin v)
      /\ (0 <= v)%Q /\ (v <= 100)%Q.
Proof.
  intros pc tpc nb ti r Hnb Hti Hne Hc Hr.
  destruct (extract_valid pc tpc nb ti r Hnb Hti) as (xyz & xyz0 & L & E).
  rewrite E.
  assert (Hsq : exists r2, EchoRatio.py_square r = Ok r2).
  { destruct Hr as [Hr|(q & -> & Hq)].
    - now apply py_square_not_finite.
    - destruct (py_square_small q Hq) as (v & ->). now eexists. }
  destruct Hsq as (r2 & ->). cbn [bind].
  destruct (percent_b64_spec
              (List.length
                 (filter (fun row => (EchoRatio.squared_distance row xyz0 <=? r2)%f64) xyz))
              (List.length xyz)) as (v & Ev & H0 & H100 & _).
  - apply filter_length_le.
  - rewrite L. destruct nb; [congruence|cbn; lia].
  - now rewrite L.
  - exists v. rewrite Ev. auto.
Qed.

Section PercentExtremes.

Import Binary64.

Lemma pow2_45_small (c : Z) :
  (0 < c < 2 ^ 51)%Z -> (pow2 (-45) < 100 / inject_Z c)%Q.
Proof.
  intros Hc.
  assert (HC : (0 < inject_Z c)%Q) by (change 0%Q with (inject_Z 0); rewrite <- Zlt_Qlt; lia).
  apply Qlt_shift_div_l; [exact HC|].
  assert (Hb : (inject_Z c < inject_Z (2 ^ 51))%Q) by (rewrite <- Zlt_Qlt; lia).
  assert (E : (pow2 (-45) * inject_Z (2 ^ 51) == 64)%Q) by reflexivity.
  pose proof (pow2_pos (-45)).
  set (a := pow2 (-45)) in *. set (x := inject_Z c) in *. set (y := inject_Z (2 ^ 51)) in *.
  nra.
Qed.

(** The binary64 percentage is exactly 100 only when all items count and
    exactly 0 only when none does. *)
Lemma percent_b64_extremes (s c : nat) :
  (s <= c)%nat -> (0 < c)%nat -> (Z.of_nat c < 2 ^ 51)%Z ->
  (Spec.percent_b64 s c = Fin (Q2Qc 100) <-> s = c)
  /\ (Spec.percent_b64 s c = Fin 0%Qc <-> s = 0%nat).
Proof.
  intros Hsc Hc Hb.
  assert (Hb53 : (Z.of_nat c < 2 ^ 53)%Z) by lia.
  destruct (percent_b64_spec s c Hsc Hc Hb53) as (v & Ev & _ & _ & Hd).
  pose proof (pow2_45_small (Z.of_nat c) ltac:(lia)) as Hsmall.
  set (S := inject_Z (Z.of_nat s)) in *. set (C := inject_Z (Z.of_nat c)) in *.
  assert (HC : (0 < C)%Q) by (unfold C; change 0%Q with (inject_Z 0); rewrite <- Zlt_Qlt; lia).
  apply Qabs_Qle_condition in Hd.
  assert (Hdiv : forall a : Q, (a / C * C == a)%Q) by (intros a; field; lra).
  split; split.
  - intros E. rewrite Ev in E. injection E as ->.
    destruct (Nat.eq_dec s c) as [e|n]; [exact e|exfalso].
    assert (HS : (S + 1 <= C)%Q).
    { unfold S, C. change 1%Q with (inject_Z 1). rewrite <- inject_Z_plus, <- Zle_Qle. lia. }
    assert (H1 : (100 * (S / C) <= 100 - 100 / C)%Q).
    { setoid_replace (100 - 100 / C)%Q with (100 * ((C - 1) / C))%Q by (field; lra).
      assert ((S / C) <= (C - 1) / C)%Q; [|lra].
      apply Qle_shift_div_l; [exact HC|]. rewrite Hdiv. lra. }
    change (this (Q2Qc 100)) with 100%Q in Hd.
    set (a := pow2 (-45)) in *. set (x := (S / C)%Q) in *. set (y := (100 / C)%Q) in *.
    lra.
  - intros ->. unfold Spec.percent_b64. rewrite !of_Z_exact by lia.
    unfold Float64.of_Z, div, Float64.div.
    rewrite (Qc_eq_bool_neq _ 0%Qc) by (apply Q2Qc_inject_Z_nonzero; lia).
    assert (E1 : (Q2Qc (inject_Z (Z.of_nat c)) / Q2Qc (inject_Z (Z.of_nat c)))%Qc = 1%Qc).
    { field. apply Q2Qc_inject_Z_nonzero. lia. }
    rewrite E1. f64_eval.
  - intros E. rewrite Ev in E. injection E as ->.
    destruct (Nat.eq_dec s 0) as [e|n]; [exact e|exfalso].
    assert (HS : (1 <= S)%Q).
    { unfold S. change 1%Q with (inject_Z 1). rewrite <- Zle_Qle. lia. }
    assert (H1 : (100 / C <= 100 * (S / C))%Q).
    { setoid_replace (100 * (S / C))%Q with (100 / C * S)%Q by (field; lra).
      assert (0 < 100 / C)%Q by (apply Qlt_shift_div_l; lra).
      set (y := (100 / C)%Q) in *. nra. }
    change (this 0%Qc) with 0%Q in Hd.
    set (a := pow2 (-45)) in *. set (x := (S / C)%Q) in *. set (y := (100 / C)%Q) in *.
    lra.
  - intros ->. unfold Spec.percent_b64. rewrite !of_Z_exact by lia.
    unfold Float64.of_Z, div, Float64.div.
    rewrite (Qc_eq_bool_neq _ 0%Qc) by (apply Q2Qc_inject_Z_nonzero; lia).
    assert (E1 : (Q2Qc (inject_Z (Z.of_nat 0)) / Q2Qc (inject_Z (Z.of_nat c)))%Qc = 0%Qc).
    { change (Q2Qc (inject_Z (Z.of_nat 0))) with 0%Qc. field.
      apply Q2Qc_inject_Z_nonzero. lia. }
    rewrite E1. f64_eval.
Qed.

End PercentExtremes.

Lemma filter_length_all {A : Type} (f : A -> bool) (l : list A) :
  List.length (filter f l) = List.length l <-> Forall (fun a => f a = true) l.
Proof.
  induction l as [|a l IH]; [split; [constructor|reflexivity]|].
  cbn [filter]. pose proof (filter_length_le f l) as Hle.
  destruct (f a) eqn:E; cbn [List.length]; split.
  - intros H. constructor; [exact E|]. apply IH. lia.
  - intros H. inversion H; subst. f_equal. now apply IH.
  - intros H. lia.
  - intros H. inversion H; subst. congruence.
Qed.

Lemma filter_length_none {A : Type} (f : A -> bool) (l : list A) :
  List.length (filter f l) = 0%nat <-> Forall (fun a => f a = false) l.
Proof.
  induction l as [|a l IH]; [split; [constructor|reflexivity]|].
  cbn [filter]. destruct (f a) eqn:E; cbn [List.length]; split.
  - discriminate.
  - intros H. inversion H; subst. congruence.
  - intros H. constructor; [exact E|]. now apply IH.
  - intros H. inversion H; subst. now apply IH.
Qed.

(** X3.  For a non-empty neighborhood of valid indices whose coordinates,
    like the target's and the radius, lie on a binary grid, the echo ratio
    is exactly 100 if and only if every neighborhood point lies in the
    closed sphere, and exactly 0 if and only if none does. *)
Theorem echo_ratio_extremes :
  forall (k : nat) (xs ys zs txs tys tzs : list Qc) (nb : list Z) (ti : Z) (r : Qc),
    let pc := mkPointCloud (map Fin xs) (map Fin ys) (map Fin zs) in
    let tpc := mkPointCloud (map Fin txs) (map Fin tys) (map Fin tzs) in
    let pts := map (Spec.point_at xs ys zs) nb in
    let t := Spec.point_at txs tys tzs ti in
    let res := EchoRatio.extract pc nb (Some tpc) (Some ti) (InfiniteCylinder (Fin r)) in
    (k <= 500)%nat ->
    Forall (Spec.on_grid k (2 ^ 24)) (xs ++ ys ++ zs) ->
    Forall (Spec.on_grid k (2 ^ 24)) (txs ++ tys ++ tzs) ->
    Spec.on_grid k (2 ^ 26) r ->
    Forall (in_bounds_pc pc) nb -> in_bounds_pc tpc ti ->
    nb <> [] -> (Z.of_nat (List.length nb) < 2 ^ 51)%Z ->
    (res = Ok (Fin (Q2Qc 100))
     <-> Forall (fun p => (Spec.sq_euclid p t <= r * r)%Qc) pts)
    /\ (res = Ok (Fin 0%Qc)
        <-> Forall (fun p => ~ (Spec.sq_euclid p t <= r * r)%Qc) pts).
Proof.
  intros k xs ys zs txs tys tzs nb ti r pc tpc pts t res Hk Gp Gt Gr Hnb Hti Hne Hc.
  pose proof (echo_ratio_value k xs ys zs txs tys tzs nb ti r Hk Gp Gt Gr Hnb Hti) as E.
  fold pc tpc pts t res in E. rewrite E.
  assert (Lp : List.length pts = List.length nb) by (unfold pts; apply length_map).
  set (s := List.length (filter (Spec.in_sphere r t) pts)).
  assert (Hsc : (s <= List.length nb)%nat) by (unfold s; rewrite <- Lp; apply filter_length_le).
  assert (Hc0 : (0 < List.length nb)%nat) by (destruct nb; [congruence|cbn; lia]).
  destruct (percent_b64_extremes s (List.length nb) Hsc Hc0 Hc) as (H100 & H0).
  split.
  - split.
    + intros [= Hv]. apply H100 in Hv. unfold s in Hv. rewrite <- Lp in Hv.
      apply filter_length_all in Hv. eapply Forall_impl; [|exact Hv].
      intros p Hp. now apply Qcleb_le.
    + intros Hall. f_equal. apply H100. unfold s. rewrite <- Lp.
      apply filter_length_all. eapply Forall_impl; [|exact Hall].
      intros p Hp. now apply Qcleb_le.
  - split.
    + intros [= Hv]. apply H0 in Hv. apply filter_length_none in Hv.
      eapply Forall_impl; [|exact Hv].
      intros p Hp Hle. apply Qcleb_le in Hle. unfold Spec.in_sphere in Hp. congruence.
    + intros Hnone. f_equal. apply H0. apply filter_length_none.
      eapply Forall_impl; [|exact Hnone].
      intros p Hp. unfold Spec.in_sphere.
      destruct (Qcleb (Spec.sq_euclid p t) (r * r)) eqn:Eb; [|reflexivity].
      apply Qcleb_le in Eb. contradiction.
Qed.

(** X22.  Off the binary grid the rounded distance test can differ from
    the exact one.  Take the target at the origin, the radius 1/2 and the
    single neighbor (0.3, 0.4, 0), its coordinates being the binary64
    numbers nearest to 3/10 and 4/10: its exact squared distance exceeds
    1/4, but the rounded squares add up to exactly 0.25, so [extract]
    counts the point and returns 100. *)
Theorem echo_ratio_boundary_rounding :
  let x := Q2Qc (5404319552844595 # 18014398509481984) in
  let y := Q2Qc (3602879701896397 # 9007199254740992) in
  let r := Q2Qc (1 # 2) in
  Binary64.round (Q2Qc (3 # 10)) = Fin x
  /\ Binary64.round (Q2Qc (4 # 10)) = Fin y
  /\ Spec.in_sphere r (0%Qc, 0%Qc, 0%Qc) (x, y, 0%Qc) = false
  /\ EchoRatio.extract (mkPointCloud [Fin x] [Fin y] [Fin 0%Qc]) [0%Z]
       (Some (mkPointCloud [Fin 0%Qc] [Fin 0%Qc] [Fin 0%Qc])) (Some 0%Z)
       (InfiniteCylinder (Fin r))
     = Ok (Fin (Q2Qc 100)).
Proof.
  cbv zeta. repeat split; f64_eval.
Qed.

(** ** Echo ratio: order of the neighborhood *)

Lemma targets_out_of_bounds (pc : PointCloud) (nb : list Z) :
  ~ Forall (in_bounds_pc pc) nb ->
  mapM (EchoRatio.get_target_position pc) nb = Raise IndexError.
Proof.
  induction nb as [|i nb IH]; intros H.
  - exfalso. apply H. constructor.
  - cbn [mapM]. destruct (in_bounds_pc_dec pc i) as [Hi|Hi].
    + destruct (target_in_bounds pc i Hi) as (p & ->). cbn [bind].
      rewrite IH; [reflexivity|]. intros Hl. apply H. now constructor.
    + now rewrite (target_out_of_bounds pc i Hi).
Qed.

Lemma positions_are_targets_of_each_index_aux (pc : PointCloud) (nb : list Z) :
  EchoRatio.get_neighborhood_positions pc nb
  = mapM (EchoRatio.get_target_position pc) nb.
Proof.
  destruct (Forall_dec _ (in_bounds_pc_dec pc) nb) as [H|H].
  - induction H as [|i nb Hi Hnb IH]; [reflexivity|].
    unfold EchoRatio.get_neighborhood_positions, Numpy.take in *.
    cbn [mapM]. unfold EchoRatio.get_target_position at 1.
    destruct Hi as (Hx & Hy & Hz).
    destruct (index_in_bounds _ _ Hx) as (x & ->).
    destruct (index_in_bounds _ _ Hy) as (y & ->).
    destruct (index_in_bounds _ _ Hz) as (z & ->).
    cbn [bind]. rewrite <- IH. clear IH.
    apply Forall_in_bounds_pc in Hnb. destruct Hnb as (Fx & Fy & Fz).
    destruct (take_in_bounds _ _ Fx) as (xs & Ex & _).
    destruct (take_in_bounds _ _ Fy) as (ys & Ey & _).
    destruct (take_in_bounds _ _ Fz) as (zs & Ez & _).
    unfold Numpy.take in Ex, Ey, Ez. rewrite Ex, Ey, Ez. reflexivity.
  - now rewrite positions_out_of_bounds, targets_out_of_bounds.
Qed.

(** X5.  [get_neighborhood_positions] is [get_target_position] applied to
    each index of the neighborhood in turn: the same rows on success, the
    same IndexError on failure. *)
Theorem positions_are_targets_of_each_index :
  forall (pc : PointCloud) (nb : list Z),
    EchoRatio.get_neighborhood_positions pc nb
    = mapM (EchoRatio.get_target_position pc) nb.
Proof. exact positions_are_targets_of_each_index_aux. Qed.

Lemma mapM_permutation {A B : Type} (f : A -> result B) (l l' : list A) :
  Permutation l l' ->
  forall r, mapM f l = Ok r ->
  exists r', mapM f l' = Ok r' /\ Permutation r r'.
Proof.
  induction 1 as [|a l l' P IH|a b l|l l' l'' P1 IH1 P2 IH2]; intros r H.
  - exists r. split; [exact H|apply Permutation_refl].
  - cbn [mapM] in *. destruct (f a) as [y|]; [|discriminate H]. cbn [bind] in *.
    destruct (mapM f l) as [ys|]; [|discriminate H]. cbn [bind] in H.
    injection H as <-. destruct (IH ys eq_refl) as (ys' & -> & P').
    exists (y :: ys'). split; [reflexivity|now constructor].
  - cbn [mapM] in *.
    destruct (f b) as [y|]; [|discriminate H]. cbn [bind] in *.
    destruct (f a) as [x|]; [|discriminate H]. cbn [bind] in *.
    destruct (mapM f l) as [ys|]; [|discriminate H]. cbn [bind] in *.
    injection H as <-. exists (x :: y :: ys). split; [reflexivity|apply perm_swap].
  - destruct (IH1 r H) as (r' & H' & P'). destruct (IH2 r' H') as (r'' & H'' & P'').
    exists r''. split; [exact H''|eapply Permutation_trans; eassumption].
Qed.

Lemma count_true_permutation {A : Type} (g : A -> bool) (l l' : list A) :
  Permutation l l' ->
  Numpy.count_true (map g l) = Numpy.count_true (map g l').
Proof.
  unfold Numpy.count_true. intros P. f_equal.
  induction P as [|a l l' P IH|a b l|l l' l'' P1 IH1 P2 IH2].
  - reflexivity.
  - cbn [map filter]. destruct (g a); cbn [List.length]; now rewrite IH.
  - cbn [map filter]. destruct (g a), (g b); reflexivity.
  - now rewrite IH1.
Qed.

(** X4.  The echo ratio does not depend on the order in which the
    neighborhood lists its indices: any rearrangement gives the same
    result, a raised error included. *)
Theorem echo_ratio_permutation_invariant :
  forall (pc : PointCloud) (nb nb' : list Z) (tpc : option PointCloud)
         (ti : option Z) (vol : Volume),
    Permutation nb nb' ->
    EchoRatio.extract pc nb tpc ti vol = EchoRatio.extract pc nb' tpc ti vol.
Proof.
  intros pc nb nb' tpc ti vol P. unfold EchoRatio.extract.
  destruct (negb _); [reflexivity|].
  destruct tpc as [tpc|]; [|reflexivity]. destruct ti as [ti|]; [|reflexivity].
  destruct (Forall_dec _ (in_bounds_pc_dec pc) nb) as [H|H].
  - destruct (positions_in_bounds pc nb H) as (xyz & E & _).
    pose proof E as E'. rewrite positions_are_targets_of_each_index_aux in E'.
    destruct (mapM_permutation _ nb nb' P xyz E') as (xyz' & E'' & P').
    rewrite <- positions_are_targets_of_each_index_aux in E''.
    rewrite E, E''. cbn [bind].
    destruct (EchoRatio.get_target_position tpc ti) as [xyz0|]; [|reflexivity].
    cbn [bind].
    destruct (EchoRatio.py_square (radius vol)) as [r2|]; [|reflexivity].
    cbn [bind]. rewrite (Permutation_length P').
    now rewrite (count_true_permutation _ xyz xyz' P').
  - rewrite (positions_out_of_bounds pc nb H).
    rewrite (positions_out_of_bounds pc nb'); [reflexivity|].
    intros H'. apply H. eapply Permutation_Forall; [apply Permutation_sym; exact P|exact H'].
Qed.
(** ** Sorting *)

Lemma sort_leb_total (x y : float64) : sort_leb x y = true \/ sort_leb y x = true.
Proof.
  destruct x as [a| | |], y as [b| | |]; cbn [sort_leb leb]; auto.
  destruct (Qclt_le_dec a b) as [L|L].
  - left. apply Qcleb_le. now apply Qclt_le_weak.
  - right. now apply Qcleb_le.
Qed.

Lemma sort_leb_trans (x y z : float64) :
  sort_leb x y = true -> sort_leb y z = true -> sort_leb x z = true.
Proof.
  destruct x as [a| | |], y as [b| | |], z as [c| | |]; cbn [sort_leb leb];
    try (intros; reflexivity); try discriminate.
  rewrite !Qcleb_le. apply Qcle_trans.
Qed.

Lemma sort_leb_antisym (x y : float64) :
  sort_leb x y = true -> sort_leb y x = true -> x = y.
Proof.
  destruct x as [a| | |], y as [b| | |]; cbn [sort_leb leb];
    try (intros; reflexivity); try discriminate.
  rewrite !Qcleb_le. intros H1 H2. f_equal. now apply Qcle_antisym.
Qed.

Lemma insert_permutation (x : float64) (l : list float64) :
  Permutation (Numpy.insert x l) (x :: l).
Proof.
  induction l as [|y l IH]; [apply Permutation_refl|].
  cbn [Numpy.insert]. destruct (sort_leb x y); [apply Permutation_refl|].
  rewrite perm_swap. now apply perm_skip.
Qed.

Lemma sort_permutation (l : list float64) : Permutation (Numpy.sort l) l.
Proof.
  induction l as [|x l IH]; [apply Permutation_refl|].
  unfold Numpy.sort in *. cbn [fold_right].
  rewrite insert_permutation. now apply perm_skip.
Qed.

Lemma insert_sorted (x : float64) (l : list float64) :
  StronglySorted (fun a b => sort_leb a b = true) l ->
  StronglySorted (fun a b => sort_leb a b = true) (Numpy.insert x l).
Proof.
  induction 1 as [|y l S IH Hy]; [repeat constructor|].
  cbn [Numpy.insert]. destruct (sort_leb x y) eqn:E.
  - constructor; [now constructor|]. constructor; [exact E|].
    eapply Forall_impl; [|exact Hy]. intros z. now apply sort_leb_trans.
  - constructor; [exact IH|].
    eapply Permutation_Forall; [apply Permutation_sym, insert_permutation|].
    constructor; [|exact Hy].
    destruct (sort_leb_total x y) as [H|H]; [congruence|exact H].
Qed.

Lemma sort_sorted (l : list float64) :
  StronglySorted (fun a b => sort_leb a b = true) (Numpy.sort l).
Proof.
  induction l as [|x l IH]; [constructor|].
  unfold Numpy.sort in *. cbn [fold_right]. now apply insert_sorted.
Qed.

Lemma sorted_permutation_unique (l l' : list float64) :
  StronglySorted (fun a b => sort_leb a b = true) l ->
  StronglySorted (fun a b => sort_leb a b = true) l' ->
  Permutation l l' -> l = l'.
Proof.
  intros S. revert l'. induction S as [|a l S IH Ha]; intros l' S' P.
  - now apply Permutation_nil in P.
  - destruct S' as [|b l' S' Hb]; [now apply Permutation_sym, Permutation_nil in P|].
    assert (E : a = b).
    { assert (Ia : In a (b :: l')) by (eapply Permutation_in; [exact P|now left]).
      assert (Ib : In b (a :: l))
        by (eapply Permutation_in; [apply Permutation_sym; exact P|now left]).
      destruct Ia as [->|Ia]; [reflexivity|]. destruct Ib as [->|Ib]; [reflexivity|].
      rewrite Forall_forall in Ha, Hb. apply sort_leb_antisym; auto. }
    subst b. f_equal. apply IH; [exact S'|]. now apply Permutation_cons_inv in P.
Qed.

Lemma sort_permutation_invariant (l l' : list float64) :
  Permutation l l' -> Numpy.sort l = Numpy.sort l'.
Proof.
  intros P. apply sorted_permutation_unique; try apply sort_sorted.
  rewrite sort_permutation, P. apply Permutation_sym, sort_permutation.
Qed.

(** ** Percentiles: order of the neighborhood *)

Lemma scoreatpercentile_permutation (a a' : list float64) (p : Z) :
  Permutation a a' ->
  ScipyStats.scoreatpercentile a p = ScipyStats.scoreatpercentile a' p.
Proof.
  intros P. unfold ScipyStats.scoreatpercentile.
  rewrite (sort_permutation_invariant a a' P).
  destruct a as [|x a], a' as [|x' a']; try reflexivity.
  - now apply Permutation_nil in P.
  - now apply Permutation_sym, Permutation_nil in P.
Qed.

Lemma mapM_ext {A B : Type} (f g : A -> result B) (l : list A) :
  (forall a, f a = g a) -> mapM f l = mapM g l.
Proof.
  intros H. induction l as [|a l IH]; [reflexivity|].
  cbn [mapM]. now rewrite H, IH.
Qed.

(** X8.  The percentiles do not depend on the order in which the
    neighborhood lists its indices: any rearrangement gives the same
    result, a raised error included. *)
Theorem percentile_permutation_invariant :
  forall (pc : PointCloud) (nb nb' : list Z) (tpc : option PointCloud)
         (ti : option Z) (vol : option Volume),
    Permutation nb nb' ->
    Percentile.extract pc nb tpc ti vol = Percentile.extract pc nb' tpc ti vol.
Proof.
  intros pc nb nb' tpc ti vol P. unfold Percentile.extract.
  destruct (Forall_in_bounds_dec (List.length (z_data pc)) nb) as [H|H].
  - destruct (take_in_bounds (z_data pc) nb H) as (z & E & _).
    destruct (mapM_permutation _ nb nb' P z E) as (z' & E' & Pz).
    unfold Numpy.take in *. rewrite E, E'. cbn [bind].
    apply mapM_ext. intros p. now apply scoreatpercentile_permutation.
  - rewrite (take_out_of_bounds _ _ H).
    rewrite (take_out_of_bounds (z_data pc) nb'); [reflexivity|].
    intros H'. apply H.
    eapply Permutation_Forall; [apply Permutation_sym; exact P|exact H'].
Qed.
(** ** Percentiles: range and monotonicity *)

Lemma interp_bounds (l u f : Qc) :
  (l <= u)%Qc -> (0 <= f)%Qc -> (f <= 1)%Qc ->
  (l <= l + f * (u - l))%Qc /\ (l + f * (u - l) <= u)%Qc.
Proof.
  unfold Qcle. rewrite this_plus, this_mult, this_minus.
  change (this 0%Qc) with 0%Q. change (this 1%Qc) with 1%Q.
  generalize (this l), (this u), (this f). intros a b c Hab Hc0 Hc1. split; nra.
Qed.

Lemma interp_monotone (l u f f' : Qc) :
  (l <= u)%Qc -> (f <= f')%Qc ->
  (l + f * (u - l) <= l + f' * (u - l))%Qc.
Proof.
  unfold Qcle. rewrite !this_plus, !this_mult, !this_minus.
  generalize (this l), (this u), (this f), (this f'). intros a b c d Hab Hcd. nra.
Qed.

Lemma frac_bounds (h : Qc) :
  (0 <= h - Q2Qc (inject_Z (Qfloor h)))%Qc
  /\ (h - Q2Qc (inject_Z (Qfloor h)) <= 1)%Qc.
Proof.
  unfold Qcle. rewrite this_minus, this_inject.
  change (this 0%Qc) with 0%Q. change (this 1%Qc) with 1%Q.
  pose proof (Qfloor_le (this h)) as H1. pose proof (Qlt_floor (this h)) as H2.
  rewrite inject_Z_plus in H2. change (inject_Z 1) with 1%Q in H2. split; lra.
Qed.

Lemma nth_sorted (s : list Qc) (i j : nat) (d d' : Qc) :
  StronglySorted Qcle s -> (i <= j < List.length s)%nat ->
  (nth i s d <= nth j s d')%Qc.
Proof.
  intros S. revert i j. induction S as [|a s S IH Ha]; intros i j H.
  - cbn [List.length] in H. lia.
  - cbn [List.length] in H. destruct i as [|i], j as [|j]; cbn [nth]; try lia.
    + apply Qcle_refl.
    + rewrite Forall_forall in Ha. apply Ha. apply nth_In. lia.
    + apply IH. lia.
Qed.

Lemma rank_floor_bounds (p : Z) (n : nat) :
  (0 <= p <= 100)%Z -> (1 <= n)%nat ->
  (0 <= Qfloor (rank_position p n) <= Z.of_nat n - 1)%Z.
Proof.
  intros Hp Hn. unfold rank_position. rewrite floor_idx. split.
  - apply Z.div_pos; nia.
  - apply Z.div_le_upper_bound; nia.
Qed.

Lemma rank_monotone (p p' : Z) (n : nat) :
  (0 <= p <= p')%Z -> (1 <= n)%nat ->
  (rank_position p n <= rank_position p' n)%Qc.
Proof.
  intros Hp Hn. unfold rank_position, Qcle. rewrite !idx_quot.
  change (inject_Z 100) with (inject_Z (Zpos 100)). rewrite <- !Qmake_Qdiv.
  unfold Qle. cbn [Qnum Qden]. nia.
Qed.

(** The two ranks an interpolation uses hold values in ascending order,
    inside the sample. *)
Lemma percentile_ranks (s : list Qc) (lo : Z) :
  StronglySorted Qcle s -> (0 <= lo <= Z.of_nat (List.length s) - 1)%Z ->
  let lower := nth (Z.to_nat lo) s 0%Qc in
  let upper := nth (Z.to_nat (lo + 1)) s lower in
  (nth 0 s 0 <= lower)%Qc /\ (lower <= upper)%Qc
  /\ (upper <= nth (List.length s - 1) s 0)%Qc.
Proof.
  intros S Hlo lower upper. subst lower upper. split; [|split].
  - apply nth_sorted; [exact S|lia].
  - destruct (Z.eq_dec lo (Z.of_nat (List.length s) - 1)) as [E|E].
    + rewrite (nth_overflow s (n := Z.to_nat (lo + 1))) by lia. apply Qcle_refl.
    + apply nth_sorted; [exact S|lia].
  - destruct (Z.eq_dec lo (Z.of_nat (List.length s) - 1)) as [E|E].
    + rewrite (nth_overflow s (n := Z.to_nat (lo + 1))) by lia.
      apply nth_sorted; [exact S|lia].
    + apply nth_sorted; [exact S|lia].
Qed.

Lemma percentile_between (s : list Qc) (p : Z) :
  StronglySorted Qcle s -> s <> [] -> (0 <= p <= 100)%Z ->
  (nth 0 s 0 <= percentile s p)%Qc
  /\ (percentile s p <= nth (List.length s - 1) s 0)%Qc.
Proof.
  intros S Hs Hp.
  assert (Hn : (1 <= List.length s)%nat) by (destruct s; [congruence|cbn; lia]).
  pose proof (rank_floor_bounds p (List.length s) Hp Hn) as Hlo.
  destruct (percentile_ranks s _ S Hlo) as (H0 & Hlu & Hu).
  destruct (frac_bounds (rank_position p (List.length s))) as (F0 & F1).
  unfold percentile. cbv zeta.
  destruct (interp_bounds _ _ _ Hlu F0 F1) as (B0 & B1).
  split; eapply Qcle_trans; eassumption.
Qed.

Lemma percentile_100 (s : list Qc) :
  s <> [] -> percentile s 100 = nth (List.length s - 1) s 0%Qc.
Proof.
  intros Hs.
  assert (Hn : (1 <= List.length s)%nat) by (destruct s; [congruence|cbn; lia]).
  unfold percentile, rank_position. cbv zeta.
  set (m := (Z.of_nat (List.length s) - 1)%Z).
  assert (Hh : (Q2Qc (inject_Z 100) / Q2Qc 100 * Q2Qc (inject_Z m))%Qc
               = Q2Qc (inject_Z m)).
  { change (Q2Qc (inject_Z 100)) with (Q2Qc 100). field. discriminate. }
  rewrite Hh. cbn [this Q2Qc]. rewrite Qred_correct, Qfloor_Z.
  replace (Z.to_nat m) with (List.length s - 1)%nat by lia.
  ring.
Qed.

Lemma percentile_monotone (s : list Qc) (p p' : Z) :
  StronglySorted Qcle s -> s <> [] -> (0 <= p <= p')%Z -> (p' <= 100)%Z ->
  (percentile s p <= percentile s p')%Qc.
Proof.
  intros S Hs Hp Hp'.
  assert (Hn : (1 <= List.length s)%nat) by (destruct s; [congruence|cbn; lia]).
  pose proof (rank_floor_bounds p (List.length s) ltac:(lia) Hn) as Hlo.
  pose proof (rank_floor_bounds p' (List.length s) ltac:(lia) Hn) as Hlo'.
  pose proof (rank_monotone p p' (List.length s) Hp Hn) as Hh.
  destruct (percentile_ranks s _ S Hlo) as (_ & Hlu & _).
  destruct (percentile_ranks s _ S Hlo') as (_ & Hlu' & _).
  destruct (frac_bounds (rank_position p (List.length s))) as (F0 & F1).
  destruct (frac_bounds (rank_position p' (List.length s))) as (F0' & F1').
  unfold percentile. cbv zeta.
  set (h := rank_position p (List.length s)) in *.
  set (h' := rank_position p' (List.length s)) in *.
  assert (Hfl : (Qfloor h <= Qfloor h')%Z) by (apply Qfloor_resp_le; exact Hh).
  destruct (Z.eq_dec (Qfloor h) (Qfloor h')) as [E|E].
  - rewrite <- E in *. apply interp_monotone; [exact Hlu|].
    unfold Qcle in *. rewrite !this_minus. lra.
  - destruct (interp_bounds _ _ _ Hlu F0 F1) as (_ & B1).
    destruct (interp_bounds _ _ _ Hlu' F0' F1') as (B0' & _).
    eapply Qcle_trans; [exact B1|]. eapply Qcle_trans; [|exact B0'].
    apply nth_sorted; [exact S|lia].
Qed.


Section PercentileLargest.

Import Binary64.

Lemma mapM_exists {A B : Type} (f : A -> result B) (l : list A) :
  (forall a, In a l -> exists r, f a = Ok r) ->
  exists vs : list B, mapM f l = Ok vs /\ Forall2 (fun a r => f a = Ok r) l vs.
Proof.
  induction l as [|a l IH]; intros H.
  - exists []. split; [reflexivity|constructor].
  - destruct (H a (or_introl eq_refl)) as (v & Ev).
    destruct IH as (vs & Evs & Pvs); [intros b Hb; apply H; now right|].
    exists (v :: vs). split; [|now constructor].
    cbn [mapM]. rewrite Ev. cbn [bind]. rewrite Evs. reflexivity.
Qed.

(** On floats every percentile of a non-empty sample of finite heights
    is computed without an error being raised. *)
Lemma compute_qth_percentile_b64_ok (s : list Qc) (p : Z) :
  s <> [] -> (0 <= p <= 100)%Z -> (Z.of_nat (List.length s) <= 2 ^ 30)%Z ->
  exists r : float64, ScipyStats64._compute_qth_percentile (map Fin s) p = Ok r.
Proof.
  intros Hs Hp Hlen. unfold ScipyStats64._compute_qth_percentile.
  replace ((0 <=? p)%Z && (p <=? 100)%Z) with true by (symmetry; apply andb_true_iff; split; lia).
  cbn [negb]. rewrite length_map.
  assert (Hn : (1 <= List.length s)%nat) by (destruct s; [congruence|cbn; lia]).
  destruct (rank_error p (Z.of_nat (List.length s) - 1) Hp ltac:(lia)) as (xh & -> & _).
  cbn [ScipyStats64.py_int bind].
  destruct (eqb _ _); eexists; reflexivity.
Qed.

(** The 100th percentile is the last of the sorted heights, exactly. *)
Lemma compute_qth_percentile_b64_100 (s : list Qc) :
  s <> [] -> (Z.of_nat (List.length s) <= 2 ^ 30)%Z -> Forall representable s ->
  ScipyStats64._compute_qth_percentile (map Fin s) 100
  = Ok (Fin (nth (List.length s - 1) s 0%Qc)).
Proof.
  intros Hs Hlen Hrep. unfold ScipyStats64._compute_qth_percentile.
  cbn [Z.leb Z.compare Pos.compare Pos.compare_cont andb negb].
  change ((0 <=? 100)%Z && (100 <=? 100)%Z) with true. cbn [negb]. rewrite length_map.
  assert (Hn : (1 <= List.length s)%nat) by (destruct s; [congruence|cbn; lia]).
  set (m := (Z.of_nat (List.length s) - 1)%Z).
  assert (Hm : (0 <= m < 2 ^ 30)%Z) by (subst m; lia).
  assert (E1 : div (of_Z 100) (Fin (Q2Qc 100)) = Fin 1).
  { rewrite of_Z_exact by (cbn; lia). unfold div, Float64.div, Float64.of_Z, rounded.
    rewrite (Qc_eq_bool_neq (Q2Qc 100) 0%Qc) by discriminate.
    replace (Q2Qc (inject_Z 100) / Q2Qc 100)%Qc with (Q2Qc (inject_Z 1))
      by (apply Qc_is_canon; reflexivity).
    rewrite (representable_Z 1) by (cbn; lia). reflexivity. }
  rewrite E1. rewrite of_Z_exact by lia.
  assert (E2 : mul (Fin 1) (Float64.of_Z m) = Float64.of_Z m).
  { unfold mul, Float64.mul, Float64.of_Z, rounded.
    replace (1 * Q2Qc (inject_Z m))%Qc with (Q2Qc (inject_Z m)) by ring.
    apply representable_Z. lia. }
  rewrite E2. unfold Float64.of_Z at 1. cbn [ScipyStats64.py_int bind].
  assert (Ei : ScipyStats.py_int (Q2Qc (inject_Z m)) = m).
  { unfold ScipyStats.py_int.
    assert (H0 : Qle_bool 0 (Q2Qc (inject_Z m)) = true).
    { apply Qle_bool_iff. rewrite this_inject. change 0%Q with (inject_Z 0).
      rewrite <- Zle_Qle. lia. }
    rewrite H0. rewrite this_inject. apply Qfloor_Z. }
  rewrite Ei.
  replace (eqb (Float64.of_Z m) (Float64.of_Z m)) with true
    by (symmetry; apply eqb_fin; reflexivity).
  assert (Hlt : (Z.to_nat m < List.length (map Fin s))%nat) by (rewrite length_map; lia).
  unfold Numpy.slice. replace (Z.to_nat (m + 1 - m)) with 1%nat by lia.
  rewrite (firstn1_skipn (Z.to_nat m) (map Fin s) (Fin 0) Hlt).
  change (Fin 0) with ((fun z => Fin z) 0%Qc). rewrite map_nth.
  replace (Z.to_nat m) with (List.length s - 1)%nat by lia.
  rewrite integer_rank_value; [reflexivity|].
  rewrite Forall_forall in Hrep. apply Hrep. apply nth_In. lia.
Qed.

End PercentileLargest.

(** X10.  For a non-empty neighborhood of at most [2^30] valid indices
    into heights that are binary64 numbers, the last value [extract]
    returns on floats (perc_100) is exactly the largest height of the
    neighborhood's points. *)
Theorem perc_100_is_the_largest_height :
  forall (pc : PointCloud) (zs : list Qc) (nb : list Z)
         (tpc : option PointCloud) (ti : option Z) (vol : option Volume),
    z_data pc = map Fin zs ->
    Forall (in_bounds (List.length zs)) nb -> nb <> [] ->
    (Z.of_nat (List.length nb) <= Spec.size_limit)%Z ->
    Forall Binary64.representable zs ->
    exists (vs : list float64) (zmax : Qc),
      Percentile64.extract pc nb tpc ti vol = Ok vs
      /\ List.length vs = 10%nat
      /\ nth 9 vs NaN = Fin zmax
      /\ In zmax (map (Spec.at_index zs) nb)
      /\ Forall (fun z => (z <= zmax)%Qc) (map (Spec.at_index zs) nb).
Proof.
  intros pc zs nb tpc ti vol Hz Hnb Hne Hlen Hrep.
  destruct (neighborhood_heights pc zs nb Hz Hnb Hne) as (s & P & S & Hl & Hall & Hscore).
  assert (Hs : s <> []).
  { intros ->. destruct nb; [congruence|discriminate Hl]. }
  assert (Hn : (1 <= List.length s)%nat) by (destruct s; [congruence|cbn; lia]).
  destruct (mapM_exists
              (ScipyStats64.scoreatpercentile (map Fin (map (Spec.at_index zs) nb)))
              Percentile.percentiles) as (vs & Evs & Pvs).
  { intros p Hp. rewrite Hscore. apply compute_qth_percentile_b64_ok;
      [exact Hs | unfold Percentile.percentiles in Hp; cbn [In] in Hp; lia
       | rewrite Hl; exact Hlen]. }
  exists vs, (nth (List.length s - 1) s 0%Qc). split.
  { unfold Percentile64.extract. rewrite Hz, (take_at zs nb Hnb). cbn [bind].
    rewrite <- map_map. exact Evs. }
  unfold Percentile.percentiles in Pvs.
  repeat match goal with
         | H : Forall2 _ (_ :: _) _ |- _ => inversion H; subst; clear H
         | H : Forall2 _ [] _ |- _ => inversion H; subst; clear H
         end.
  split; [reflexivity|]. split; [|split].
  - cbn [nth].
    match goal with
    | H : ScipyStats64.scoreatpercentile _ 100 = Ok ?y |- ?y = _ =>
        rewrite Hscore, compute_qth_percentile_b64_100 in H;
          [congruence | exact Hs | rewrite Hl; exact Hlen | now apply Hall]
    end.
  - eapply Permutation_in; [apply Permutation_sym; exact P|apply nth_In; lia].
  - eapply Permutation_Forall; [apply Permutation_sym; exact P|].
    apply Forall_forall. intros z Hin.
    destruct (In_nth s z 0%Qc Hin) as (k & Hk & <-).
    apply nth_sorted; (assumption || lia).
Qed.

Lemma perc_100_is_the_largest_height_witness :
  let zs := map (fun m => Q2Qc (inject_Z m)) [5; 1; 3; 2; 9]%Z in
  let nb := [0; 1; -3; 3]%Z in
  exists (vs : list float64) (zmax : Qc),
    Percentile64.extract (mkPointCloud [] [] (map Fin zs)) nb None None None = Ok vs
    /\ List.length vs = 10%nat
    /\ nth 9 vs NaN = Fin zmax
    /\ In zmax (map (Spec.at_index zs) nb)
    /\ Forall (fun z => (z <= zmax)%Qc) (map (Spec.at_index zs) nb).
Proof.
  apply (perc_100_is_the_largest_height
           (mkPointCloud [] [] (map Fin (map (fun m => Q2Qc (inject_Z m)) [5; 1; 3; 2; 9]%Z)))
           (map (fun m => Q2Qc (inject_Z m)) [5; 1; 3; 2; 9]%Z) [0; 1; -3; 3]%Z).
  - reflexivity.
  - repeat (apply Forall_cons || apply Forall_nil);
      unfold in_bounds; cbn [List.length map]; lia.
  - discriminate.
  - unfold Spec.size_limit. cbn [List.length]. lia.
  - cbn [map]. repeat (apply Forall_cons || apply Forall_nil);
      apply representable_Z; lia.
Defined.

(** X21.  The rounding of the float operations shows in the percentiles:
    for the heights 5, 1, 3, 2 the 70th percentile by exact interpolation
    is 16/5, and [extract] on floats returns for perc_70 the binary64
    number [900719925474099 * 2^-48] (3.1999999999999993), two spacings
    below the binary64 number nearest to 16/5. *)
Theorem perc_70_is_rounded :
  let hs := map (fun m => Q2Qc (inject_Z m)) [5; 1; 3; 2]%Z in
  let s := map (fun m => Q2Qc (inject_Z m)) [1; 2; 3; 5]%Z in
  exists vs : list float64,
    Percentile64.extract (mkPointCloud [] [] (map Fin hs)) [0; 1; 2; 3]%Z None None None
    = Ok vs
    /\ nth 6 vs NaN = Fin (Q2Qc (900719925474099 # 281474976710656))
    /\ Spec.percentile s 70 = Q2Qc (16 # 5)
    /\ Binary64.round (Q2Qc (16 # 5))
       = Fin (Q2Qc (3602879701896397 # 1125899906842624)).
Proof.
  cbv zeta. eexists. split; [vm_compute; reflexivity|].
  split; [|split].
  - cbn [nth]. f64_canon.
  - f64_eval.
  - f64_eval.
Qed.

(** ** Percentiles: the median *)





(** ** Covariance: symmetry *)

Lemma sign_mul_comm (a b : comparison) : sign_mul a b = sign_mul b a.
Proof. destruct a, b; reflexivity. Qed.

Lemma mul_comm (x y : float64) : (x * y)%f64 = (y * x)%f64.
Proof.
  destruct x as [a| | |], y as [b| | |]; cbn [mul]; try reflexivity;
    try (now rewrite sign_mul_comm).
  f_equal. ring.
Qed.

Lemma einsum_comm (r s : list Ma.entry) : einsum_k r s = einsum_k s r.
Proof.
  unfold einsum_k. f_equal. revert s.
  induction r as [|a r IH]; intros [|b s]; try reflexivity.
  cbn [combine map fst snd]. now rewrite mul_comm, IH.
Qed.

Lemma cov_of_symmetric (N : nat) (p : triple (list float64)) :
  List.length (t1 p) = List.length (t0 p) ->
  List.length (t2 p) = List.length (t0 p) ->
  (List.length (t0 p) <= N)%nat ->
  transpose (cov_of (Z.of_nat N) (tmap (Utils.pad N) p))
  = cov_of (Z.of_nat N) (tmap (Utils.pad N) p).
Proof.
  intros H1 H2 Hn. destruct p as [u v w]. cbn [t0 t1 t2] in *.
  unfold transpose, column, cov_of, tmap, tmap2. cbn [t0 t1 t2].
  unfold n_of. rewrite !pad_mask_sum by lia. rewrite H1, H2.
  set (mu := m_of (Z.of_nat N) (Utils.pad N u)).
  set (mv := m_of (Z.of_nat N) (Utils.pad N v)).
  set (mw := m_of (Z.of_nat N) (Utils.pad N w)).
  rewrite (einsum_comm mv mu), (einsum_comm mw mu), (einsum_comm mw mv).
  reflexivity.
Qed.

Lemma get_xyz_rows (pc : PointCloud) (nbs : list (list Z)) (xyz : Ma.MaskedArray) :
  Utils.get_xyz pc nbs = Ok xyz ->
  forall g, In g (Ma.rows xyz) ->
  exists nb p, In nb nbs /\ Utils.get_point pc nb = Ok p
               /\ g = tmap (Utils.pad (Ma.shape2 xyz)) p
               /\ (List.length nb <= Ma.shape2 xyz)%nat.
Proof.
  intros Hxyz g Hg. apply In_nth_error in Hg. destruct Hg as (i & Hi).
  assert (L : List.length (Ma.rows xyz) = List.length nbs).
  { unfold Utils.get_xyz in Hxyz.
    destruct (mapM _ nbs) as [rows|] eqn:Er; [|discriminate Hxyz].
    cbn [bind] in Hxyz. injection Hxyz as <-. cbn [Ma.rows].
    eapply mapM_length. exact Er. }
  destruct (nth_error nbs i) as [nb|] eqn:Hnb.
  - destruct (get_xyz_nth pc nbs xyz i nb Hxyz Hnb) as (Hle & p & Hp & Hrow).
    exists nb, p. rewrite Hrow in Hi. injection Hi as <-.
    repeat split; try assumption. eapply nth_error_In. exact Hnb.
  - apply nth_error_None in Hnb.
    assert (i < List.length (Ma.rows xyz))%nat by (apply nth_error_Some; congruence).
    lia.
Qed.

(** X12.  Every matrix [_get_cov] returns for a packed batch is symmetric,
    whatever the coordinates are. *)
Theorem covariance_is_symmetric :
  forall (pc : PointCloud) (nbs : list (list Z)) (xyz : Ma.MaskedArray),
    Utils.get_xyz pc nbs = Ok xyz ->
    Forall (fun cov => transpose cov = cov) (_get_cov xyz).
Proof.
  intros pc nbs xyz Hxyz. unfold _get_cov. apply Forall_forall.
  intros cov Hcov. apply in_map_iff in Hcov. destruct Hcov as (g & <- & Hg).
  destruct (get_xyz_rows pc nbs xyz Hxyz g Hg) as (nb & p & _ & Hp & -> & Hle).
  destruct (get_point_lengths pc nb p Hp) as (L0 & L1 & L2).
  apply cov_of_symmetric; lia.
Qed.
(** ** Eigen-structure extractor: outcomes *)

Lemma get_point_in_bounds (pc : PointCloud) (nb : list Z) :
  Forall (in_bounds_pc pc) nb -> exists p, Utils.get_point pc nb = Ok p.
Proof.
  intros H. apply Forall_in_bounds_pc in H. destruct H as (Hx & Hy & Hz).
  destruct (take_in_bounds (x_data pc) nb Hx) as (x & Ex & _).
  destruct (take_in_bounds (y_data pc) nb Hy) as (y & Ey & _).
  destruct (take_in_bounds (z_data pc) nb Hz) as (z & Ez & _).
  exists (Triple x y z). unfold Utils.get_point. now rewrite Ex, Ey, Ez.
Qed.

Lemma get_point_out_of_bounds (pc : PointCloud) (nb : list Z) :
  ~ Forall (in_bounds_pc pc) nb -> Utils.get_point pc nb = Raise IndexError.
Proof.
  intros H. unfold Utils.get_point.
  destruct (Forall_in_bounds_dec (List.length (x_data pc)) nb) as [Hx|Hx];
    [|now rewrite (take_out_of_bounds _ _ Hx)].
  destruct (take_in_bounds _ _ Hx) as (x & -> & _). cbn [bind].
  destruct (Forall_in_bounds_dec (List.length (y_data pc)) nb) as [Hy|Hy];
    [|now rewrite (take_out_of_bounds _ _ Hy)].
  destruct (take_in_bounds _ _ Hy) as (y & -> & _). cbn [bind].
  destruct (Forall_in_bounds_dec (List.length (z_data pc)) nb) as [Hz|Hz];
    [|now rewrite (take_out_of_bounds _ _ Hz)].
  exfalso. apply H. apply Forall_in_bounds_pc. auto.
Qed.

Lemma get_xyz_in_bounds (pc : PointCloud) (nbs : list (list Z)) :
  Forall (Forall (in_bounds_pc pc)) nbs ->
  exists xyz, Utils.get_xyz pc nbs = Ok xyz
              /\ List.length (Ma.rows xyz) = List.length nbs.
Proof.
  intros H. unfold Utils.get_xyz.
  set (N := fold_right Nat.max 0%nat (map (@List.length Z) nbs)).
  destruct (mapM_all_ok
              (fun nb => p <- Utils.get_point pc nb ;; Ok (tmap (Utils.pad N) p)) nbs)
    as (rows & -> & L).
  - intros nb Hnb. rewrite Forall_forall in H.
    destruct (get_point_in_bounds pc nb (H nb Hnb)) as (p & ->).
    cbn [bind]. eexists. reflexivity.
  - cbn [bind]. eexists. split; [reflexivity|exact L].
Qed.

Lemma get_xyz_out_of_bounds (pc : PointCloud) (nbs : list (list Z)) :
  ~ Forall (Forall (in_bounds_pc pc)) nbs ->
  Utils.get_xyz pc nbs = Raise IndexError.
Proof.
  intros H. unfold Utils.get_xyz.
  set (N := fold_right Nat.max 0%nat (map (@List.length Z) nbs)). clearbody N.
  induction nbs as [|nb nbs IH].
  - exfalso. apply H. constructor.
  - cbn [mapM].
    destruct (Forall_dec _ (in_bounds_pc_dec pc) nb) as [Hnb|Hnb].
    + destruct (get_point_in_bounds pc nb Hnb) as (p & ->). cbn [bind].
      destruct (mapM _ nbs) as [rows|e] eqn:E.
      * exfalso. cbn [bind] in IH.
        assert (Hf : ~ Forall (Forall (in_bounds_pc pc)) nbs)
          by (intros Hf; apply H; now constructor).
        specialize (IH Hf). discriminate IH.
      * cbn [bind] in IH |- *. apply IH. intros Hf. apply H. now constructor.
    + now rewrite (get_point_out_of_bounds pc nb Hnb).
Qed.

(** X14.  The outcomes of [extract] on a batch: an empty batch or an index
    outside the cloud raises IndexError; otherwise the call either raises
    LinAlgError or returns seven arrays, each with one value per
    neighborhood of the batch. *)
Theorem eigen_extract_outcomes :
  forall (geev : matrix -> triple float64 * matrix) (pc : PointCloud)
         (nbs : list (list Z)) (tpc : option PointCloud) (ti : option Z)
         (vol : option Volume),
    (nbs = [] \/ ~ Forall (Forall (in_bounds_pc pc)) nbs ->
     extract geev pc (Batch nbs) tpc ti vol = Raise IndexError)
    /\ (nbs <> [] -> Forall (Forall (in_bounds_pc pc)) nbs ->
        extract geev pc (Batch nbs) tpc ti vol = Raise LinAlgError
        \/ exists out,
             extract geev pc (Batch nbs) tpc ti vol = Ok out
             /\ Forall (fun a => List.length a = List.length nbs)
                  [eigenv_1 out; eigenv_2 out; eigenv_3 out; normal_vector_1 out;
                   normal_vector_2 out; normal_vector_3 out; slope out]).
Proof.
  intros geev pc nbs tpc ti vol. split.
  - intros [->|H]; [reflexivity|]. unfold extract.
    destruct nbs as [|nb nbs]; [reflexivity|]. cbn [bind].
    now rewrite (get_xyz_out_of_bounds pc (nb :: nbs) H).
  - intros Hne H.
    destruct (extract geev pc (Batch nbs) tpc ti vol) as [out|e] eqn:E.
    + right. exists out. split; [reflexivity|].
      destruct (extract_inv geev pc (Batch nbs) tpc ti vol out E)
        as (nbs' & xyz & Hnbs & Hxyz & _ & ->).
      assert (nbs' = nbs) as -> by (destruct nbs; [contradiction|exact Hnbs]).
      destruct (get_xyz_in_bounds pc nbs H) as (xyz' & Hxyz' & L).
      rewrite Hxyz in Hxyz'. injection Hxyz' as <-.
      cbn [eigenv_1 eigenv_2 eigenv_3 normal_vector_1 normal_vector_2
           normal_vector_3 slope].
      repeat constructor; rewrite length_map; unfold _get_cov;
        rewrite length_map; exact L.
    + left. f_equal. unfold extract in E.
      destruct nbs as [|nb nbs]; [contradiction|]. cbn [bind] in E.
      destruct (get_xyz_in_bounds pc (nb :: nbs) H) as (xyz & Hxyz & _).
      rewrite Hxyz in E. cbn [bind] in E. unfold Linalg.eig in E.
      destruct (forallb _ _); [discriminate E|]. cbn [bind] in E. congruence.
Qed.
(** ** Eigen-structure extractor: which batches succeed *)

Lemma index_map_fin (d : list Qc) (i : Z) (a : float64) :
  Numpy.index (map Fin d) i = Ok a -> exists q, a = Fin q /\ In q d.
Proof.
  unfold Numpy.index. destruct (_ && _)%bool; [|discriminate].
  rewrite nth_error_map. destruct (nth_error d _) as [q|] eqn:E; [|discriminate].
  cbn [option_map]. intros [= <-]. exists q. split; [reflexivity|].
  eapply nth_error_In. exact E.
Qed.

Lemma take_map_fin (d : list Qc) (l : list Z) (r : list float64) :
  Numpy.take (map Fin d) l = Ok r ->
  exists qs, r = map Fin qs /\ Forall (fun q => In q d) qs.
Proof.
  unfold Numpy.take. revert r. induction l as [|i l IH]; intros r H.
  - injection H as <-. exists []. split; [reflexivity|constructor].
  - cbn [mapM] in H. destruct (Numpy.index (map Fin d) i) as [a|] eqn:Ea;
      [|discriminate H].
    cbn [bind] in H. destruct (mapM _ l) as [r'|]; [|discriminate H].
    cbn [bind] in H. injection H as <-.
    destruct (index_map_fin d i a Ea) as (q & -> & Hq).
    destruct (IH r' eq_refl) as (qs & -> & Hqs).
    exists (q :: qs). split; [reflexivity|now constructor].
Qed.

Lemma in_range_sub (d qs : list Qc) :
  in_range d -> Forall (fun q => In q d) qs -> in_range qs.
Proof.
  unfold in_range. rewrite !Forall_forall. intros Hd Hqs q Hq. apply Hd. now apply Hqs.
Qed.

Lemma get_point_fin (pc : PointCloud) (c : triple (list Qc)) (nb : list Z)
    (p : triple (list float64)) :
  x_data pc = map Fin (t0 c) -> y_data pc = map Fin (t1 c) ->
  z_data pc = map Fin (t2 c) ->
  in_range (t0 c) -> in_range (t1 c) -> in_range (t2 c) ->
  Utils.get_point pc nb = Ok p ->
  exists q, p = tmap (map Fin) q
            /\ in_range (t0 q) /\ in_range (t1 q) /\ in_range (t2 q).
Proof.
  intros Hx Hy Hz R0 R1 R2. unfold Utils.get_point. rewrite Hx, Hy, Hz. intros H.
  destruct (Numpy.take (map Fin (t0 c)) nb) as [x|] eqn:Ex; [|discriminate H].
  cbn [bind] in H.
  destruct (Numpy.take (map Fin (t1 c)) nb) as [y|] eqn:Ey; [|discriminate H].
  cbn [bind] in H.
  destruct (Numpy.take (map Fin (t2 c)) nb) as [z|] eqn:Ez; [|discriminate H].
  cbn [bind] in H. injection H as <-.
  destruct (take_map_fin _ _ _ Ex) as (qx & -> & Fx).
  destruct (take_map_fin _ _ _ Ey) as (qy & -> & Fy).
  destruct (take_map_fin _ _ _ Ez) as (qz & -> & Fz).
  exists (Triple qx qy qz). cbn [tmap t0 t1 t2].
  split; [reflexivity|]. split; [exact (in_range_sub _ _ R0 Fx)|].
  split; [exact (in_range_sub _ _ R1 Fy)|exact (in_range_sub _ _ R2 Fz)].
Qed.

Lemma covariance_fin (u v : list Qc) :
  List.length v = List.length u -> List.length u <> 1%nat ->
  isfinite (covariance (map Fin u) (map Fin v)) = true.
Proof.
  intros L Hn. unfold covariance. rewrite length_map.
  assert (Hq : Q2Qc (inject_Z (Z.of_nat (List.length u) - 1)) <> 0%Qc)
    by (apply Q2Qc_inject_Z_nonzero; lia).
  destruct u as [|x u].
  - destruct v; [|discriminate L]. unfold centered. cbn [map combine].
    unfold Numpy.sum, of_Z, zero. cbn [fold_left div].
    now rewrite (Qc_eq_bool_neq _ _ Hq).
  - assert (Hu : x :: u <> []) by discriminate.
    assert (Hv : v <> []) by (intros ->; discriminate L).
    destruct (centered_fin (x :: u) Hu) as (cu & ->).
    destruct (centered_fin v Hv) as (cv & ->).
    rewrite products_fin, sum_fin. unfold of_Z. cbn [div].
    now rewrite (Qc_eq_bool_neq _ _ Hq).
Qed.

Lemma covariance_matrix_fin (q : triple (list Qc)) :
  List.length (t1 q) = List.length (t0 q) ->
  List.length (t2 q) = List.length (t0 q) ->
  List.length (t0 q) <> 1%nat ->
  Linalg.matrix_isfinite (covariance_matrix (tmap (map Fin) q)) = true.
Proof.
  intros L1 L2 Hn. destruct q as [u v w]. cbn [t0 t1 t2] in *.
  unfold Linalg.matrix_isfinite, covariance_matrix, tforall, tmap. cbn [t0 t1 t2].
  rewrite !covariance_fin by lia. reflexivity.
Qed.

Lemma covariance_one_point (x : Qc) :
  covariance (map Fin [x]) (map Fin [x]) = NaN.
Proof.
  unfold covariance, centered. rewrite (mean_fin [x]) by discriminate.
  cbn [map combine fst snd List.length sub neg add mul].
  unfold Numpy.sum, zero, of_Z. cbn [fold_left add div].
  change (Q2Qc (inject_Z (Z.of_nat 1 - 1))) with 0%Qc.
  rewrite Qc_eq_bool_refl. cbn [sign].
  replace (Q2Qc (inject_Z (Z.of_nat 1))) with 1%Qc by (apply Qc_is_canon; reflexivity).
  set (num := (0 + (x + - (qsum [x] / 1)) * (x + - (qsum [x] / 1)))%Qc).
  assert (E : num = 0%Qc).
  { subst num. unfold qsum. cbn [fold_left]. field. discriminate. }
  rewrite E. reflexivity.
Qed.

Lemma covariance_matrix_one_point (q : triple (list Qc)) :
  List.length (t0 q) = 1%nat ->
  Linalg.matrix_isfinite (covariance_matrix (tmap (map Fin) q)) = false.
Proof.
  intros L. destruct q as [[|x [|? ?]] v w]; try discriminate L.
  unfold Linalg.matrix_isfinite, covariance_matrix, tforall, tmap. cbn [t0 t1 t2].
  now rewrite covariance_one_point.
Qed.

(** X15.  For a cloud with finite coordinates of magnitude at most
    [2^480] and a non-empty batch of neighborhoods of valid indices, of at
    most [2^30] points each, [extract] returns if and only if no
    neighborhood of the batch has exactly one point; a single one-point
    neighborhood makes the whole batch raise LinAlgError. *)
Theorem eigen_extract_succeeds_iff_no_single_point :
  forall (geev : matrix -> triple float64 * matrix) (pc : PointCloud)
         (c : triple (list Qc)) (nbs : list (list Z)),
    x_data pc = map Fin (t0 c) -> y_data pc = map Fin (t1 c) ->
    z_data pc = map Fin (t2 c) ->
    in_limit (t0 c) -> in_limit (t1 c) -> in_limit (t2 c) ->
    nbs <> [] -> Forall (Forall (in_bounds_pc pc)) nbs ->
    Forall (fun nb => (Z.of_nat (List.length nb) <= size_limit)%Z) nbs ->
    (Forall (fun nb => List.length nb <> 1%nat) nbs ->
     exists out, extract geev pc (Batch nbs) None None None = Ok out)
    /\ (Exists (fun nb => List.length nb = 1%nat) nbs ->
        extract geev pc (Batch nbs) None None None = Raise LinAlgError).
Proof.
  intros geev pc c nbs Hx Hy Hz R0 R1 R2 Hne Hb _.
  apply in_limit_in_range in R0, R1, R2.
  destruct (get_xyz_in_bounds pc nbs Hb) as (xyz & Hxyz & L).
  assert (Hex : extract geev pc (Batch nbs) None None None
                = (ee <- Linalg.eig geev (_get_cov xyz) ;;
                   Ok {| eigenv_1 := map (fun r => nth 0 r NaN)
                                       (map (fun w => rev (Numpy.sort (to_list w))) (fst ee));
                         eigenv_2 := map (fun r => nth 1 r NaN)
                                       (map (fun w => rev (Numpy.sort (to_list w))) (fst ee));
                         eigenv_3 := map (fun r => nth 2 r NaN)
                                       (map (fun w => rev (Numpy.sort (to_list w))) (fst ee));
                         normal_vector_1 := map (@t0 float64) (map (column (@t2 float64)) (snd ee));
                         normal_vector_2 := map (@t1 float64) (map (column (@t2 float64)) (snd ee));
                         normal_vector_3 := map (@t2 float64) (map (column (@t2 float64)) (snd ee));
                         slope := map (fun nv => dot3 nv (Triple zero zero one))
                                      (map (column (@t2 float64)) (snd ee)) |})).
  { unfold extract. destruct nbs as [|nb nbs]; [contradiction|].
    unfold bind at 1. rewrite Hxyz. reflexivity. }
  rewrite Hex. unfold Linalg.eig. split.
  - intros Hn.
    replace (forallb Linalg.matrix_isfinite (_get_cov xyz)) with true.
    { cbn [bind]. eexists. reflexivity. }
    symmetry. apply forallb_forall. intros cov Hcov.
    unfold _get_cov in Hcov. apply in_map_iff in Hcov. destruct Hcov as (g & <- & Hg).
    destruct (get_xyz_rows pc nbs xyz Hxyz g Hg) as (nb & p & Hnb & Hp & -> & Hle).
    destruct (get_point_fin pc c nb p Hx Hy Hz R0 R1 R2 Hp) as (q & -> & Q0 & Q1 & Q2).
    destruct (get_point_lengths pc nb _ Hp) as (L0 & L1 & L2).
    destruct q as [u v w]. cbn [tmap t0 t1 t2] in *. rewrite length_map in L0, L1, L2.
    rewrite (cov_of_pad (Ma.shape2 xyz) (Triple u v w)); cbn [t0 t1 t2];
      try (assumption || lia).
    apply (covariance_matrix_fin (Triple u v w)); cbn [t0 t1 t2]; try lia.
    rewrite Forall_forall in Hn. specialize (Hn nb Hnb). lia.
  - intros He. apply Exists_exists in He. destruct He as (nb & Hnb & Hlen).
    apply In_nth_error in Hnb. destruct Hnb as (i & Hi).
    destruct (get_xyz_nth pc nbs xyz i nb Hxyz Hi) as (_ & p & Hp & _).
    destruct (get_point_fin pc c nb p Hx Hy Hz R0 R1 R2 Hp) as (q & -> & Q0 & Q1 & Q2).
    pose proof (get_cov_nth pc nbs xyz i nb q Hxyz Hi Hp Q0 Q1 Q2) as Hcov.
    destruct (get_point_lengths pc nb _ Hp) as (L0 & _).
    assert (Hf : forallb Linalg.matrix_isfinite (_get_cov xyz) = false).
    { destruct (forallb _ _) eqn:E; [|reflexivity].
      rewrite forallb_forall in E. apply nth_error_In in Hcov. specialize (E _ Hcov).
      rewrite covariance_matrix_one_point in E; [discriminate E|].
      destruct q as [u v w]. cbn [tmap t0] in *. rewrite length_map in L0. lia. }
    now rewrite Hf.
Qed.
(** ** Eigen-structure extractor: empty neighborhoods *)

Lemma covariance_matrix_empty :
  covariance_matrix (tmap (map Fin) (Triple [] [] [])) = diag zero zero zero.
Proof. f64_eval. Qed.

(** X16.  In a batch on which [extract] returns, an empty neighborhood
    gets the eigenvalues 0, 0, 0 and, with a solver that is exact on
    diagonal matrices, the normal (0, 0, 1) and the slope 1, whatever the
    other neighborhoods and the padded width are. *)
Theorem empty_neighborhood_features :
  forall (geev : matrix -> triple float64 * matrix) (pc : PointCloud)
         (nbs : list (list Z)) (i : nat) (out : features),
    Linalg.exact_on_diagonal geev ->
    extract geev pc (Batch nbs) None None None = Ok out ->
    nth_error nbs i = Some [] ->
    nth_error (eigenv_1 out) i = Some zero
    /\ nth_error (eigenv_2 out) i = Some zero
    /\ nth_error (eigenv_3 out) i = Some zero
    /\ nth_error (normal_vector_1 out) i = Some zero
    /\ nth_error (normal_vector_2 out) i = Some zero
    /\ nth_error (normal_vector_3 out) i = Some one
    /\ nth_error (slope out) i = Some one.
Proof.
  intros geev pc nbs i out Hd H Hi.
  destruct (extract_inv geev pc (Batch nbs) None None None out H)
    as (nbs' & xyz & Hnb & Hxyz & _ & ->).
  assert (nbs' = nbs) as -> by (destruct nbs; [destruct i; discriminate Hi|exact Hnb]).
  assert (Hcov : nth_error (_get_cov xyz) i = Some (diag zero zero zero)).
  { rewrite <- covariance_matrix_empty.
    apply (get_cov_nth pc nbs xyz i [] (Triple [] [] []) Hxyz Hi);
      try reflexivity; constructor. }
  cbn [eigenv_1 eigenv_2 eigenv_3 normal_vector_1 normal_vector_2
       normal_vector_3 slope].
  rewrite !(map_nth_error _ _ _ Hcov), (Hd zero zero zero).
  repeat split; f64_eval.
Qed.

(** ** Covariance: variances *)

Lemma fold_plus_nonneg (l : list Qc) (a : Qc) :
  (0 <= a)%Qc -> Forall (fun x => (0 <= x)%Qc) l -> (0 <= fold_left Qcplus l a)%Qc.
Proof.
  revert a. induction l as [|x l IH]; intros a Ha Hl; [exact Ha|].
  inversion Hl; subst. cbn [fold_left]. apply IH; [|assumption].
  unfold Qcle in *. rewrite this_plus. change (this 0%Qc) with 0%Q in *. lra.
Qed.

Lemma squares_nonneg (l : list Qc) :
  Forall (fun x => (0 <= x)%Qc)
         (map (fun p : Qc * Qc => (fst p * snd p)%Qc) (combine l l)).
Proof.
  induction l as [|x l IH]; [constructor|].
  cbn [combine map fst snd]. constructor; [|exact IH].
  unfold Qcle. rewrite this_mult. change (this 0%Qc) with 0%Q. nra.
Qed.

Lemma variance_fin (u : list Qc) :
  (2 <= List.length u)%nat ->
  exists v : Qc, covariance (map Fin u) (map Fin u) = Fin v /\ (0 <= v)%Qc.
Proof.
  intros Hn. assert (Hu : u <> []) by (intros ->; cbn in Hn; lia).
  unfold covariance. rewrite length_map.
  destruct (centered_fin u Hu) as (cu & ->).
  rewrite products_fin, sum_fin. unfold of_Z. cbn [div].
  assert (Hq : Q2Qc (inject_Z (Z.of_nat (List.length u) - 1)) <> 0%Qc)
    by (apply Q2Qc_inject_Z_nonzero; lia).
  rewrite (Qc_eq_bool_neq _ _ Hq). eexists. split; [reflexivity|].
  pose proof (fold_plus_nonneg _ 0%Qc (Qcle_refl 0) (squares_nonneg cu)) as Hs.
  fold (qsum (map (fun p : Qc * Qc => (fst p * snd p)%Qc) (combine cu cu))) in Hs.
  set (S := qsum _) in *. set (m := (Z.of_nat (List.length u) - 1)%Z) in *.
  unfold Qcle in *. change (this 0%Qc) with 0%Q in *.
  assert (E : (this (S / Q2Qc (inject_Z m))%Qc == this S / inject_Z m)%Q).
  { unfold Qcdiv, Qcmult, Qcinv. cbn [this Q2Qc]. rewrite !Qred_correct. reflexivity. }
  rewrite E.
  assert (Hm : (0 < inject_Z m)%Q)
    by (change 0%Q with (inject_Z 0); rewrite <- Zlt_Qlt; lia).
  apply Qle_shift_div_l; [exact Hm|]. lra.
Qed.

(** X13.  For a neighborhood of at least two and at most [2^30] points
    with finite coordinates of magnitude at most [2^480], the diagonal of
    the covariance matrix [_get_cov] returns holds three finite,
    non-negative variances. *)
Theorem variances_are_non_negative :
  forall (pc : PointCloud) (nbs : list (list Z)) (xyz : Ma.MaskedArray)
         (i : nat) (nb : list Z) (q : triple (list Qc)),
    Utils.get_xyz pc nbs = Ok xyz ->
    nth_error nbs i = Some nb ->
    Utils.get_point pc nb = Ok (tmap (map Fin) q) ->
    in_limit (t0 q) -> in_limit (t1 q) -> in_limit (t2 q) ->
    (2 <= Z.of_nat (List.length nb) <= size_limit)%Z ->
    exists (cov : matrix) (vx vy vz : Qc),
      nth_error (_get_cov xyz) i = Some cov
      /\ t0 (t0 cov) = Fin vx /\ t1 (t1 cov) = Fin vy /\ t2 (t2 cov) = Fin vz
      /\ (0 <= vx)%Qc /\ (0 <= vy)%Qc /\ (0 <= vz)%Qc.
Proof.
  intros pc nbs xyz i nb q Hxyz Hi Hp R0 R1 R2 Hn.
  apply in_limit_in_range in R0, R1, R2.
  pose proof (get_cov_nth pc nbs xyz i nb q Hxyz Hi Hp R0 R1 R2) as Hcov.
  destruct (get_point_lengths pc nb _ Hp) as (L0 & L1 & L2).
  destruct q as [u v w]. cbn [tmap t0 t1 t2] in *. rewrite length_map in L0, L1, L2.
  destruct (variance_fin u ltac:(lia)) as (vx & Ex & Hx).
  destruct (variance_fin v ltac:(lia)) as (vy & Ey & Hy).
  destruct (variance_fin w ltac:(lia)) as (vz & Ez & Hz).
  eexists. exists vx, vy, vz. split; [exact Hcov|].
  unfold covariance_matrix, tmap. cbn [t0 t1 t2]. auto 10.
Qed.

(** ** Serial reference: few points *)

(** X20.  The serial reference returns the eigenvalues [0, 0, 0] for every
    neighborhood of at most 3 valid indices, whatever the coordinates and
    the solver are, and raises IndexError when an index is outside the
    cloud. *)
Theorem serial_few_points :
  forall (geev : matrix -> triple float64 * matrix) (pc : PointCloud)
         (nb : list Z),
    (Forall (in_bounds_pc pc) nb -> (List.length nb <= 3)%nat ->
     EigenValueSerial.extract geev pc nb = Ok [zero; zero; zero])
    /\ (~ Forall (in_bounds_pc pc) nb ->
        EigenValueSerial.extract geev pc nb = Raise IndexError).
Proof.
  intros geev pc nb. unfold EigenValueSerial.extract. split.
  - intros H Hn. destruct (get_point_in_bounds pc nb H) as (p & Hp).
    rewrite Hp. cbn [bind].
    destruct (get_point_lengths pc nb p Hp) as (L0 & _).
    unfold EigenValueSerial._structure_tensor.
    replace (3 <? Z.of_nat (List.length (t0 p)))%Z with false
      by (symmetry; apply Z.ltb_ge; lia).
    reflexivity.
  - intros H. now rewrite (get_point_out_of_bounds pc nb H).
Qed.
(** ** Evaluations on concrete clouds *)

Lemma geev_on_diagonal_finite (a : matrix) :
  Linalg.matrix_isfinite a = true ->
  tforall isfinite (fst (Linalg.geev_on_diagonal a)) = true.
Proof.
  destruct a as [[a00 a01 a02] [a10 a11 a12] [a20 a21 a22]].
  unfold Linalg.matrix_isfinite, Linalg.geev_on_diagonal, tforall.
  cbn [t0 t1 t2 fst]. rewrite !andb_true_iff. tauto.
Qed.

Lemma echo_ratio_is_a_percentage_witness :
  exists v : Qc,
    EchoRatio.extract
      (mkPointCloud [of_Z 1; of_Z 2; of_Z 4; of_Z 1; PInf]
                    [of_Z 2; of_Z 2; of_Z 2; of_Z 2; of_Z 100]
                    [of_Z 3; of_Z 3; of_Z 3; of_Z 8; NaN])
      [0; 1; 2; -2; 4]%Z
      (Some (mkPointCloud [of_Z 9; of_Z 1] [of_Z 9; of_Z 2] [of_Z 9; of_Z 3]))
      (Some (-1)%Z) (InfiniteCylinder (Fin (Q2Qc 3)))
    = Ok (Fin v)
    /\ (0 <= v)%Q /\ (v <= 100)%Q.
Proof.
  apply (echo_ratio_is_a_percentage
           (mkPointCloud [of_Z 1; of_Z 2; of_Z 4; of_Z 1; PInf]
                         [of_Z 2; of_Z 2; of_Z 2; of_Z 2; of_Z 100]
                         [of_Z 3; of_Z 3; of_Z 3; of_Z 8; NaN])
           (mkPointCloud [of_Z 9; of_Z 1] [of_Z 9; of_Z 2] [of_Z 9; of_Z 3])
           [0; 1; 2; -2; 4]%Z (-1)%Z (Fin (Q2Qc 3))).
  - repeat (apply Forall_cons || apply Forall_nil);
      unfold in_bounds_pc, in_bounds; cbn [x_data y_data z_data List.length]; lia.
  - unfold in_bounds_pc, in_bounds; cbn [x_data y_data z_data List.length]; lia.
  - discriminate.
  - vm_compute. reflexivity.
  - right. exists (Q2Qc 3). split; [reflexivity|]. apply Qle_bool_iff. reflexivity.
Defined.

Lemma echo_ratio_extremes_witness :
  let xs := [Q2Qc 1; Q2Qc 2; Q2Qc 4; Q2Qc 1; Q2Qc 100] in
  let ys := [Q2Qc 2; Q2Qc 2; Q2Qc 2; Q2Qc 2; Q2Qc 100] in
  let zs := [Q2Qc 3; Q2Qc 3; Q2Qc 3; Q2Qc 8; Q2Qc 100] in
  let txs := [Q2Qc 9; Q2Qc 1] in
  let tys := [Q2Qc 9; Q2Qc 2] in
  let tzs := [Q2Qc 9; Q2Qc 3] in
  let nb := [0; 1; 2]%Z in
  let pc := mkPointCloud (map Fin xs) (map Fin ys) (map Fin zs) in
  let tpc := mkPointCloud (map Fin txs) (map Fin tys) (map Fin tzs) in
  let pts := map (Spec.point_at xs ys zs) nb in
  let t := Spec.point_at txs tys tzs (-1) in
  let res :=
    EchoRatio.extract pc nb (Some tpc) (Some (-1)%Z) (InfiniteCylinder (Fin (Q2Qc 3))) in
  (res = Ok (Fin (Q2Qc 100))
   <-> Forall (fun p => (Spec.sq_euclid p t <= Q2Qc 3 * Q2Qc 3)%Qc) pts)
  /\ (res = Ok (Fin 0%Qc)
      <-> Forall (fun p => ~ (Spec.sq_euclid p t <= Q2Qc 3 * Q2Qc 3)%Qc) pts).
Proof.
  apply (echo_ratio_extremes 0
           [Q2Qc 1; Q2Qc 2; Q2Qc 4; Q2Qc 1; Q2Qc 100]
           [Q2Qc 2; Q2Qc 2; Q2Qc 2; Q2Qc 2; Q2Qc 100]
           [Q2Qc 3; Q2Qc 3; Q2Qc 3; Q2Qc 8; Q2Qc 100]
           [Q2Qc 9; Q2Qc 1] [Q2Qc 9; Q2Qc 2] [Q2Qc 9; Q2Qc 3]
           [0; 1; 2]%Z (-1)%Z (Q2Qc 3)).
  - lia.
  - repeat (apply Forall_cons || apply Forall_nil);
      match goal with
      | |- Spec.on_grid _ _ (Q2Qc (?n # 1)) =>
          exists n; split; [vm_compute; discriminate | apply Qc_is_canon; reflexivity]
      end.
  - repeat (apply Forall_cons || apply Forall_nil);
      match goal with
      | |- Spec.on_grid _ _ (Q2Qc (?n # 1)) =>
          exists n; split; [vm_compute; discriminate | apply Qc_is_canon; reflexivity]
      end.
  - exists 3%Z. split; [vm_compute; discriminate | apply Qc_is_canon; reflexivity].
  - repeat (apply Forall_cons || apply Forall_nil);
      unfold in_bounds_pc, in_bounds; cbn [x_data y_data z_data map List.length]; lia.
  - unfold in_bounds_pc, in_bounds; cbn [x_data y_data z_data map List.length]; lia.
  - discriminate.
  - vm_compute. reflexivity.
Defined.

Lemma echo_ratio_permutation_invariant_witness :
  let pc := mkPointCloud [of_Z 0; of_Z 1; of_Z 3; of_Z 0]
                         [of_Z 0; of_Z 0; of_Z 0; of_Z 0]
                         [of_Z 0; of_Z 0; of_Z 0; of_Z 5] in
  let tpc := mkPointCloud [of_Z 0] [of_Z 0] [of_Z 0] in
  EchoRatio.extract pc [0; 1; 2; 3]%Z (Some tpc) (Some 0%Z)
    (InfiniteCylinder (Fin (Q2Qc 3)))
  = EchoRatio.extract pc [1; 0; 2; 3]%Z (Some tpc) (Some 0%Z)
      (InfiniteCylinder (Fin (Q2Qc 3))).
Proof.
  intros pc tpc.
  apply (echo_ratio_permutation_invariant pc [0; 1; 2; 3]%Z [1; 0; 2; 3]%Z).
  apply perm_swap.
Defined.

Lemma percentile_permutation_invariant_witness :
  let pc := mkPointCloud [] [] [of_Z 5; of_Z 1; of_Z 3; of_Z 2] in
  Percentile.extract pc [0; 1; 2; 3]%Z None None None
  = Percentile.extract pc [1; 0; 2; 3]%Z None None None.
Proof.
  intros pc.
  apply (percentile_permutation_invariant pc [0; 1; 2; 3]%Z [1; 0; 2; 3]%Z).
  apply perm_swap.
Defined.


Lemma covariance_is_symmetric_witness :
  exists xyz : Ma.MaskedArray,
    Utils.get_xyz pc_axes [[0; 1; 2; 3; 4; 5; 6]; [0; 1]; []]%Z = Ok xyz
    /\ Forall (fun cov => transpose cov = cov) (_get_cov xyz).
Proof.
  eexists. split; [reflexivity|].
  apply (covariance_is_symmetric pc_axes [[0; 1; 2; 3; 4; 5; 6]; [0; 1]; []]%Z).
  reflexivity.
Defined.

Lemma eigen_extract_succeeds_iff_no_single_point_witness :
  let nbs := [[0; 1; 2; 3; 4; 5; 6]; [0; 1]; []]%Z in
  (Forall (fun nb => List.length nb <> 1%nat) nbs ->
   exists out, extract Linalg.geev_on_diagonal pc_axes (Batch nbs) None None None
               = Ok out)
  /\ (Exists (fun nb => List.length nb = 1%nat) nbs ->
      extract Linalg.geev_on_diagonal pc_axes (Batch nbs) None None None
      = Raise LinAlgError).
Proof.
  intros nbs.
  apply (eigen_extract_succeeds_iff_no_single_point Linalg.geev_on_diagonal pc_axes
           (Triple [Q2Qc 3; Q2Qc (-3); Q2Qc 0; Q2Qc 0; Q2Qc 0; Q2Qc 0; Q2Qc 0]
                   [Q2Qc 0; Q2Qc 0; Q2Qc 6; Q2Qc (-6); Q2Qc 0; Q2Qc 0; Q2Qc 0]
                   [Q2Qc 0; Q2Qc 0; Q2Qc 0; Q2Qc 0; Q2Qc 9; Q2Qc (-9); Q2Qc 0])
           nbs).
  - f64_eval.
  - f64_eval.
  - f64_eval.
  - repeat (apply Forall_cons || apply Forall_nil); apply Qcleb_le; reflexivity.
  - repeat (apply Forall_cons || apply Forall_nil); apply Qcleb_le; reflexivity.
  - repeat (apply Forall_cons || apply Forall_nil); apply Qcleb_le; reflexivity.
  - discriminate.
  - repeat (first [apply Forall_nil | apply Forall_cons]);
      unfold in_bounds_pc, in_bounds, pc_axes;
      cbn [List.length x_data y_data z_data]; lia.
  - repeat (first [apply Forall_nil | apply Forall_cons]); vm_compute; discriminate.
Defined.

Lemma eigenvalues_are_sorted_descending_witness :
  let out :=
    {| eigenv_1 := [of_Z 27; of_Z 18]; eigenv_2 := [of_Z 12; zero];
       eigenv_3 := [of_Z 3; zero];
       normal_vector_1 := [zero; zero]; normal_vector_2 := [zero; zero];
       normal_vector_3 := [one; one]; slope := [one; one] |} in
  extract Linalg.geev_on_diagonal pc_axes
    (Batch [[0; 1; 2; 3; 4; 5; 6]; [0; 1]]%Z) None None None = Ok out
  /\ Forall2 (fun hi lo => geb hi lo = true) (eigenv_1 out) (eigenv_2 out)
  /\ Forall2 (fun hi lo => geb hi lo = true) (eigenv_2 out) (eigenv_3 out).
Proof.
  intros out.
  assert (H : extract Linalg.geev_on_diagonal pc_axes
                (Batch [[0; 1; 2; 3; 4; 5; 6]; [0; 1]]%Z) None None None = Ok out)
    by f64_eval.
  split; [exact H|].
  apply (eigenvalues_are_sorted_descending Linalg.geev_on_diagonal
           geev_on_diagonal_finite _ _ _ _ _ out H).
Defined.


Lemma empty_neighborhood_features_witness :
  let out :=
    {| eigenv_1 := [of_Z 27; zero]; eigenv_2 := [of_Z 12; zero];
       eigenv_3 := [of_Z 3; zero];
       normal_vector_1 := [zero; zero]; normal_vector_2 := [zero; zero];
       normal_vector_3 := [one; one]; slope := [one; one] |} in
  extract Linalg.geev_on_diagonal pc_axes
    (Batch [[0; 1; 2; 3; 4; 5; 6]; []]%Z) None None None = Ok out
  /\ nth_error (eigenv_1 out) 1 = Some zero
  /\ nth_error (eigenv_2 out) 1 = Some zero
  /\ nth_error (eigenv_3 out) 1 = Some zero
  /\ nth_error (normal_vector_1 out) 1 = Some zero
  /\ nth_error (normal_vector_2 out) 1 = Some zero
  /\ nth_error (normal_vector_3 out) 1 = Some one
  /\ nth_error (slope out) 1 = Some one.
Proof.
  intros out.
  assert (H : extract Linalg.geev_on_diagonal pc_axes
                (Batch [[0; 1; 2; 3; 4; 5; 6]; []]%Z) None None None = Ok out)
    by f64_eval.
  split; [exact H|].
  apply (empty_neighborhood_features Linalg.geev_on_diagonal pc_axes
           [[0; 1; 2; 3; 4; 5; 6]; []]%Z 1 out (fun a b c => eq_refl) H).
  reflexivity.
Defined.

Lemma variances_are_non_negative_witness :
  exists (xyz : Ma.MaskedArray) (cov : matrix) (vx vy vz : Qc),
    Utils.get_xyz pc_axes [[0; 1; 2; 3; 4; 5; 6]; [0; 1]; []]%Z = Ok xyz
    /\ nth_error (_get_cov xyz) 1 = Some cov
    /\ t0 (t0 cov) = Fin vx /\ t1 (t1 cov) = Fin vy /\ t2 (t2 cov) = Fin vz
    /\ (0 <= vx)%Qc /\ (0 <= vy)%Qc /\ (0 <= vz)%Qc.
Proof.
  eexists.
  destruct (variances_are_non_negative pc_axes
              [[0; 1; 2; 3; 4; 5; 6]; [0; 1]; []]%Z _ 1 [0; 1]%Z
              (Triple [Q2Qc 3; Q2Qc (-3)] [Q2Qc 0; Q2Qc 0] [Q2Qc 0; Q2Qc 0])
              eq_refl eq_refl)
    as (cov & vx & vy & vz & H).
  - f64_eval.
  - repeat (apply Forall_cons || apply Forall_nil); apply Qcleb_le; reflexivity.
  - repeat (apply Forall_cons || apply Forall_nil); apply Qcleb_le; reflexivity.
  - repeat (apply Forall_cons || apply Forall_nil); apply Qcleb_le; reflexivity.
  - vm_compute. split; discriminate.
  - exists cov, vx, vy, vz. split; [reflexivity|exact H].
Defined.
